(** * daibug: the hub's stores, redactor, watch rules, sandbox and session format

    A shallow embedding of the TypeScript sources of the daibug hub and the
    properties its specification states about them.  The first part of the
    file holds the embedding, one module per source file; the second part
    holds the lemmas.

    Conventions of the embedding:
    - a JS string is a [string] of 8-bit characters, and the case mappings
      [toLowerCase] / [toUpperCase] act on the ASCII letters;
    - a JS number is an integer ([Z]): status codes, timestamps, counters;
    - a JS value of type [unknown] is a [value]: the JSON constructors plus
      [undefined]; an object is the ordered list of its own enumerable
      properties (prototype chains are not modelled);
    - builtins of the platform that the sources call ([new URL], [Date.now])
      are parameters of the definitions that use them. *)

From Stdlib Require Import ZArith Lia Ascii String Sorted.
From Stdlib Require DecimalString DecimalZ.
From stdpp Require Import base option list gmap strings.

Set Default Proof Using "Type".

(** ** JavaScript strings *)

Module JsString.

Definition is_upper (c : ascii) : bool :=
  let n := nat_of_ascii c in (65 <=? n)%nat && (n <=? 90)%nat.

Definition is_lower (c : ascii) : bool :=
  let n := nat_of_ascii c in (97 <=? n)%nat && (n <=? 122)%nat.

Definition lower_char (c : ascii) : ascii :=
  if is_upper c then ascii_of_nat (nat_of_ascii c + 32) else c.

Definition upper_char (c : ascii) : ascii :=
  if is_lower c then ascii_of_nat (nat_of_ascii c - 32) else c.

Fixpoint map_chars (f : ascii -> ascii) (s : string) : string :=
  match s with
  | EmptyString => EmptyString
  | String c r => String (f c) (map_chars f r)
  end.

(** [s.toLowerCase()] and [s.toUpperCase()]. *)
Definition toLowerCase (s : string) : string := map_chars lower_char s.
Definition toUpperCase (s : string) : string := map_chars upper_char s.

(** [\s] of a regular expression, and what [trim] strips: tab, line feed,
    vertical tab, form feed, carriage return, space. *)
Definition is_space (c : ascii) : bool :=
  let n := nat_of_ascii c in
  ((9 <=? n)%nat && (n <=? 13)%nat) || (n =? 32)%nat.

(** A line terminator, which [.] of a regular expression does not match. *)
Definition is_line_terminator (c : ascii) : bool :=
  let n := nat_of_ascii c in (n =? 10)%nat || (n =? 13)%nat.

Fixpoint trimStart (s : string) : string :=
  match s with
  | String c r => if is_space c then trimStart r else s
  | EmptyString => EmptyString
  end.

Fixpoint trimEnd (s : string) : string :=
  match s with
  | EmptyString => EmptyString
  | String c r =>
      match trimEnd r with
      | EmptyString => if is_space c then EmptyString else String c EmptyString
      | r' => String c r'
      end
  end.

(** [s.trim()]. *)
Definition trim (s : string) : string := trimEnd (trimStart s).

(** [s.startsWith(p)], as a function that also returns the rest. *)
Fixpoint strip_prefix (p s : string) : option string :=
  match p with
  | EmptyString => Some s
  | String a p' =>
      match s with
      | String b s' => if Ascii.eqb a b then strip_prefix p' s' else None
      | EmptyString => None
      end
  end.

(** [s.includes(needle)]. *)
Fixpoint includes (s needle : string) : bool :=
  match strip_prefix needle s with
  | Some _ => true
  | None =>
      match s with
      | EmptyString => false
      | String _ r => includes r needle
      end
  end.

(** [s.replace(/needle/g, by)] for a literal [needle]: leftmost matches,
    scanning on after each replaced occurrence.  An empty needle never
    occurs in the sources and leaves the string alone here. *)
Fixpoint replaceAll_fuel (fuel : nat) (needle by_ s : string) : string :=
  match fuel with
  | O => s
  | S fuel' =>
      match s with
      | EmptyString => EmptyString
      | String c r =>
          match needle, strip_prefix needle s with
          | String _ _, Some rest => by_ +:+ replaceAll_fuel fuel' needle by_ rest
          | _, _ => String c (replaceAll_fuel fuel' needle by_ r)
          end
      end
  end.

Definition replaceAll (needle by_ s : string) : string :=
  replaceAll_fuel (String.length s) needle by_ s.

End JsString.

(** ** Regular expressions *)

(** The regular expressions of the sources, and how [RegExp] matches them:
    leftmost, greedy, backtracking.  Every repetition in the sources is over
    a class of characters, so that is what [Rep] repeats. *)
Module RegExp.
Import JsString.

#[warnings="-register-all"]
Inductive atom :=
  | Chr (c : ascii)                                      (* a character *)
  | Rep (cls : ascii -> bool) (min : nat) (max : option nat)
                                                         (* [cls*], [cls+], [cls?] *)
  | WordB                                                (* [\b] *)
  | Group (inner : list atom).                           (* a capturing group *)

(** [.]: any character but a line terminator. *)
Definition dot (c : ascii) : bool := negb (is_line_terminator c).

(** A regular expression: the sequence of its atoms and its [i] flag. *)
Record regex := { atoms : list atom; ignoreCase : bool }.

Definition same_char (ci : bool) (a b : ascii) : bool :=
  if ci then Ascii.eqb (upper_char a) (upper_char b) else Ascii.eqb a b.

(** [\w] *)
Definition is_word (c : ascii) : bool :=
  let n := nat_of_ascii c in
  ((48 <=? n)%nat && (n <=? 57)%nat) || is_upper c || is_lower c || (n =? 95)%nat.

Definition is_word_at (c : option ascii) : bool :=
  match c with Some c => is_word c | None => false end.

Definition head (s : string) : option ascii :=
  match s with String c _ => Some c | EmptyString => None end.

Definition below (max : option nat) (n : nat) : bool :=
  match max with Some m => (n <? m)%nat | None => true end.

(** The text that a group matched: [s] without its suffix [rest]. *)
Definition consumed (s rest : string) : string :=
  String.substring 0 (String.length s - String.length rest) s.

Section Matcher.
Context {R : Type}.

(** What is left to match: it gets the character before the position, the
    rest of the input and the captures so far. *)
Definition cont := option ascii -> string -> list string -> option R.

Fixpoint match_atom (ci : bool) (a : atom) (prev : option ascii) (s : string)
    (caps : list string) (k : cont) {struct a} : option R :=
  match a with
  | Chr c =>
      match s with
      | String d s' => if same_char ci c d then k (Some d) s' caps else None
      | EmptyString => None
      end
  | Rep cls min max =>
      (fix rep (s : string) (prev : option ascii) (n : nat) {struct s} : option R :=
         let stop := if (min <=? n)%nat then k prev s caps else None in
         match s with
         | String d s' =>
             if cls d && below max n then
               match rep s' (Some d) (S n) with
               | Some r => Some r
               | None => stop
               end
             else stop
         | EmptyString => stop
         end) s prev 0
  | WordB =>
      if xorb (is_word_at prev) (is_word_at (head s)) then k prev s caps else None
  | Group inner =>
      (fix seq (re : list atom) (prev : option ascii) (s0 : string)
           (caps : list string) (k : cont) {struct re} : option R :=
         match re with
         | [] => k prev s0 caps
         | a :: re' =>
             match_atom ci a prev s0 caps (fun p r c => seq re' p r c k)
         end) inner prev s caps
        (fun p rest c => k p rest (c ++ [consumed s rest]))
  end.

Fixpoint match_seq (ci : bool) (re : list atom) (prev : option ascii) (s : string)
    (caps : list string) (k : cont) : option R :=
  match re with
  | [] => k prev s caps
  | a :: re' => match_atom ci a prev s caps (fun p r c => match_seq ci re' p r c k)
  end.

End Matcher.

(** A match at the position: the captures, and the input after the match. *)
Definition match_here (re : regex) (prev : option ascii) (s : string)
    : option (list string * string) :=
  match_seq (ignoreCase re) (atoms re) prev s [] (fun _ rest caps => Some (caps, rest)).

(** The leftmost match at or after the position: [regex.exec]. *)
Fixpoint exec (re : regex) (prev : option ascii) (s : string)
    : option (list string * string) :=
  match match_here re prev s with
  | Some m => Some m
  | None =>
      match s with
      | String c s' => exec re (Some c) s'
      | EmptyString => None
      end
  end.

(** [regex.test(s)], without the [g] flag. *)
Definition test (re : regex) (s : string) : bool :=
  match exec re None s with Some _ => true | None => false end.

(** A match of the whole input, for a source between [^] and [$]. *)
Definition test_anchored (re : regex) (s : string) : bool :=
  match match_seq (ignoreCase re) (atoms re) None s []
          (fun _ rest _ => if String.eqb rest "" then Some tt else None) with
  | Some _ => true
  | None => false
  end.

(** The character before the rest [rest] of the input [s]. *)
Definition char_before (s rest : string) : option ascii :=
  match String.length s - String.length rest with
  | O => None
  | S n => String.get n s
  end.

(** The loop [while ((match = regex.exec(s)) !== null)] of a regular
    expression with the [g] flag, from [lastIndex = 0]: the captures of the
    successive matches.  A match that consumes nothing would not advance;
    the loop stops there (the regular expressions of the sources always
    consume). *)
Fixpoint exec_all_from (fuel : nat) (re : regex) (whole s : string) : list (list string) :=
  match fuel with
  | O => []
  | S fuel' =>
      match exec re (char_before whole s) s with
      | Some (caps, rest) =>
          if (String.length rest <? String.length s)%nat
          then caps :: exec_all_from fuel' re whole rest
          else [caps]
      | None => []
      end
  end.

Definition exec_all (re : regex) (s : string) : list (list string) :=
  exec_all_from (S (String.length s)) re s s.

(** A text in which no character is of the class [cls], and a continuation
    that fails on every such text: what the scans are stated with. *)
Definition lacks (cls : ascii -> bool) (s : string) : Prop :=
  Forall (fun c => cls c = false) (list_ascii_of_string s).

Definition fails {R : Type} (cls : ascii -> bool) (k : cont (R:=R)) : Prop :=
  forall prev rest caps, lacks cls rest -> k prev rest caps = None.

End RegExp.

(** ** JavaScript values *)

Module Js.

(** A value of type [unknown]. *)
#[warnings="-register-all"]
Inductive value :=
  | Undefined
  | Null
  | Bool (b : bool)
  | Num (n : Z)
  | Str (s : string)
  | Arr (items : list value)
  | Obj (props : list (string * value)).

(** [Record<string, unknown>]: the own properties, in order. *)
Abbreviation object := (list (string * value)) (only parsing).

(** Property lists, for any type [V] of stored values. *)
Section Props.
Context {V : Type}.
Implicit Types (o : list (string * V)).

(** A property list may name a key twice only if it was not built by [set];
    the last binding is then the property, as in an object literal. *)
Definition find o (key : string) : option V :=
  foldl (fun found kv => if String.eqb kv.1 key then Some kv.2 else found) None o.

(** [key in obj] *)
Definition has o (key : string) : bool :=
  match find o key with Some _ => true | None => false end.

(** [obj[key] = v]: overwrites the property where it is, or adds it last. *)
Fixpoint set o (key : string) (v : V) : list (string * V) :=
  match o with
  | [] => [(key, v)]
  | (k, w) :: rest =>
      if String.eqb k key
      then (k, v) :: (if has rest key then set rest key v else rest)
      else (k, w) :: set rest key v
  end.

End Props.

(** [obj[key]], [undefined] when the property is absent. *)
Definition get (o : object) (key : string) : value :=
  default Undefined (find o key).

(** [for (const [key, v] of Object.entries(input)) output[key] = f(key, v)],
    starting from the object [output]. *)
Definition assign_all (f : string -> value -> value) (output input : object) : object :=
  foldl (fun output kv => let '(key, v) := kv in set output key (f key v)) output input.

(** [arr[i]], [undefined] out of range. *)
Definition index (a : list value) (i : nat) : value := default Undefined (a !! i).

(** [a === b].  Two objects or arrays are equal only when they are the same
    reference, which a value built elsewhere never is; so an object or array
    is not [===] to anything here. *)
Definition strict_eq (a b : value) : bool :=
  match a, b with
  | Undefined, Undefined => true
  | Null, Null => true
  | Bool x, Bool y => Bool.eqb x y
  | Num x, Num y => (x =? y)%Z
  | Str x, Str y => String.eqb x y
  | _, _ => false
  end.

Definition is_undefined (v : value) : bool :=
  match v with Undefined => true | _ => false end.

(** [typeof v === "object" && v !== null && !Array.isArray(v)] *)
Definition is_record (v : value) : bool :=
  match v with Obj _ => true | _ => false end.

(** JavaScript truthiness, [!!v]. *)
Definition truthy (v : value) : bool :=
  match v with
  | Undefined | Null => false
  | Bool b => b
  | Num n => negb (n =? 0)%Z
  | Str s => negb (String.eqb s "")
  | Arr _ | Obj _ => true
  end.

End Js.

(** ** The platform *)

(** The fields of a parsed [URL] that the sources read. *)
Record URL := { hostname : string; pathname : string; search : string }.

(** [new URL(s)]: [None] when the constructor throws. *)
Class Platform := { URL_parse : string -> option URL }.

(** A small platform to evaluate examples with: it parses
    [http://host[:port][/path][?query]] and [https://...], and nothing else. *)
Module SamplePlatform.

Fixpoint split_at (stop : ascii -> bool) (s : string) : string * string :=
  match s with
  | EmptyString => (EmptyString, EmptyString)
  | String c r =>
      if stop c then (EmptyString, s)
      else let '(a, b) := split_at stop r in (String c a, b)
  end.

Definition parse_after_scheme (rest : string) : option URL :=
  let '(authority, tail) :=
    split_at (fun c => Ascii.eqb c "/" || Ascii.eqb c "?") rest in
  let '(host, _) := split_at (fun c => Ascii.eqb c ":") authority in
  let '(path, query) := split_at (fun c => Ascii.eqb c "?") tail in
  if String.eqb host "" then None
  else Some {| hostname := JsString.toLowerCase host;
               pathname := if String.eqb path "" then "/" else path;
               search := query |}.

Definition parse (s : string) : option URL :=
  match JsString.strip_prefix "http://" s with
  | Some rest => parse_after_scheme rest
  | None =>
      match JsString.strip_prefix "https://" s with
      | Some rest => parse_after_scheme rest
      | None => None
      end
  end.

Definition platform : Platform := {| URL_parse := parse |}.

End SamplePlatform.

(** ** types.ts *)

Inductive EventSource :=
  | Vite | Next | Devserver
  | BrowserConsole | BrowserNetwork | BrowserDom | BrowserStorage.

Inductive EventLevel := Info | Warn | Error | Debug.

Global Instance EventSource_eq_dec : EqDecision EventSource.
Proof. solve_decision. Defined.
Global Instance EventLevel_eq_dec : EqDecision EventLevel.
Proof. solve_decision. Defined.

Definition source_name (s : EventSource) : string :=
  match s with
  | Vite => "vite" | Next => "next" | Devserver => "devserver"
  | BrowserConsole => "browser:console" | BrowserNetwork => "browser:network"
  | BrowserDom => "browser:dom" | BrowserStorage => "browser:storage"
  end.

Definition level_name (l : EventLevel) : string :=
  match l with
  | Info => "info" | Warn => "warn" | Error => "error" | Debug => "debug"
  end.

(** An event, over the type of its payload: a tree of values, or the
    address of an object in a store. *)
Record Event {Payload : Type} := {
  id : string;
  ts : Z;
  source : EventSource;
  level : EventLevel;
  payload : Payload;
}.
Arguments Event : clear implicits.

Abbreviation DaibugEvent := (Event (list (string * Js.value))).

(** [{ ...event, payload }] *)
Definition with_payload {A B : Type} (e : Event A) (p : B) : Event B :=
  {| id := id e; ts := ts e; source := source e; level := level e; payload := p |}.

(** The object that [JSON.stringify] meets when it is given an event. *)
Definition event_object (e : DaibugEvent) : Js.value :=
  Js.Obj [("id", Js.Str (id e)); ("ts", Js.Num (ts e));
          ("source", Js.Str (source_name (source e)));
          ("level", Js.Str (level_name (level e)));
          ("payload", Js.Obj (payload e))].

(** ** JSON.stringify and JSON.parse *)

Module JSON.
Import Js.

(** *** Serialisation *)

(** The double quote. *)
Definition dquote : ascii := ascii_of_nat 34.

Definition hex_digit (n : nat) : ascii :=
  if (n <? 10)%nat then ascii_of_nat (48 + n) else ascii_of_nat (87 + n).

(** [QuoteJSONString] on one character. *)
Definition quote_char (c : ascii) : string :=
  let n := nat_of_ascii c in
  if (n =? 34)%nat then String "\" (String dquote EmptyString)
  else if (n =? 92)%nat then "\\"
  else if (n =? 8)%nat then "\b"
  else if (n =? 12)%nat then "\f"
  else if (n =? 10)%nat then "\n"
  else if (n =? 13)%nat then "\r"
  else if (n =? 9)%nat then "\t"
  else if (n <? 32)%nat then
    "\u00" +:+ String (hex_digit (n / 16)) (String (hex_digit (n mod 16)) EmptyString)
  else String c EmptyString.

Fixpoint quote_chars (s : string) : string :=
  match s with
  | EmptyString => EmptyString
  | String c r => quote_char c +:+ quote_chars r
  end.

Definition quote (s : string) : string :=
  String dquote (quote_chars s +:+ String dquote EmptyString).

(** An integer, as [Number::toString] prints it. *)
Definition number (n : Z) : string := DecimalString.NilZero.string_of_int (Z.to_int n).

Definition newline : string := String (ascii_of_nat 10) EmptyString.

(** [join(partial, separator)] *)
Fixpoint join (sep : string) (parts : list string) : string :=
  match parts with
  | [] => EmptyString
  | [p] => p
  | p :: rest => p +:+ sep +:+ join sep rest
  end.

(** The brackets around the members [partial], at indentation [stepback],
    the members being at indentation [indent]. *)
Definition wrap (open close gap stepback indent : string) (partial : list string) : string :=
  match partial with
  | [] => open +:+ close
  | _ =>
      if String.eqb gap ""
      then open +:+ join "," partial +:+ close
      else open +:+ newline +:+ indent
           +:+ join ("," +:+ newline +:+ indent) partial
           +:+ newline +:+ stepback +:+ close
  end.

(** The members of an object: [key:value] for every property whose value
    is not [undefined]; [colon] is [":"], or [": "] when there is a gap. *)
Fixpoint member_texts (ser : value -> string) (colon : string)
    (props : list (string * value)) : list string :=
  match props with
  | [] => []
  | (key, v) :: rest =>
      if is_undefined v then member_texts ser colon rest
      else (quote key +:+ colon +:+ ser v) :: member_texts ser colon rest
  end.

(** [SerializeJSONProperty]: the text of a value with the given [gap], at
    indentation [indent]; an [undefined] in an array is printed [null]. *)
Fixpoint serialize (gap indent : string) (v : value) : string :=
  match v with
  | Undefined | Null => "null"
  | Bool true => "true"
  | Bool false => "false"
  | Num n => number n
  | Str s => quote s
  | Arr items =>
      wrap "[" "]" gap indent (indent +:+ gap)
        (map (serialize gap (indent +:+ gap)) items)
  | Obj props =>
      wrap "{" "}" gap indent (indent +:+ gap)
        (member_texts (serialize gap (indent +:+ gap))
           (if String.eqb gap "" then ":" else ": ") props)
  end.

(** [JSON.stringify(v)]; [None] stands for the result [undefined]. *)
Definition stringify (v : value) : option string :=
  if is_undefined v then None else Some (serialize "" "" v).

(** [JSON.stringify(v, null, 2)] *)
Definition stringify_indented (v : value) : option string :=
  if is_undefined v then None else Some (serialize "  " "" v).

(** *** Parsing *)

Definition is_ws (c : ascii) : bool :=
  let n := nat_of_ascii c in
  (n =? 32)%nat || (n =? 9)%nat || (n =? 10)%nat || (n =? 13)%nat.

Fixpoint skip_ws (s : string) : string :=
  match s with
  | String c r => if is_ws c then skip_ws r else s
  | EmptyString => EmptyString
  end.

Definition is_digit (c : ascii) : bool :=
  let n := nat_of_ascii c in (48 <=? n)%nat && (n <=? 57)%nat.

Fixpoint span_digits (s : string) : string * string :=
  match s with
  | String c r =>
      if is_digit c then let '(ds, rest) := span_digits r in (String c ds, rest)
      else (EmptyString, s)
  | EmptyString => (EmptyString, EmptyString)
  end.

Definition hex_value (c : ascii) : option nat :=
  let n := nat_of_ascii c in
  if is_digit c then Some (n - 48)
  else if (97 <=? n)%nat && (n <=? 102)%nat then Some (n - 87)
  else if (65 <=? n)%nat && (n <=? 70)%nat then Some (n - 55)
  else None.

(** The character of a two-character escape. *)
Definition unescape (e : ascii) : option ascii :=
  let n := nat_of_ascii e in
  if (n =? 34)%nat then Some e
  else if (n =? 92)%nat then Some e
  else if (n =? 47)%nat then Some e
  else if (n =? 98)%nat then Some (ascii_of_nat 8)
  else if (n =? 102)%nat then Some (ascii_of_nat 12)
  else if (n =? 110)%nat then Some (ascii_of_nat 10)
  else if (n =? 114)%nat then Some (ascii_of_nat 13)
  else if (n =? 116)%nat then Some (ascii_of_nat 9)
  else None.

(** The characters of a string literal, after its opening quote, and the
    input after its closing quote.  A [\u] escape of a character that does
    not fit the 8-bit strings of the embedding is not read. *)
Fixpoint parse_chars (s : string) : option (string * string) :=
  match s with
  | EmptyString => None
  | String c r =>
      if (nat_of_ascii c =? 34)%nat then Some (EmptyString, r)
      else if (nat_of_ascii c =? 92)%nat then
        match r with
        | String e r' =>
            match unescape e with
            | Some d =>
                match parse_chars r' with
                | Some (t, rest) => Some (String d t, rest)
                | None => None
                end
            | None =>
                if (nat_of_ascii e =? 117)%nat then
                  match r' with
                  | String h1 (String h2 (String h3 (String h4 r''))) =>
                      match hex_value h1, hex_value h2, hex_value h3, hex_value h4 with
                      | Some a, Some b, Some c', Some d =>
                          let code := ((a * 16 + b) * 16 + c') * 16 + d in
                          if (code <? 256)%nat then
                            match parse_chars r'' with
                            | Some (t, rest) => Some (String (ascii_of_nat code) t, rest)
                            | None => None
                            end
                          else None
                      | _, _, _, _ => None
                      end
                  | _ => None
                  end
                else None
            end
        | EmptyString => None
        end
      else if (nat_of_ascii c <? 32)%nat then None
      else
        match parse_chars r with
        | Some (t, rest) => Some (String c t, rest)
        | None => None
        end
  end.

(** An integer literal: the decimal numeral of its value, or [-0].  A
    fraction or an exponent is not read (numbers are integers here). *)
Definition parse_number (s : string) : option (Z * string) :=
  let '(sign, s') :=
    match s with
    | String c r => if Ascii.eqb c "-" then ("-", r) else ("", s)
    | EmptyString => ("", s)
    end in
  let '(ds, rest) := span_digits s' in
  let text := sign +:+ ds in
  match DecimalString.NilZero.int_of_string text with
  | Some d =>
      let n := Z.of_int d in
      if String.eqb (number n) text || String.eqb text "-0" then
        match rest with
        | String c _ =>
            if bool_decide (c ∈ list_ascii_of_string ".eE") then None else Some (n, rest)
        | EmptyString => Some (n, rest)
        end
      else None
  | None => None
  end.

Fixpoint parse_value (fuel : nat) (s : string) : option (value * string) :=
  match fuel with
  | O => None
  | S fuel' =>
      match skip_ws s with
      | EmptyString => None
      | String c r =>
          if Ascii.eqb c "n" then
            rest ← JsString.strip_prefix "ull" r; Some (Null, rest)
          else if Ascii.eqb c "t" then
            rest ← JsString.strip_prefix "rue" r; Some (Bool true, rest)
          else if Ascii.eqb c "f" then
            rest ← JsString.strip_prefix "alse" r; Some (Bool false, rest)
          else if Ascii.eqb c dquote then
            '(str, rest) ← parse_chars r; Some (Str str, rest)
          else if Ascii.eqb c "[" then
            match skip_ws r with
            | String d rest =>
                if Ascii.eqb d "]" then Some (Arr [], rest)
                else '(items, rest) ← parse_elements fuel' r; Some (Arr items, rest)
            | EmptyString => None
            end
          else if Ascii.eqb c "{" then
            match skip_ws r with
            | String d rest =>
                if Ascii.eqb d "}" then Some (Obj [], rest)
                else '(props, rest) ← parse_members fuel' [] r; Some (Obj props, rest)
            | EmptyString => None
            end
          else
            '(n, rest) ← parse_number (String c r); Some (Num n, rest)
      end
  end
with parse_elements (fuel : nat) (s : string) : option (list value * string) :=
  match fuel with
  | O => None
  | S fuel' =>
      '(v, rest) ← parse_value fuel' s;
      match skip_ws rest with
      | String "," rest' =>
          '(vs, rest'') ← parse_elements fuel' rest'; Some (v :: vs, rest'')
      | String "]" rest' => Some ([v], rest')
      | _ => None
      end
  end
with parse_members (fuel : nat) (acc : list (string * value)) (s : string)
    : option (list (string * value) * string) :=
  match fuel with
  | O => None
  | S fuel' =>
      match skip_ws s with
      | String c r =>
          if Ascii.eqb c dquote then
            '(key, rest) ← parse_chars r;
            match skip_ws rest with
            | String ":" rest' =>
                '(v, rest'') ← parse_value fuel' rest';
                let acc := set acc key v in
                match skip_ws rest'' with
                | String "," rest3 => parse_members fuel' acc rest3
                | String "}" rest3 => Some (acc, rest3)
                | _ => None
                end
            | _ => None
            end
          else None
      | EmptyString => None
      end
  end.

(** [JSON.parse(text)]; [None] when it throws. *)
Definition parse (text : string) : option value :=
  match parse_value (S (String.length text)) text with
  | Some (v, rest) => if String.eqb (skip_ws rest) "" then Some v else None
  | None => None
  end.

(** The properties that are not [undefined], assigned one after the other. *)
Fixpoint normal_members (norm : value -> value) (acc props : list (string * value))
    : list (string * value) :=
  match props with
  | [] => acc
  | (key, v) :: rest =>
      if is_undefined v then normal_members norm acc rest
      else normal_members norm (set acc key (norm v)) rest
  end.

(** What [JSON.parse(JSON.stringify(v))] is: the value without its
    [undefined] properties, an [undefined] array element read as [null]. *)
Fixpoint normal (v : value) : value :=
  match v with
  | Undefined => Null
  | Arr items => Arr (map normal items)
  | Obj props => Obj (normal_members normal [] props)
  | _ => v
  end.

(** The whitespace before a member: none, or a line break and the
    indentation. *)
Definition lead (gap indent : string) : string :=
  if String.eqb gap "" then "" else newline +:+ indent.

Fixpoint all_digits (s : string) : bool :=
  match s with
  | EmptyString => true
  | String c r => is_digit c && all_digits r
  end.

(** Strings of JSON whitespace. *)
Fixpoint all_ws (s : string) : bool :=
  match s with
  | EmptyString => true
  | String c r => is_ws c && all_ws r
  end.

(** What may follow the text of a value: nothing, whitespace, a comma or a
    closing bracket. *)
Definition ok_rest (rest : string) : bool :=
  match rest with
  | EmptyString => true
  | String c _ => is_ws c || bool_decide (c ∈ list_ascii_of_string ",]}")
  end.

(** *** What parsing a serialised value means *)

(** A character that can begin the text of a value. *)
Definition value_start (c : ascii) : bool :=
  negb (is_ws c) && negb (Ascii.eqb c "]") && negb (Ascii.eqb c "}").

(** A value in its text: the text of [v], after whitespace and before
    something that may follow a value, parses to [normal v]. *)
Definition parses (gap : string) (v : value) : Prop :=
  forall indent pre fuel rest,
    all_ws indent = true -> all_ws pre = true -> ok_rest rest = true ->
    String.length (serialize gap indent v) < fuel ->
    parse_value fuel (pre +:+ (serialize gap indent v +:+ rest)) = Some (normal v, rest).

End JSON.

(** ** ring-buffer.ts *)

Module RingBuffer.

(** Arrays live in a store and are named by their address, so that the copy
    made by [toArray] can be told from the array the closure keeps. *)
Abbreviation loc := nat (only parsing).

Abbreviation store T := (list (list T)) (only parsing).

Section Ring.
Context {T : Type}.

(** The closure of [createRingBuffer]: its private [items] array and the
    [capacity] argument. *)
Record ring := Ring { items : loc; capacity : Z }.

(** [const items: T[] = []] *)
Definition createRingBuffer (cap : Z) (h : store T) : ring * store T :=
  (Ring (length h) cap, h ++ [[]]).

(** The contents of the private array. *)
Definition contents (r : ring) (h : store T) : list T :=
  default [] (h !! items r).

(** The body of [push] on the contents:
    [if (items.length >= capacity) items.shift(); items.push(item)]. *)
Definition push_items (cap : Z) (item : T) (its : list T) : list T :=
  (if (cap <=? Z.of_nat (length its))%Z then tail its else its) ++ [item].

Definition push (r : ring) (item : T) (h : store T) : store T :=
  <[items r := push_items (capacity r) item (contents r h)]> h.

(** [return [...items]]: a new array holding the same elements. *)
Definition toArray (r : ring) (h : store T) : loc * store T :=
  (length h, h ++ [contents r h]).

(** [get size()] *)
Definition size (r : ring) (h : store T) : Z := Z.of_nat (length (contents r h)).

(** [items.length = 0] *)
Definition clear (r : ring) (h : store T) : store T := <[items r := []]> h.

(** What a client of the ring can do: call its methods, and write to the
    arrays that [toArray] handed out ([Scribble k a] overwrites the [k]-th
    array it was given). *)
Inductive op :=
  | Push (item : T)
  | Clear
  | ToArray
  | Scribble (k : nat) (a : list T).

Record client := Client { heap : store T; given : list loc }.

Definition step (r : ring) (c : client) (o : op) : client :=
  match o with
  | Push item => Client (push r item (heap c)) (given c)
  | Clear => Client (clear r (heap c)) (given c)
  | ToArray =>
      let '(l, h') := toArray r (heap c) in Client h' (given c ++ [l])
  | Scribble k a =>
      match given c !! k with
      | Some l => Client (<[l := a]> (heap c)) (given c)
      | None => c
      end
  end.

Definition run (r : ring) (c : client) (ops : list op) : client :=
  foldl (step r) c ops.

(** Pushing the elements of a sequence, first to last. *)
Definition push_all (r : ring) (S : list T) (h : store T) : store T :=
  foldl (fun h item => push r item h) h S.

(** The sequence the specification describes: the last [n] elements. *)
Definition last_n (n : nat) (l : list T) : list T := drop (length l - n) l.

(** What the operations leave in the ring according to the specification:
    pushes append and keep the last [cap] elements, [clear] empties, and
    nothing else matters. *)
Definition model_step (cap : Z) (its : list T) (o : op) : list T :=
  match o with
  | Push item => last_n (Z.to_nat cap) (its ++ [item])
  | Clear => []
  | ToArray | Scribble _ _ => its
  end.

(** The ring and every array handed out stay inside the store, the arrays
    handed out are never the private one, and the private array holds what
    the model says. *)
Record inv (cap : Z) (r : ring) (c : client) (its : list T) : Prop := {
  inv_items : heap c !! items r = Some its;
  inv_given : Forall (fun l => l < length (heap c) /\ l <> items r) (given c);
  inv_size : (Z.of_nat (length its) <= cap)%Z;
}.

End Ring.

Arguments op : clear implicits.
Arguments client : clear implicits.

End RingBuffer.

(** ** The glob matcher of redactor.ts and watch-rules.ts *)

Module Glob.
Import JsString.

(** The characters of the class [[.*+?^${}()|[\]\\]]. *)
Definition is_special (c : ascii) : bool :=
  bool_decide (c ∈ list_ascii_of_string ".*+?^${}()|[]\").

(** [input.replace(/[.*+?^${}()|[\]\\]/g, "\\$&")] *)
Fixpoint escapeRegExp (input : string) : string :=
  match input with
  | EmptyString => EmptyString
  | String c r =>
      if is_special c then String "\" (String c (escapeRegExp r))
      else String c (escapeRegExp r)
  end.

Definition marker : string := "__DOUBLE_STAR__".

(** The source text handed to [new RegExp(..., "i")] by [toGlobRegex]. *)
Definition toGlobRegex_source (pattern : string) : string :=
  let escaped := replaceAll "**" marker pattern in
  let escaped := escapeRegExp escaped in
  let escaped := replaceAll marker ".*" escaped in
  let escaped := replaceAll "\*" ".*" escaped in
  "^" +:+ escaped +:+ "$".

(** Reading the body of such a source: [\c] is the character [c], [.*] is a
    run of [.], any other character stands for itself.  A special character
    that is neither escaped nor part of [.*] is not in this fragment. *)
Fixpoint compile_body (fuel : nat) (s : string) : option (list RegExp.atom) :=
  match fuel with
  | O => None
  | S fuel' =>
      match s with
      | EmptyString => Some []
      | String "\" (String c r) =>
          if is_special c then cons (RegExp.Chr c) <$> compile_body fuel' r else None
      | String "." (String "*" r) =>
          cons (RegExp.Rep RegExp.dot 0 None) <$> compile_body fuel' r
      | String c r =>
          if is_special c then None else cons (RegExp.Chr c) <$> compile_body fuel' r
      end
  end.

(** Removing the anchors [^] and [$] around the body. *)
Definition unanchor (src : string) : option string :=
  match src with
  | String "^" r =>
      match String.length r with
      | O => None
      | S n =>
          if String.eqb (String.substring n 1 r) "$"
          then Some (String.substring 0 n r) else None
      end
  | _ => None
  end.

(** [new RegExp(src, "i")] for an anchored source. *)
Definition compile (src : string) : option RegExp.regex :=
  body ← unanchor src;
  atoms ← compile_body (S (String.length body)) body;
  Some {| RegExp.atoms := atoms; RegExp.ignoreCase := true |}.

(** [toGlobRegex(pattern).test(value)] *)
Definition toGlobRegex_test (pattern value : string) : bool :=
  match compile (toGlobRegex_source pattern) with
  | Some re => RegExp.test_anchored re value
  | None => false
  end.

Section WithPlatform.
Context `{Platform}.

Definition normalizeUrlForMatch (url : string) : string :=
  match URL_parse url with
  | Some parsed => pathname parsed +:+ search parsed
  | None => url
  end.

Definition matchUrlPattern (url pattern : string) : bool :=
  toGlobRegex_test pattern (normalizeUrlForMatch url).

End WithPlatform.

End Glob.

(** ** redactor.ts *)

Module Redactor.
Import JsString Js.

Definition REDACTED : string := "[REDACTED]".
Definition REDACTED_ENDPOINT : string := "[REDACTED - sensitive endpoint]".

(** [config.redact] *)
Record RedactConfig := { fields : list string; urlPatterns : list string }.

(** [new Set(config.fields.map((field) => field.toLowerCase()))] *)
Definition sensitiveFieldsOf (config : RedactConfig) : gset string :=
  list_to_set (toLowerCase <$> fields config).

(** The first test of [deepCloneAndRedact]:
    [currentKey && sensitiveFields.has(currentKey.toLowerCase()) && value !== undefined];
    the empty string is falsy, like [null]. *)
Definition redacts (sensitiveFields : gset string) (currentKey : option string)
    (v : value) : bool :=
  match currentKey with
  | Some key =>
      negb (String.eqb key "")
      && bool_decide (toLowerCase key ∈ sensitiveFields)
      && negb (is_undefined v)
  | None => false
  end.

Fixpoint deepCloneAndRedact (sensitiveFields : gset string)
    (currentKey : option string) (v : value) : value :=
  if redacts sensitiveFields currentKey v then Str REDACTED
  else
    match v with
    | Arr items => Arr (map (deepCloneAndRedact sensitiveFields None) items)
    | Obj input =>
        Obj (assign_all
               (fun key nestedValue =>
                  deepCloneAndRedact sensitiveFields (Some key) nestedValue)
               [] input)
    | _ => v
    end.

Section WithPlatform.
Context `{Platform}.

Definition isRedactedUrl (config : RedactConfig) (url : string) : bool :=
  let normalizedUrl := Glob.normalizeUrlForMatch url in
  existsb (fun pattern => Glob.toGlobRegex_test pattern normalizedUrl)
    (urlPatterns config).

(** [deepCloneAndRedact(obj, sensitiveFields) as Record<string, unknown>] *)
Definition redactObject (config : RedactConfig) (obj : list (string * value))
    : list (string * value) :=
  match deepCloneAndRedact (sensitiveFieldsOf config) None (Obj obj) with
  | Obj output => output
  | _ => []
  end.

(** The [browser:network] branch of [redactEvent]. *)
Definition redactNetwork (config : RedactConfig) (p : list (string * value))
    : list (string * value) :=
  match get p "url" with
  | Str url =>
      if isRedactedUrl config url
      then set (set p "requestBody" (Str REDACTED_ENDPOINT))
             "responseBody" (Str REDACTED_ENDPOINT)
      else p
  | _ => p
  end.

(** The [browser:storage] branch of [redactEvent]. *)
Definition redactStorage (config : RedactConfig) (p : list (string * value))
    : list (string * value) :=
  match get p "key" with
  | Str key =>
      if bool_decide (toLowerCase key ∈ sensitiveFieldsOf config)
      then
        let p := if has p "value" then set p "value" (Str REDACTED) else p in
        if has p "previousValue" then set p "previousValue" (Str REDACTED) else p
      else p
  | _ => p
  end.

Definition redactEvent (config : RedactConfig) (event : DaibugEvent) : DaibugEvent :=
  let payload := redactObject config (payload event) in
  let payload :=
    if decide (source event = BrowserNetwork)
    then redactNetwork config payload else payload in
  let payload :=
    if decide (source event = BrowserStorage)
    then redactStorage config payload else payload in
  with_payload event payload.

End WithPlatform.

(** *** What the specification says of the result *)

(** [key] is equal to [k] case-insensitively. *)
Definition same_key (key k : string) : Prop := toLowerCase key = toLowerCase k.

(** [stored_under k v x]: walking [v] through mappings and arrays, at any
    depth, meets the value [x] stored under a key equal to [k]. *)
Inductive stored_under (k : string) : value -> value -> Prop :=
  | stored_here props key x :
      (key, x) ∈ props -> same_key key k -> stored_under k (Obj props) x
  | stored_in_prop props key v x :
      (key, v) ∈ props -> stored_under k v x -> stored_under k (Obj props) x
  | stored_in_item items v x :
      v ∈ items -> stored_under k v x -> stored_under k (Arr items) x.

(** The two sentences of the specification about the result, as they are
    written. *)
Definition every_field_reads_REDACTED `{Platform} : Prop :=
  forall (config : RedactConfig) (e : DaibugEvent) (k : string) (x : value),
    k ∈ fields config ->
    stored_under k (Obj (payload (redactEvent config e))) x ->
    x = Str REDACTED.

Definition matching_url_hides_bodies `{Platform} : Prop :=
  forall (config : RedactConfig) (e : DaibugEvent) (url : string),
    source e = BrowserNetwork ->
    get (payload e) "url" = Str url ->
    isRedactedUrl config url = true ->
    get (payload (redactEvent config e)) "requestBody" = Str REDACTED_ENDPOINT
    /\ get (payload (redactEvent config e)) "responseBody" = Str REDACTED_ENDPOINT
    /\ get (payload (redactEvent config e)) "url" = Str url.

End Redactor.

(** ** redactor.ts, on a store of objects *)

(** The redactor once more, this time creating its arrays and objects in a
    store and assigning to their properties as the source does, so that what
    it shares with its argument, and what it writes to, can be stated.  The
    recursion of [deepCloneAndRedact] is bounded by [fuel]. *)
Module RedactorHeap.
Import JsString Js.

(** A value: a primitive, or the address of an array or an object. *)
Inductive ref_value :=
  | RUndefined
  | RNull
  | RBool (b : bool)
  | RNum (n : Z)
  | RStr (s : string)
  | Ref (l : nat).

Inductive cell :=
  | ArrCell (items : list ref_value)
  | ObjCell (props : list (string * ref_value)).

Abbreviation heap := (list cell) (only parsing).

Definition is_undefined (v : ref_value) : bool :=
  match v with RUndefined => true | _ => false end.

Definition redacts (sensitiveFields : gset string) (currentKey : option string)
    (v : ref_value) : bool :=
  match currentKey with
  | Some key =>
      negb (String.eqb key "")
      && bool_decide (toLowerCase key ∈ sensitiveFields)
      && negb (is_undefined v)
  | None => false
  end.

(** [obj[key]] for the object at [l]. *)
Definition read (h : heap) (l : nat) (key : string) : ref_value :=
  match h !! l with
  | Some (ObjCell props) => default RUndefined (find props key)
  | _ => RUndefined
  end.

(** [key in obj] for the object at [l]. *)
Definition has_prop (h : heap) (l : nat) (key : string) : bool :=
  match h !! l with
  | Some (ObjCell props) => has props key
  | _ => false
  end.

(** [obj[key] = v] for the object at [l]. *)
Definition assign (l : nat) (key : string) (v : ref_value) (h : heap) : heap :=
  match h !! l with
  | Some (ObjCell props) => <[l := ObjCell (set props key v)]> h
  | _ => h
  end.

(** [value.map((item) => rec(item))], the elements first to last. *)
Fixpoint clone_items (rec : ref_value -> heap -> option (ref_value * heap))
    (items : list ref_value) (h : heap) : option (list ref_value * heap) :=
  match items with
  | [] => Some ([], h)
  | item :: rest =>
      '(r, h1) ← rec item h;
      '(rs, h2) ← clone_items rec rest h1;
      Some (r :: rs, h2)
  end.

(** [for (const [key, nestedValue] of Object.entries(input))
       output[key] = rec(key, nestedValue)] *)
Fixpoint clone_props (rec : string -> ref_value -> heap -> option (ref_value * heap))
    (output : nat) (input : list (string * ref_value)) (h : heap) : option heap :=
  match input with
  | [] => Some h
  | (key, nestedValue) :: rest =>
      '(r, h1) ← rec key nestedValue h;
      clone_props rec output rest (assign output key r h1)
  end.

Fixpoint deepCloneAndRedact (fuel : nat) (sensitiveFields : gset string)
    (currentKey : option string) (v : ref_value) (h : heap)
    : option (ref_value * heap) :=
  match fuel with
  | O => None
  | S fuel' =>
      if redacts sensitiveFields currentKey v then Some (RStr Redactor.REDACTED, h)
      else
        match v with
        | Ref l =>
            match h !! l with
            | Some (ArrCell items) =>
                '(items', h') ←
                  clone_items (deepCloneAndRedact fuel' sensitiveFields None) items h;
                Some (Ref (length h'), h' ++ [ArrCell items'])
            | Some (ObjCell input) =>
                let output := length h in
                h' ← clone_props
                       (fun key => deepCloneAndRedact fuel' sensitiveFields (Some key))
                       output input (h ++ [ObjCell []]);
                Some (Ref output, h')
            | None => None
            end
        | _ => Some (v, h)
        end
  end.

(** An event whose payload is the address of an object. *)
Abbreviation event := (Event ref_value).

Section WithPlatform.
Context `{Platform}.

Definition redactObject (fuel : nat) (config : Redactor.RedactConfig)
    (obj : ref_value) (h : heap) : option (ref_value * heap) :=
  deepCloneAndRedact fuel (Redactor.sensitiveFieldsOf config) None obj h.

Definition redactNetwork (config : Redactor.RedactConfig) (l : nat) (h : heap) : heap :=
  match read h l "url" with
  | RStr url =>
      if Redactor.isRedactedUrl config url
      then assign l "responseBody" (RStr Redactor.REDACTED_ENDPOINT)
             (assign l "requestBody" (RStr Redactor.REDACTED_ENDPOINT) h)
      else h
  | _ => h
  end.

Definition redactStorage (config : Redactor.RedactConfig) (l : nat) (h : heap) : heap :=
  match read h l "key" with
  | RStr key =>
      if bool_decide (toLowerCase key ∈ Redactor.sensitiveFieldsOf config)
      then
        let h := if has_prop h l "value"
                 then assign l "value" (RStr Redactor.REDACTED) h else h in
        if has_prop h l "previousValue"
        then assign l "previousValue" (RStr Redactor.REDACTED) h else h
      else h
  | _ => h
  end.

Definition redactEvent (fuel : nat) (config : Redactor.RedactConfig)
    (e : event) (h : heap) : option (event * heap) :=
  '(p, h) ← redactObject fuel config (payload e) h;
  let redacted := with_payload e p in
  match p with
  | Ref l =>
      let h := if decide (source e = BrowserNetwork)
               then redactNetwork config l h else h in
      let h := if decide (source e = BrowserStorage)
               then redactStorage config l h else h in
      Some (redacted, h)
  | _ => Some (redacted, h)
  end.

End WithPlatform.

(** [repr_in P h r v]: in the store [h], the value [r] is the tree [v], and
    every array and object of it lies at an address in [P]. *)
#[warnings="-register-all"]
Inductive repr_in (P : nat -> Prop) (h : heap) : ref_value -> value -> Prop :=
  | repr_undefined : repr_in P h RUndefined Undefined
  | repr_null : repr_in P h RNull Null
  | repr_bool b : repr_in P h (RBool b) (Bool b)
  | repr_num n : repr_in P h (RNum n) (Num n)
  | repr_str s : repr_in P h (RStr s) (Str s)
  | repr_arr l items vs :
      P l -> h !! l = Some (ArrCell items) ->
      Forall2 (repr_in P h) items vs ->
      repr_in P h (Ref l) (Arr vs)
  | repr_obj l props ps :
      P l -> h !! l = Some (ObjCell props) ->
      Forall2 (fun a b => a.1 = b.1 /\ repr_in P h a.2 b.2) props ps ->
      repr_in P h (Ref l) (Obj ps).

(** The nesting depth of a tree. *)
Fixpoint depth (v : value) : nat :=
  match v with
  | Arr items => S (foldr (fun item n => max (depth item) n) 0 items)
  | Obj props => S (foldr (fun kv n => max (depth kv.2) n) 0 props)
  | _ => 0
  end.

(** *** What a clone promises *)

Implicit Types (h : list cell) (P Q : nat -> Prop) (r : ref_value) (v : value).

(** Two stores that agree on the addresses of [P]. *)
Definition agree P h h' : Prop := forall l, P l -> h' !! l = h !! l.

Abbreviation prop_rel P h :=
  (fun (a : string * ref_value) (b : string * value) =>
     a.1 = b.1 /\ repr_in P h a.2 b.2).

(** The object at [l]: its cell lies in [lo, hi), and what its properties
    hold lies above [l]. *)
Definition obj_at (lo hi : nat) h (l : nat) (ps : list (string * value)) : Prop :=
  exists props, lo <= l < hi /\ h !! l = Some (ObjCell props)
    /\ Forall2 (prop_rel (fun x => l < x < hi) h) props ps.

(** What one call of the clone promises: a result in new cells only, no
    cell of the store it started from changed. *)
Definition clone_post h (res : option (ref_value * list cell)) (v' : value) : Prop :=
  exists r' h', res = Some (r', h')
    /\ length h <= length h'
    /\ agree (fun l => l < length h) h h'
    /\ repr_in (fun l => length h <= l < length h') h' r' v'
    /\ (forall ps, v' = Obj ps ->
        exists l, r' = Ref l /\ obj_at (length h) (length h') h' l ps).

End RedactorHeap.

(** ** watch-rules.ts *)

Module WatchRules.
Import JsString Js.

Definition WATCHED_CAPACITY : nat := 200.

(** [WatchConditions]: every condition is optional. *)
Record WatchConditions := {
  statusCodes : option (list Z);
  urlPattern : option string;
  methods : option (list string);
  levels : option (list EventLevel);
  messageContains : option string;
  payloadContains : option (list (string * value));
}.

Record WatchRule := {
  rule_id : string;
  rule_label : string;
  rule_source : option EventSource;
  rule_conditions : WatchConditions;
  rule_createdAt : Z;
  rule_active : bool;
}.

(** [{ event, matchedRule: { id, label }, matchedAt }]; the event is the
    object that was evaluated, named by its address in the store of events. *)
Record WatchedEvent := {
  event : nat;
  matchedRule_id : string;
  matchedRule_label : string;
  matchedAt : Z;
}.

(** [for (let i = 0; i < expectedValue.length; i++)
       if (actualValue[i] !== expectedValue[i]) return false] *)
Definition array_prefix_eq (actualValue expectedValue : list value) : bool :=
  forallb (fun i => strict_eq (index actualValue i) (index expectedValue i))
    (seq 0 (length expectedValue)).

(** The body of the loop of [deepPartialMatch] for one expected property,
    past the test [key in actual]. *)
Fixpoint property_matches (expectedValue actualValue : value) : bool :=
  match expectedValue with
  | Arr expectedItems =>
      match actualValue with
      | Arr actualItems => array_prefix_eq actualItems expectedItems
      | _ => false
      end
  | Obj expected =>
      match actualValue with
      | Obj actual =>
          forallb (fun kv => has actual kv.1 && property_matches kv.2 (get actual kv.1))
            expected
      | _ => strict_eq actualValue expectedValue
      end
  | _ => strict_eq actualValue expectedValue
  end.

Definition deepPartialMatch (actual expected : list (string * value)) : bool :=
  forallb (fun kv => has actual kv.1 && property_matches kv.2 (get actual kv.1))
    expected.

Definition eventLevelMatches (levels : option (list EventLevel)) (level : EventLevel) : bool :=
  match levels with
  | None | Some [] => true
  | Some levels => bool_decide (level ∈ levels)
  end.

Definition sourceMatches (source : option EventSource) (eventSource : EventSource) : bool :=
  match source with
  | None => true
  | Some source => bool_decide (source = eventSource)
  end.

Section WithPlatform.
Context `{Platform}.

Definition conditionsMatch (event : DaibugEvent) (conditions : WatchConditions) : bool :=
  let payload := payload event in
  (match statusCodes conditions with
   | Some ((_ :: _) as codes) =>
       match get payload "status" with
       | Num status => bool_decide (status ∈ codes)
       | _ => false
       end
   | _ => true
   end)
  && (match urlPattern conditions with
      | Some (String _ _ as pattern) =>
          match get payload "url" with
          | Str url => Glob.matchUrlPattern url pattern
          | _ => false
          end
      | _ => true
      end)
  && (match methods conditions with
      | Some ((_ :: _) as methods) =>
          match get payload "method" with
          | Str method =>
              let allowed : gset string := list_to_set (toUpperCase <$> methods) in
              bool_decide (toUpperCase method ∈ allowed)
          | _ => false
          end
      | _ => true
      end)
  && eventLevelMatches (levels conditions) (level event)
  && (match messageContains conditions with
      | Some (String _ _ as needle) =>
          match get payload "message" with
          | Str message => includes (toLowerCase message) (toLowerCase needle)
          | _ => false
          end
      | _ => true
      end)
  && (match payloadContains conditions with
      | Some expected => deepPartialMatch payload expected
      | None => true
      end).

(** The state [evaluate] works on: the events, by address, and the
    [watchedEvents] buffer of the engine. *)
Record state := {
  events : list DaibugEvent;
  watchedEvents : list WatchedEvent;
}.

(** [buffer.unshift({...}); if (buffer.length > WATCHED_CAPACITY) buffer.length = WATCHED_CAPACITY] *)
Definition addWatchedEvent (buffer : list WatchedEvent) (ev : nat) (rule : WatchRule)
    (now : Z) : list WatchedEvent :=
  let buffer :=
    {| event := ev; matchedRule_id := rule_id rule;
       matchedRule_label := rule_label rule; matchedAt := now |} :: buffer in
  if (WATCHED_CAPACITY <? length buffer)%nat then take WATCHED_CAPACITY buffer else buffer.

(** [payload.watched = true; payload.watchRuleLabel = rule.label;
     payload.watchRuleId = rule.id] *)
Definition annotate (e : DaibugEvent) (rule : WatchRule) : DaibugEvent :=
  with_payload e
    (set (set (set (payload e) "watched" (Bool true))
            "watchRuleLabel" (Str (rule_label rule)))
       "watchRuleId" (Str (rule_id rule))).

(** One turn of the loop of [evaluate].  [clock] gives the successive
    readings of [Date.now()], [tick] counts them. *)
Definition evaluate_rule (ev : nat) (clock : nat -> Z)
    (acc : bool * nat * state) (rule : WatchRule) : bool * nat * state :=
  let '(matched, tick, st) := acc in
  match events st !! ev with
  | None => acc
  | Some e =>
      if negb (rule_active rule) then acc
      else if negb (sourceMatches (rule_source rule) (source e)) then acc
      else if negb (conditionsMatch e (rule_conditions rule)) then acc
      else
        (true, S tick,
         {| events := <[ev := annotate e rule]> (events st);
            watchedEvents := addWatchedEvent (watchedEvents st) ev rule (clock tick) |})
  end.

Definition evaluate (rules : list WatchRule) (st : state) (ev : nat) (clock : nat -> Z)
    : bool * state :=
  let '(matched, _, st) := foldl (evaluate_rule ev clock) (false, 0, st) rules in
  (matched, st).

(** *** The conditions, in the words of the specification *)

(** A condition is specified when it is present and not empty. *)
Definition specified_list {A} (c : option (list A)) (l : list A) : Prop :=
  c = Some l /\ l <> [].
Definition specified_string (c : option string) (s : string) : Prop :=
  c = Some s /\ s <> "".

(** Structural partial match: every key of the expected mapping exists in
    the payload, with scalar equality, array prefix equality by index, and
    recursive partial match for nested mappings. *)
#[warnings="-register-all"]
Inductive partial_match : list (string * value) -> list (string * value) -> Prop :=
  | partial_match_intro actual expected :
      Forall (fun kv => has actual kv.1 = true
                        /\ value_match (get actual kv.1) kv.2) expected ->
      partial_match actual expected
with value_match : value -> value -> Prop :=
  | match_array actualItems expectedItems :
      (forall i, i < length expectedItems ->
         strict_eq (index actualItems i) (index expectedItems i) = true) ->
      value_match (Arr actualItems) (Arr expectedItems)
  | match_mapping actual expected :
      partial_match actual expected ->
      value_match (Obj actual) (Obj expected)
  | match_scalar actualValue expectedValue :
      strict_eq actualValue expectedValue = true ->
      value_match actualValue expectedValue.

(** The event satisfies the source constraint and every specified condition
    of the rule. *)
Record satisfies (e : DaibugEvent) (r : WatchRule) : Prop := {
  sat_source : forall s, rule_source r = Some s -> s = source e;
  sat_statusCodes : forall codes,
    specified_list (statusCodes (rule_conditions r)) codes ->
    exists status, get (payload e) "status" = Num status /\ status ∈ codes;
  sat_urlPattern : forall pattern,
    specified_string (urlPattern (rule_conditions r)) pattern ->
    exists url, get (payload e) "url" = Str url
                /\ Glob.matchUrlPattern url pattern = true;
  sat_methods : forall ms,
    specified_list (methods (rule_conditions r)) ms ->
    exists method, get (payload e) "method" = Str method
                   /\ toUpperCase method ∈ (toUpperCase <$> ms);
  sat_levels : forall ls,
    specified_list (levels (rule_conditions r)) ls -> level e ∈ ls;
  sat_messageContains : forall needle,
    specified_string (messageContains (rule_conditions r)) needle ->
    exists message, get (payload e) "message" = Str message
                    /\ includes (toLowerCase message) (toLowerCase needle) = true;
  sat_payloadContains : forall expected,
    payloadContains (rule_conditions r) = Some expected ->
    partial_match (payload e) expected;
}.

(** The entry that a match of [rule] puts in the buffer. *)
Definition entry (ev : nat) (rule : WatchRule) (now : Z) : WatchedEvent :=
  {| event := ev; matchedRule_id := rule_id rule;
     matchedRule_label := rule_label rule; matchedAt := now |}.

(** The entries of the matches [rs], newest first; the first match read
    the clock at [tick]. *)
Definition entries (ev : nat) (clock : nat -> Z) (tick : nat) (rs : list WatchRule)
    : list WatchedEvent :=
  rev (imap (fun i r => entry ev r (clock (tick + i))) rs).

(** [hits rules e rs e']: going through [rules] in order, the rules [rs]
    are the active ones that the event satisfies, each one tried on the
    event as the matches before it annotated it; [e'] is the event in the
    end. *)
Inductive hits : list WatchRule -> DaibugEvent -> list WatchRule -> DaibugEvent -> Prop :=
  | hits_nil e : hits [] e [] e
  | hits_match r rules e rs e' :
      rule_active r = true -> satisfies e r ->
      hits rules (annotate e r) rs e' ->
      hits (r :: rules) e (r :: rs) e'
  | hits_skip r rules e rs e' :
      rule_active r = false \/ ~ satisfies e r ->
      hits rules e rs e' ->
      hits (r :: rules) e rs e'.

(** The claim as the specification words it: an entry for every active
    rule that the event satisfies, and none for a rule that it does not. *)
Definition entry_iff_satisfied : Prop :=
  forall (rules : list WatchRule) (st : state) (ev : nat) (e : DaibugEvent)
         (clock : nat -> Z) (r : WatchRule),
    events st !! ev = Some e -> watchedEvents st = [] -> r ∈ rules ->
    ((rule_active r = true /\ satisfies e r)
     <-> exists w, w ∈ watchedEvents (evaluate rules st ev clock).2
                   /\ event w = ev /\ matchedRule_id w = rule_id r
                   /\ matchedRule_label w = rule_label r).

End WithPlatform.

End WatchRules.

(** ** detector.ts *)

Module Detector.
Import JsString RegExp.

(** The atoms of a literal text. *)
Definition lit (text : string) : list atom := map Chr (list_ascii_of_string text).

(** [\s+] *)
Definition spaces : atom := Rep is_space 1 None.

(** [/\bnext\b/i] and [/\bvite\b/i] *)
Definition NEXT_CMD_RE : regex :=
  {| atoms := [WordB] ++ lit "next" ++ [WordB]; ignoreCase := true |}.
Definition VITE_CMD_RE : regex :=
  {| atoms := [WordB] ++ lit "vite" ++ [WordB]; ignoreCase := true |}.

Definition detectFramework (cmd : string) : option EventSource :=
  if test NEXT_CMD_RE cmd then Some Next
  else if test VITE_CMD_RE cmd then Some Vite
  else None.

(** [/Next\.js/i], [/\bnext dev\b/i], [/Compiled\s+\//] *)
Definition NEXT_OUTPUT_PATTERNS : list regex :=
  [ {| atoms := lit "Next.js"; ignoreCase := true |};
    {| atoms := [WordB] ++ lit "next dev" ++ [WordB]; ignoreCase := true |};
    {| atoms := lit "Compiled" ++ [spaces] ++ lit "/"; ignoreCase := false |} ].

(** The arrow U+279C of Vite's banner, as the bytes of its UTF-8 encoding. *)
Definition arrow : list atom :=
  [Chr (ascii_of_nat 226); Chr (ascii_of_nat 158); Chr (ascii_of_nat 156)].

(** [/\bVITE\b/], [/\bvite\b/], [/(arrow)\s+Local:/] *)
Definition VITE_OUTPUT_PATTERNS : list regex :=
  [ {| atoms := [WordB] ++ lit "VITE" ++ [WordB]; ignoreCase := false |};
    {| atoms := [WordB] ++ lit "vite" ++ [WordB]; ignoreCase := false |};
    {| atoms := arrow ++ [spaces] ++ lit "Local:"; ignoreCase := false |} ].

(** [for (const re of patterns) if (re.test(line)) ...] *)
Definition some_matches (patterns : list regex) (line : string) : bool :=
  existsb (fun re => test re line) patterns.

(** The stateless [classifyOutput]. *)
Definition classifyOutput (line : string) : EventSource :=
  if some_matches NEXT_OUTPUT_PATTERNS line then Next
  else if some_matches VITE_OUTPUT_PATTERNS line then Vite
  else Devserver.

(** The closure of [createDetector] is its variable [locked]. *)
Definition detector : Type := option EventSource.

Definition createDetector : detector := None.

(** [detector.classifyOutput(line)]: the source, and [locked] afterwards. *)
Definition detector_classifyOutput (line : string) (locked : detector)
    : EventSource * detector :=
  if some_matches NEXT_OUTPUT_PATTERNS line then (Next, Some Next)
  else if some_matches VITE_OUTPUT_PATTERNS line then (Vite, Some Vite)
  else
    match locked with
    | Some source => (source, locked)
    | None => (Devserver, locked)
    end.

End Detector.

(** ** event.ts and hub.ts *)

Module Hub.
Import JsString Js.

(** [/https?:\/\//] *)
Definition URL_PATTERN : RegExp.regex :=
  {| RegExp.atoms :=
       Detector.lit "http" ++ [RegExp.Rep (Ascii.eqb "s") 0 (Some 1)] ++ Detector.lit "://";
     RegExp.ignoreCase := false |}.

Record TabInfo := {
  tabId : Z;
  tab_url : string;
  tab_title : string;
  connectedAt : Z;
}.

(** A WebSocket client of the hub: its [readyState] and the frames that the
    hub has sent to it, oldest first. *)
Record WsClient := { readyState : Z; received : list string }.

Definition send (message : string) (client : WsClient) : WsClient :=
  {| readyState := readyState client; received := received client ++ [message] |}.

(** [for (const client of wss.clients) if (client.readyState === 1) client.send(message)] *)
Definition send_to_open (message : string) (clients : list WsClient) : list WsClient :=
  map (fun client => if (readyState client =? 1)%Z then send message client else client)
    clients.

(** [VALID_EVENT_SOURCES.has(input)] and [VALID_EVENT_LEVELS.has(input)],
    with the member found. *)
Definition source_of_name (name : string) : option EventSource :=
  List.find (fun s => String.eqb (source_name s) name)
    [Vite; Next; Devserver; BrowserConsole; BrowserNetwork; BrowserDom; BrowserStorage].

Definition level_of_name (name : string) : option EventLevel :=
  List.find (fun l => String.eqb (level_name l) name) [Info; Warn; Error; Debug].

Definition normalizeEventSource (input : value) : option EventSource :=
  match input with Str name => source_of_name name | _ => None end.

Definition normalizeEventLevel (input : value) : option EventLevel :=
  match input with Str name => level_of_name name | _ => None end.

Definition normalizePayload (input : value) : option (list (string * value)) :=
  match input with Obj payload => Some payload | _ => None end.

(** [String(n).padStart(3, "0")] *)
Definition pad3 (n : Z) : string :=
  let digits := JSON.number n in
  String.concat "" (replicate (3 - String.length digits) "0") +:+ digits.

(** [connectedTabs.get(tabId)] and [connectedTabs.set(tabId, info)] *)
Fixpoint tabs_get (tabs : list (Z * TabInfo)) (key : Z) : option TabInfo :=
  match tabs with
  | [] => None
  | (k, info) :: rest => if (k =? key)%Z then Some info else tabs_get rest key
  end.

Fixpoint tabs_set (tabs : list (Z * TabInfo)) (key : Z) (info : TabInfo)
    : list (Z * TabInfo) :=
  match tabs with
  | [] => [(key, info)]
  | (k, old) :: rest =>
      if (k =? key)%Z then (k, info) :: rest else (k, old) :: tabs_set rest key info
  end.

(** [msg[key]] for a parsed message that is not [null]: a number, a string,
    a boolean or an array has none of the properties that the hub reads. *)
Definition prop (msg : value) (key : string) : value :=
  match msg with Obj o => get o key | _ => Undefined end.

(** [items[items.length - 1] = x] on a list that is not empty. *)
Definition replace_last {A} (x : A) (l : list A) : list A :=
  match l with [] => [] | _ => take (length l - 1) l ++ [x] end.

Section Hub.
Context `{Platform}.

(** The closures that subscribe to the hub keep variables of their own; [S]
    is the type of the state of them all. *)
Context {S : Type}.

(** What a call [listener(event)] does: it leaves the closures in a state,
    it may have written to the payload of the event (the object is shared
    with the ring), it may have called the unsubscribe functions of some
    handlers, and it returns or throws.  A listener does not subscribe and
    does not feed events to the hub while it runs. *)
Record reaction := React {
  next : S;
  written : list (string * value);
  unsubscribed : list nat;
  thrown : bool;
}.

(** A function subscribed with [onBrowserEvent], and its identity (what
    [eventListeners.indexOf(handler)] compares). *)
Record handler := Handler {
  handler_id : nat;
  handle : DaibugEvent -> S -> reaction;
}.

(** The variables of the closure of [createHub] that the functions below
    read and write, with those of event.ts and the clock. *)
Record hub := {
  redact : Redactor.RedactConfig;   (* [activeConfig.redact], which the redactor was made from *)
  buffer : list DaibugEvent;   (* the items of [buffer], a ring of capacity 500 *)
  interactions : list value;   (* the items of [interactions], a ring of capacity 200 *)
  eventListeners : list handler;
  connectedTabs : list (Z * TabInfo);   (* a [Map], in insertion order *)
  interactionSeq : Z;
  wss : option (list WsClient);   (* the clients of the WebSocket server, [None] for [wss = null] *)
  locked : Detector.detector;   (* the detector *)
  seq : Z;   (* [seq] and [inBatch] of event.ts *)
  inBatch : bool;
  timeline : nat -> Z;   (* the successive readings of [Date.now()] *)
  ticks : nat;   (* how many readings were made *)
  closures : S;   (* the variables of the closures that are subscribed *)
}.

Definition set_buffer (x : list DaibugEvent) (h : hub) : hub :=
  {| redact := redact h; buffer := x; interactions := interactions h;
     eventListeners := eventListeners h; connectedTabs := connectedTabs h;
     interactionSeq := interactionSeq h; wss := wss h; locked := locked h; seq := seq h;
     inBatch := inBatch h; timeline := timeline h; ticks := ticks h;
     closures := closures h |}.

Definition set_interactions (x : list value) (h : hub) : hub :=
  {| redact := redact h; buffer := buffer h; interactions := x;
     eventListeners := eventListeners h; connectedTabs := connectedTabs h;
     interactionSeq := interactionSeq h; wss := wss h; locked := locked h; seq := seq h;
     inBatch := inBatch h; timeline := timeline h; ticks := ticks h;
     closures := closures h |}.

Definition set_eventListeners (x : list handler) (h : hub) : hub :=
  {| redact := redact h; buffer := buffer h; interactions := interactions h;
     eventListeners := x; connectedTabs := connectedTabs h;
     interactionSeq := interactionSeq h; wss := wss h; locked := locked h; seq := seq h;
     inBatch := inBatch h; timeline := timeline h; ticks := ticks h;
     closures := closures h |}.

Definition set_connectedTabs (x : list (Z * TabInfo)) (h : hub) : hub :=
  {| redact := redact h; buffer := buffer h; interactions := interactions h;
     eventListeners := eventListeners h; connectedTabs := x;
     interactionSeq := interactionSeq h; wss := wss h; locked := locked h; seq := seq h;
     inBatch := inBatch h; timeline := timeline h; ticks := ticks h;
     closures := closures h |}.

Definition set_interactionSeq (x : Z) (h : hub) : hub :=
  {| redact := redact h; buffer := buffer h; interactions := interactions h;
     eventListeners := eventListeners h; connectedTabs := connectedTabs h;
     interactionSeq := x; wss := wss h; locked := locked h; seq := seq h;
     inBatch := inBatch h; timeline := timeline h; ticks := ticks h;
     closures := closures h |}.

Definition set_wss (x : option (list WsClient)) (h : hub) : hub :=
  {| redact := redact h; buffer := buffer h; interactions := interactions h;
     eventListeners := eventListeners h; connectedTabs := connectedTabs h;
     interactionSeq := interactionSeq h; wss := x; locked := locked h; seq := seq h;
     inBatch := inBatch h; timeline := timeline h; ticks := ticks h;
     closures := closures h |}.

Definition set_locked (x : Detector.detector) (h : hub) : hub :=
  {| redact := redact h; buffer := buffer h; interactions := interactions h;
     eventListeners := eventListeners h; connectedTabs := connectedTabs h;
     interactionSeq := interactionSeq h; wss := wss h; locked := x; seq := seq h;
     inBatch := inBatch h; timeline := timeline h; ticks := ticks h;
     closures := closures h |}.

Definition set_seq (x : Z) (h : hub) : hub :=
  {| redact := redact h; buffer := buffer h; interactions := interactions h;
     eventListeners := eventListeners h; connectedTabs := connectedTabs h;
     interactionSeq := interactionSeq h; wss := wss h; locked := locked h; seq := x;
     inBatch := inBatch h; timeline := timeline h; ticks := ticks h;
     closures := closures h |}.

Definition set_inBatch (x : bool) (h : hub) : hub :=
  {| redact := redact h; buffer := buffer h; interactions := interactions h;
     eventListeners := eventListeners h; connectedTabs := connectedTabs h;
     interactionSeq := interactionSeq h; wss := wss h; locked := locked h; seq := seq h;
     inBatch := x; timeline := timeline h; ticks := ticks h; closures := closures h |}.

Definition set_ticks (x : nat) (h : hub) : hub :=
  {| redact := redact h; buffer := buffer h; interactions := interactions h;
     eventListeners := eventListeners h; connectedTabs := connectedTabs h;
     interactionSeq := interactionSeq h; wss := wss h; locked := locked h; seq := seq h;
     inBatch := inBatch h; timeline := timeline h; ticks := x; closures := closures h |}.

Definition set_closures (x : S) (h : hub) : hub :=
  {| redact := redact h; buffer := buffer h; interactions := interactions h;
     eventListeners := eventListeners h; connectedTabs := connectedTabs h;
     interactionSeq := interactionSeq h; wss := wss h; locked := locked h; seq := seq h;
     inBatch := inBatch h; timeline := timeline h; ticks := ticks h; closures := x |}.

(** [Date.now()] *)
Definition Date_now (h : hub) : Z * hub := (timeline h (ticks h), set_ticks (Datatypes.S (ticks h)) h).

(** The function that [onBrowserEvent(handler)] returns:
    [const index = eventListeners.indexOf(handler);
     if (index !== -1) eventListeners.splice(index, 1)] *)
Fixpoint unsubscribe (ident : nat) (listeners : list handler) : list handler :=
  match listeners with
  | [] => []
  | l :: rest =>
      if (handler_id l =? ident)%nat then rest else l :: unsubscribe ident rest
  end.

Definition unsubscribe_all (idents : list nat) (listeners : list handler) : list handler :=
  foldl (fun ls ident => unsubscribe ident ls) listeners idents.

(** [for (const listener of eventListeners) { try { listener(event) } catch {} }]:
    the iterator of the array reads [eventListeners[i]] for [i = 0, 1, ...]
    in the array as it is at that time, which a listener that unsubscribes
    has shortened. *)
Fixpoint notify (fuel i : nat) (event : DaibugEvent) (listeners : list handler) (s : S)
    : DaibugEvent * list handler * S :=
  match fuel with
  | O => (event, listeners, s)
  | Datatypes.S fuel' =>
      match listeners !! i with
      | None => (event, listeners, s)
      | Some listener =>
          let r := handle listener event s in
          notify fuel' (Datatypes.S i) (with_payload event (written r))
            (unsubscribe_all (unsubscribed r) listeners) (next r)
      end
  end.

Definition addEvent (event : DaibugEvent) (h : hub) : hub :=
  let h := set_buffer (RingBuffer.push_items 500 event (buffer h)) h in
  let h :=
    match wss h with
    | Some clients =>
        let message := default "" (JSON.stringify (event_object event)) in
        set_wss (Some (send_to_open message clients)) h
    | None => h
    end in
  let '(event', listeners, s) :=
    notify (length (eventListeners h)) 0 event (eventListeners h) (closures h) in
  set_closures s (set_eventListeners listeners (set_buffer (replace_last event' (buffer h)) h)).

Definition updateConnectedTabFromPayload (payload : list (string * value)) (h : hub) : hub :=
  match get payload "tabId" with
  | Num tabId =>
      let existing := tabs_get (connectedTabs h) tabId in
      let url :=
        match get payload "tabUrl" with
        | Str tabUrl => tabUrl
        | _ =>
            match get payload "url" with
            | Str url => url
            | _ => from_option tab_url "" existing
            end
        end in
      let title :=
        match get payload "tabTitle" with
        | Str tabTitle => tabTitle
        | _ => from_option tab_title "" existing
        end in
      let '(at_, h) :=
        match existing with
        | Some info => (connectedAt info, h)
        | None => Date_now h
        end in
      set_connectedTabs
        (tabs_set (connectedTabs h) tabId
           {| tabId := tabId; tab_url := url; tab_title := title; connectedAt := at_ |})
        h
  | _ => h
  end.

Definition upsertConnectedTab (tabId : Z) (url title : string) (h : hub) : hub :=
  let existing := tabs_get (connectedTabs h) tabId in
  let '(at_, h) :=
    match existing with
    | Some info => (connectedAt info, h)
    | None => Date_now h
    end in
  set_connectedTabs
    (tabs_set (connectedTabs h) tabId
       {| tabId := tabId; tab_url := url; tab_title := title; connectedAt := at_ |})
    h.

(** [createEvent] of event.ts; its arguments are a source, a level and an
    object by their types, so none of its three tests throws.  The microtask
    that it queues is [microtasks] below. *)
Definition createEvent (source : EventSource) (level : EventLevel)
    (payload : list (string * value)) (h : hub) : DaibugEvent * hub :=
  let h := if inBatch h then h else set_inBatch true (set_seq 0 h) in
  let h := set_seq (seq h + 1) h in
  let '(ts, h) := Date_now h in
  ({| id := "evt_" +:+ JSON.number ts +:+ "_" +:+ pad3 (seq h);
      ts := ts; source := source; level := level; payload := payload |}, h).

(** The microtasks that run when the handler of an outside event returns:
    [inBatch = false]. *)
Definition microtasks (h : hub) : hub := set_inBatch false h.

Definition ingestEvent (source : EventSource) (level : EventLevel)
    (payload : list (string * value)) (h : hub) : hub :=
  let h := updateConnectedTabFromPayload payload h in
  let '(event, h) := createEvent source level payload h in
  let redactedEvent := Redactor.redactEvent (redact h) event in
  addEvent redactedEvent h.

Definition classifyLine (line : string) (h : hub) : EventSource * hub :=
  let '(result, locked') := Detector.detector_classifyOutput line (locked h) in
  let h := set_locked locked' h in
  match result with
  | Devserver =>
      match locked h with
      | Some Devserver => (Devserver, h)
      | Some lockedSource => (lockedSource, h)
      | None =>
          if RegExp.test URL_PATTERN line
          then (Devserver, set_locked (Some Devserver) h)
          else (Vite, h)
      end
  | _ => (result, h)
  end.

(** The handlers of [child.stdout.on("data", ...)] and
    [child.stderr.on("data", ...)], which differ by the level; [data] is
    [data.toString()], the chunk that arrived. *)
Definition on_child_data (level : EventLevel) (data : string) (h : hub) : hub :=
  let message := trim data in
  if String.eqb message "" then h
  else
    let '(source, h) := classifyLine message h in
    ingestEvent source level [("message", Str message)] h.

Definition on_stdout_data : string -> hub -> hub := on_child_data Info.
Definition on_stderr_data : string -> hub -> hub := on_child_data Warn.

(** The interaction that the [browser_interaction] branch builds. *)
Definition interaction_of (msg : value) (ident : string) (ts : Z) : value :=
  let optional key :=
    match prop msg key with Str s => [(key, Str s)] | _ => [] end in
  let optional_number key :=
    match prop msg key with Num n => [(key, Num n)] | _ => [] end in
  Obj ([("id", Str ident); ("ts", Num ts);
        ("type", match prop msg "interactionType" with
                 | Str t => Str t
                 | _ => Str "unknown"
                 end)]
       ++ optional "target" ++ optional "value" ++ optional "url"
       ++ optional_number "x" ++ optional_number "y").

(** [handleWsMessage]; [JSON.parse] throws on a text that is not JSON and
    [msg.type] throws on [null], and the [catch] ignores both. *)
Definition handleWsMessage (rawData : string) (h : hub) : hub :=
  match JSON.parse rawData with
  | None | Some Null | Some Undefined => h
  | Some msg =>
      if strict_eq (prop msg "type") (Str "browser_tab_info") then
        match prop msg "tabId", prop msg "tabUrl", prop msg "tabTitle" with
        | Num tabId, Str tabUrl, Str tabTitle => upsertConnectedTab tabId tabUrl tabTitle h
        | _, _, _ => h
        end
      else if strict_eq (prop msg "type") (Str "browser_interaction") then
        let h := set_interactionSeq (interactionSeq h + 1) h in
        let '(id_ts, h) := Date_now h in
        let '(ts, h) := Date_now h in
        let ident := "int_" +:+ JSON.number id_ts +:+ "_" +:+ pad3 (interactionSeq h) in
        set_interactions
          (RingBuffer.push_items 200 (interaction_of msg ident ts) (interactions h)) h
      else if strict_eq (prop msg "type") (Str "browser_storage") then
        let given :=
          match prop msg "payload" with
          | Undefined | Null => msg
          | p => p
          end in
        match normalizePayload given with
        | Some payload => ingestEvent BrowserStorage Info payload h
        | None => h
        end
      else if strict_eq (prop msg "type") (Str "browser_event") then
        match normalizeEventSource (prop msg "source"),
              normalizeEventLevel (prop msg "level"),
              normalizePayload (prop msg "payload") with
        | Some source, Some level, Some payload => ingestEvent source level payload h
        | _, _, _ => h
        end
      else
        (* Backward-compatible payload format without "type" *)
        match normalizeEventSource (prop msg "source"),
              normalizeEventLevel (prop msg "level"),
              normalizePayload (prop msg "payload") with
        | Some source, Some level, Some payload => ingestEvent source level payload h
        | _, _, _ => h
        end
  end.

(** The loop of [onBrowserEvent] over [buffer.toArray()]: the copy holds the
    events of the ring themselves, so what the handler writes to a payload is
    written to the event in the ring. *)
Fixpoint replay (listener : handler) (events : list DaibugEvent)
    (listeners : list handler) (s : S) : list DaibugEvent * list handler * S :=
  match events with
  | [] => ([], listeners, s)
  | event :: rest =>
      let r := handle listener event s in
      let '(rest', listeners', s') :=
        replay listener rest (unsubscribe_all (unsubscribed r) listeners) (next r) in
      (with_payload event (written r) :: rest', listeners', s')
  end.

(** [onBrowserEvent(handler)]; the function that it returns is
    [unsubscribe (handler_id handler)]. *)
Definition onBrowserEvent (listener : handler) (h : hub) : hub :=
  let h := set_eventListeners (eventListeners h ++ [listener]) h in
  let '(events, listeners, s) :=
    replay listener (buffer h) (eventListeners h) (closures h) in
  set_closures s (set_eventListeners listeners (set_buffer events h)).

Definition broadcastCommand (command : list (string * value)) (h : hub) : hub :=
  match wss h with
  | None => h
  | Some clients =>
      let message := default "" (JSON.stringify (Obj command)) in
      set_wss (Some (send_to_open message clients)) h
  end.

End Hub.

Arguments hub : clear implicits.
Arguments handler : clear implicits.
Arguments reaction : clear implicits.

(** The redactor on the payload of a line of output. *)
Definition message_payload (config : Redactor.RedactConfig) (message : string)
    : list (string * value) :=
  [("message",
    if bool_decide ("message" ∈ Redactor.sensitiveFieldsOf config)
    then Str Redactor.REDACTED else Str message)].

(** *** What the specification says of the child's output and of unknown messages *)

(** The lines of a chunk: the texts between its line feeds (a last line
    without a line feed is not complete yet). *)
Fixpoint lines_from (line chunk : string) : list string :=
  match chunk with
  | EmptyString => []
  | String c rest =>
      if Ascii.eqb c (ascii_of_nat 10) then line :: lines_from "" rest
      else lines_from (line +:+ String c "") rest
  end.

Definition lines (chunk : string) : list string := lines_from "" chunk.

(** One event per line, each carrying that line as its message: the events
    that the handler adds to an empty ring are those of the lines. *)
Definition one_event_per_line `{Platform} : Prop :=
  forall (h : hub unit) (chunk : string),
    buffer h = [] ->
    map payload (buffer (on_stdout_data chunk h))
    = map (fun line => [("message", Str line)]) (lines chunk).

(** An unknown [type] is dropped: the message changes nothing. *)
Definition unknown_type_is_dropped `{Platform} : Prop :=
  forall (h : hub unit) (rawData : string) (msg : list (string * value)) (type : string),
    JSON.parse rawData = Some (Obj msg) ->
    get msg "type" = Str type ->
    type <> "browser_event" -> type <> "browser_interaction" ->
    type <> "browser_tab_info" -> type <> "browser_storage" ->
    handleWsMessage rawData h = h.

End Hub.

(** ** session.ts *)

Module Session.
Import JsString Js.

(** [StorageSnapshot] *)
Record StorageSnapshot := {
  snap_ts : Z;
  snap_url : string;
  snap_tabId : option Z;
  localStorage : list (string * string);
  sessionStorage : list (string * string);
}.

(** A watched event as a session holds it: with the event itself. *)
Record SessionWatchedEvent := {
  w_event : DaibugEvent;
  w_matchedRule_id : string;
  w_matchedRule_label : string;
  w_matchedAt : Z;
}.

(** [DaibugSession].  The environment, the configuration, the interactions
    and the summary are the documents that [buildSnapshot] puts there; the
    properties stated here do not look into them. *)
Record DaibugSession := {
  version : string;
  session_id : string;
  exportedAt : Z;
  environment : list (string * value);
  config : list (string * value);
  events : list DaibugEvent;
  interactions : list value;
  watchedEvents : list SessionWatchedEvent;
  storageSnapshots : list StorageSnapshot;
  summary : list (string * value);
}.

(** What [buildSnapshot] reads from the recorder, the hub and the clock. *)
Record snapshot_parts := {
  now : Z;
  the_environment : list (string * value);
  the_config : list (string * value);
  currentEvents : list DaibugEvent;
  currentInteractions : list value;
  currentWatchedEvents : list SessionWatchedEvent;
  currentStorageSnapshots : list StorageSnapshot;
  the_summary : list (string * value);
}.

(** [const sessionId = `session_${Date.now()}`], at creation time. *)
Definition sessionId (createdAt : Z) : string := "session_" +:+ JSON.number createdAt.

Definition buildSnapshot (createdAt : Z) (parts : snapshot_parts) : DaibugSession :=
  {| version := "1.0";
     session_id := sessionId createdAt;
     exportedAt := now parts;
     environment := the_environment parts;
     config := the_config parts;
     events := currentEvents parts;
     interactions := currentInteractions parts;
     watchedEvents := currentWatchedEvents parts;
     storageSnapshots := currentStorageSnapshots parts;
     summary := the_summary parts |}.

(** The loop of [applySessionRedaction] over the keys of a storage area. *)
Definition redactStorageArea (sensitiveFields : gset string)
    (area : list (string * string)) : list (string * string) :=
  map (fun kv =>
         if bool_decide (toLowerCase kv.1 ∈ sensitiveFields)
         then (kv.1, Redactor.REDACTED) else kv)
    area.

Section WithPlatform.
Context `{Platform}.

Definition applySessionRedaction (session : DaibugSession)
    (redact : Redactor.RedactConfig) : DaibugSession :=
  let sensitiveFields := Redactor.sensitiveFieldsOf redact in
  {| version := version session;
     session_id := session_id session;
     exportedAt := exportedAt session;
     environment := environment session;
     config := config session;
     events := map (Redactor.redactEvent redact) (events session);
     interactions := interactions session;
     watchedEvents :=
       map (fun watched =>
              {| w_event := Redactor.redactEvent redact (w_event watched);
                 w_matchedRule_id := w_matchedRule_id watched;
                 w_matchedRule_label := w_matchedRule_label watched;
                 w_matchedAt := w_matchedAt watched |})
         (watchedEvents session);
     storageSnapshots :=
       map (fun snapshot =>
              {| snap_ts := snap_ts snapshot;
                 snap_url := snap_url snapshot;
                 snap_tabId := snap_tabId snapshot;
                 localStorage := redactStorageArea sensitiveFields (localStorage snapshot);
                 sessionStorage := redactStorageArea sensitiveFields (sessionStorage snapshot) |})
         (storageSnapshots session);
     summary := summary session |}.

(** The objects as [JSON.stringify] meets them. *)
Definition storage_object (area : list (string * string)) : value :=
  Obj (map (fun kv => (kv.1, Str kv.2)) area).

Definition snapshot_object (s : StorageSnapshot) : value :=
  Obj ([("ts", Num (snap_ts s)); ("url", Str (snap_url s))]
       ++ match snap_tabId s with Some t => [("tabId", Num t)] | None => [] end
       ++ [("localStorage", storage_object (localStorage s));
           ("sessionStorage", storage_object (sessionStorage s))]).

Definition watched_object (w : SessionWatchedEvent) : value :=
  Obj [("event", event_object (w_event w));
       ("matchedRule", Obj [("id", Str (w_matchedRule_id w));
                            ("label", Str (w_matchedRule_label w))]);
       ("matchedAt", Num (w_matchedAt w))].

Definition session_object (s : DaibugSession) : value :=
  Obj [("version", Str (version s));
       ("id", Str (session_id s));
       ("exportedAt", Num (exportedAt s));
       ("environment", Obj (environment s));
       ("config", Obj (config s));
       ("events", Arr (map event_object (events s)));
       ("interactions", Arr (interactions s));
       ("watchedEvents", Arr (map watched_object (watchedEvents s)));
       ("storageSnapshots", Arr (map snapshot_object (storageSnapshots s)));
       ("summary", Obj (summary s))].

(** [exportToString()]:
    [JSON.stringify(applySessionRedaction(buildSnapshot(), config), null, 2)] *)
Definition exportToString (createdAt : Z) (parts : snapshot_parts)
    (redact : Redactor.RedactConfig) : option string :=
  let snapshot := buildSnapshot createdAt parts in
  let redacted := applySessionRedaction snapshot redact in
  JSON.stringify_indented (session_object redacted).

End WithPlatform.

(** A call returns a value or throws an [Error] with a message. *)
Inductive outcome (A : Type) :=
  | Returns (a : A)
  | Throws (message : string).
Arguments Returns {A} a.
Arguments Throws {A} message.

(** [ensureSessionShape]; the session it returns is the parsed object. *)
Definition ensureSessionShape (parsed : value) : outcome (list (string * value)) :=
  match parsed with
  | Obj candidate =>
      if negb (strict_eq (get candidate "version") (Str "1.0")) then
        Throws "Invalid session format: unsupported or missing version"
      else
        match get candidate "id" with
        | Str (String _ _) => Returns candidate
        | _ => Throws "Invalid session format: missing id"
        end
  | _ => Throws "Invalid session format: top-level object expected"
  end.

(** [importSessionFromString]; the message of the error of [JSON.parse] is
    left out of the message. *)
Definition importSessionFromString (json : string) : outcome (list (string * value)) :=
  match JSON.parse json with
  | None => Throws "Invalid session JSON"
  | Some parsed => ensureSessionShape parsed
  end.

(** An error of the invalid-format kind: the two functions throw it with a
    message that begins [Invalid session format: ] or [Invalid session JSON]. *)
Definition invalid_format {A} (o : outcome A) : Prop :=
  exists detail, o = Throws ("Invalid session " +:+ detail).

End Session.

(** ** mcp-tools.ts *)

Module McpTools.
Import JsString Js RegExp Hub.

(** The two classes of the scan regexes: a quote mark, single or double
    (written [Q] below), and any other character ([^Q]). *)
Definition is_quote (c : ascii) : bool := Ascii.eqb c "'" || Ascii.eqb c JSON.dquote.
Definition not_quote (c : ascii) : bool := negb (is_quote c).

Definition quote_mark : atom := Rep is_quote 1 (Some 1).
Definition optional_spaces : atom := Rep is_space 0 None.

(** [/fetch\s*\(\s*Q([^Q]+)Q/g] *)
Definition FETCH_URL_RE : regex :=
  {| atoms :=
       Detector.lit "fetch"
       ++ [optional_spaces; Chr "("; optional_spaces;
           quote_mark; Group [Rep not_quote 1 None]; quote_mark];
     ignoreCase := false |}.

(** [/\.open\s*\(\s*Q[^Q]*Q\s*,\s*Q([^Q]+)Q/g] *)
Definition XHR_URL_RE : regex :=
  {| atoms :=
       Detector.lit ".open"
       ++ [optional_spaces; Chr "("; optional_spaces;
           quote_mark; Rep not_quote 0 None; quote_mark;
           optional_spaces; Chr ","; optional_spaces;
           quote_mark; Group [Rep not_quote 1 None]; quote_mark];
     ignoreCase := false |}.

(** [match[1]] of the successive matches of [regex.exec(expression)] from
    [lastIndex = 0]. *)
Definition captured (re : regex) (expression : string) : list string :=
  omap (fun captures => captures !! 0%nat) (exec_all re expression).

Definition VIOLATION : string :=
  "Sandbox violation: network requests to non-localhost URLs are not allowed".

Section WithPlatform.
Context `{Platform}.

Definition isLocalhostUrl (url : string) : bool :=
  match URL_parse url with
  | Some parsed =>
      String.eqb (hostname parsed) "localhost" || String.eqb (hostname parsed) "127.0.0.1"
  | None => true
  end.

(** A URL that [isLocalhostUrl] refuses: it parses, with another host. *)
Definition foreign (url : string) : Prop :=
  exists parsed,
    URL_parse url = Some parsed
    /\ hostname parsed <> "localhost" /\ hostname parsed <> "127.0.0.1".

(** The two loops of [sandboxCheck] return at the first captured URL that
    is not a localhost URL. *)
Definition sandboxCheck (expression : string) : option string :=
  if existsb (fun url => negb (isLocalhostUrl url))
       (captured FETCH_URL_RE expression ++ captured XHR_URL_RE expression)
  then Some VIOLATION
  else None.

End WithPlatform.

(** [textResult] and [errorResult] *)
Definition textResult (data : value) : value :=
  Obj [("content",
        Arr [Obj [("type", Str "text");
                  ("text", from_option Str Undefined (JSON.stringify data))]])].

Definition errorResult (message : string) : value :=
  textResult (Obj [("error", Str message)]).

(** [String(v)] *)
Fixpoint String_ (v : value) : string :=
  match v with
  | Undefined => "undefined"
  | Null => "null"
  | Bool true => "true"
  | Bool false => "false"
  | Num n => JSON.number n
  | Str s => s
  | Arr items =>
      String.concat ","
        (map (fun item =>
                match item with
                | Undefined | Null => ""
                | _ => String_ item
                end) items)
  | Obj _ => "[object Object]"
  end.

(** The variables of the closure that a tool call makes when it waits for
    an event: [settled], [unsubscribe] ([None] until the declaration
    [const unsubscribe = hub.onBrowserEvent(...)] has its value) and the
    value that the promise was resolved with. *)
Record wait := {
  settled : bool;
  unsubscribe_fn : option nat;
  resolved : option value;
}.

(** The state of the closures of the tools: [evalCounter] and the waits. *)
Record tool_closures := { evalCounter : Z; waits : list wait }.

Definition set_wait (w : nat) (c : wait) (s : tool_closures) : tool_closures :=
  {| evalCounter := evalCounter s; waits := <[w := c]> (waits s) |}.

(** What an [async handler] returns: a promise that is resolved already, or
    the promise of the wait [w], with the delay of its timer. *)
Inductive returned :=
  | Now (result : value)
  | Later (w : nat) (timeout : Z).

(** The function that a waiting tool subscribes:
    [if (settled || !matches(event)) return;
     settled = true; unsubscribe(); resolve(result(event))].
    Reading [unsubscribe] before its declaration has a value throws. *)
Definition wait_callback (matches : DaibugEvent -> bool) (result : DaibugEvent -> value)
    (w : nat) (event : DaibugEvent) (s : tool_closures) : reaction tool_closures :=
  match waits s !! w with
  | None => React s (payload event) [] false
  | Some c =>
      if settled c || negb (matches event) then React s (payload event) [] false
      else
        let c := {| settled := true; unsubscribe_fn := unsubscribe_fn c;
                    resolved := resolved c |} in
        match unsubscribe_fn c with
        | None => React (set_wait w c s) (payload event) [] true
        | Some ident =>
            let c := {| settled := true; unsubscribe_fn := unsubscribe_fn c;
                        resolved := Some (result event) |} in
            React (set_wait w c s) (payload event) [ident] false
        end
  end.

Section Tools.
Context `{Platform}.

(** [let settled = false;
     const unsubscribe = hub.onBrowserEvent(callback);
     setTimeout(..., timeout)]: the call of [onBrowserEvent] runs first, and
    [unsubscribe] has its value when it has returned. *)
Definition subscribe_wait
    (callback : nat -> DaibugEvent -> tool_closures -> reaction tool_closures)
    (h : hub tool_closures) : nat * hub tool_closures :=
  let w := length (waits (closures h)) in
  let fresh := {| settled := false; unsubscribe_fn := None; resolved := None |} in
  let h :=
    set_closures
      {| evalCounter := evalCounter (closures h);
         waits := waits (closures h) ++ [fresh] |} h in
  let h := onBrowserEvent (Handler w (callback w)) h in
  let s := closures h in
  let h :=
    match waits s !! w with
    | Some c =>
        set_closures
          (set_wait w {| settled := settled c; unsubscribe_fn := Some w;
                         resolved := resolved c |} s) h
    | None => h
    end in
  (w, h).

(** The function given to [setTimeout]:
    [if (settled) return; settled = true; unsubscribe(); resolve(errorResult(message))] *)
Definition on_timeout (message : string) (w : nat) (h : hub tool_closures) : hub tool_closures :=
  let s := closures h in
  match waits s !! w with
  | None => h
  | Some c =>
      if settled c then h
      else
        match unsubscribe_fn c with
        | None =>
            set_closures
              (set_wait w {| settled := true; unsubscribe_fn := None;
                             resolved := resolved c |} s) h
        | Some ident =>
            set_closures
              (set_wait w {| settled := true; unsubscribe_fn := Some ident;
                             resolved := Some (errorResult message) |} s)
              (set_eventListeners (unsubscribe ident (eventListeners h)) h)
        end
  end.

(** [Math.min(typeof args.timeout === "number" ? args.timeout : d, 10000)] *)
Definition timeout_of (args : list (string * value)) (d : Z) : Z :=
  Z.min (match get args "timeout" with Num t => t | _ => d end) 10000.

(** The handler of [snapshot_dom]. *)
Definition is_dom_snapshot (event : DaibugEvent) : bool :=
  bool_decide (source event = BrowserDom)
  && strict_eq (get (payload event) "type") (Str "dom_snapshot").

Definition snapshot_dom (args : list (string * value)) (h : hub tool_closures)
    : returned * hub tool_closures :=
  let timeout := timeout_of args 3000 in
  let selector :=
    match get args "selector" with
    | Str (String c s) => [("selector", Str (String c s))]
    | _ => []
    end in
  let h :=
    broadcastCommand
      ([("type", Str "command"); ("command", Str "snapshot_dom")] ++ selector) h in
  let '(w, h) :=
    subscribe_wait
      (wait_callback is_dom_snapshot (fun event => textResult (Obj (payload event)))) h in
  (Later w timeout, h).

Definition SNAPSHOT_TIMEOUT : string :=
  "Timeout waiting for DOM snapshot - no extension connected or responding".

(** The handler of [evaluate_in_browser]. *)
Definition evaluation_result (event : DaibugEvent) : value :=
  if truthy (get (payload event) "error")
  then errorResult (String_ (get (payload event) "error"))
  else textResult (Obj [("result", get (payload event) "result")]).

Definition evaluate_in_browser (args : list (string * value)) (h : hub tool_closures)
    : returned * hub tool_closures :=
  match get args "expression" with
  | Str (String c e) =>
      let expression := String c e in
      match sandboxCheck expression with
      | Some sandboxViolation => (Now (errorResult sandboxViolation), h)
      | None =>
          let timeout := timeout_of args 300 in
          let '(now, h) := Date_now h in
          let counter := (evalCounter (closures h) + 1)%Z in
          let h :=
            set_closures
              {| evalCounter := counter; waits := waits (closures h) |} h in
          let evaluationId := "eval_" +:+ JSON.number now +:+ "_" +:+ JSON.number counter in
          let h :=
            broadcastCommand
              [("type", Str "command"); ("command", Str "evaluate");
               ("evaluationId", Str evaluationId); ("expression", Str expression)] h in
          let '(w, h) :=
            subscribe_wait
              (wait_callback
                 (fun event =>
                    strict_eq (get (payload event) "evaluationId") (Str evaluationId))
                 evaluation_result) h in
          (Later w timeout, h)
      end
  | _ => (Now (errorResult "Expression is required"), h)
  end.

(** The frames that the clients of the hub have received. *)
Definition frames (h : hub tool_closures) : list (list string) :=
  match wss h with
  | Some clients => map received clients
  | None => []
  end.

End Tools.

End McpTools.

(** ** Arrays *)

Module JsArray.

(** [arr.slice(start, end)]: a negative index counts from the end, and both
    are brought into the range of the array. *)
Definition clamp (len : nat) (i : Z) : nat :=
  if (i <? 0)%Z then Z.to_nat (Z.max (Z.of_nat len + i) 0)
  else Z.to_nat (Z.min i (Z.of_nat len)).

Definition slice {A} (start : Z) (stop : option Z) (l : list A) : list A :=
  let k := clamp (length l) start in
  let final := match stop with Some e => clamp (length l) e | None => length l end in
  take (final - k) (drop k l).

End JsArray.

(** ** hub.ts: the methods that read the stores, and the hub at work *)

Module HubApi.
Import JsString Js Hub.

Section Hub.
Context `{Platform} {S : Type}.

(** Two listeners with the same identity: the same function, whatever its
    closure holds. *)
Definition same_identity (a b : handler S) : Prop := handler_id a = handler_id b.

(** [getEvents()]: [buffer.toArray()]. *)
Definition getEvents (h : hub S) : list DaibugEvent := buffer h.

(** [clearEvents()]: [buffer.clear()]. *)
Definition clearEvents (h : hub S) : hub S := set_buffer [] h.

(** [getInteractions(limit)]:
    [if (limit != null && limit < all.length) return all.slice(-limit); return all] *)
Definition getInteractions (limit : option Z) (h : hub S) : list value :=
  let all := interactions h in
  match limit with
  | Some limit =>
      if (limit <? Z.of_nat (length all))%Z then JsArray.slice (- limit) None all
      else all
  | None => all
  end.

(** [getConnectedTabs()]: [Array.from(connectedTabs.values())]. *)
Definition getConnectedTabs (h : hub S) : list TabInfo := map snd (connectedTabs h).

(** What reaches the hub from outside, each in a task of its own: a chunk
    of the child's output, a frame from a browser, a call of a method. *)
Inductive input :=
  | StdoutData (data : string)
  | StderrData (data : string)
  | WsMessage (rawData : string)
  | Subscribe (listener : handler S)
  | BroadcastCommand (command : list (string * value))
  | ClearEvents.

(** The task of an input, with the microtasks that follow it. *)
Definition step (h : hub S) (i : input) : hub S :=
  microtasks
    match i with
    | StdoutData data => on_stdout_data data h
    | StderrData data => on_stderr_data data h
    | WsMessage rawData => handleWsMessage rawData h
    | Subscribe listener => onBrowserEvent listener h
    | BroadcastCommand command => broadcastCommand command h
    | ClearEvents => clearEvents h
    end.

Definition run (h : hub S) (inputs : list input) : hub S := foldl step h inputs.

End Hub.

Arguments input : clear implicits.

(** A client keeps its state, and has received what it had and maybe more;
    one that is not open has received nothing more. *)
Definition client_after (before after : WsClient) : Prop :=
  readyState after = readyState before
  /\ received before `prefix_of` received after
  /\ (readyState before <> 1%Z -> received after = received before).

Definition server_after (before after : option (list WsClient)) : Prop :=
  match before, after with
  | Some clients, Some clients' => Forall2 client_after clients clients'
  | None, None => True
  | _, _ => False
  end.

(** The framework that the patterns of the detector see in a line. *)
Definition identified (line : string) : option EventSource :=
  if Detector.some_matches Detector.NEXT_OUTPUT_PATTERNS line then Some Next
  else if Detector.some_matches Detector.VITE_OUTPUT_PATTERNS line then Some Vite
  else None.

(** The framework seen last in a sequence of lines. *)
Definition last_identified (lines : list string) : option EventSource :=
  head (omap identified (rev lines)).

(** [classifyLine] on the lines of a sequence, one after the other. *)
Definition classify_all {S : Type} (lines : list string) (h : hub S) : hub S :=
  foldl (fun h line => (classifyLine line h).2) h lines.

(** The sources of the output of a dev server. *)
Definition server_source (s : EventSource) : Prop := s = Vite \/ s = Next \/ s = Devserver.

End HubApi.

(** ** watch-rules.ts: the engine *)

Module WatchEngine.
Import JsString Js WatchRules.

(** The closure of [createWatchRuleEngine]: [rules], [ruleSeq], and the
    [watchedEvents] buffer with the events it points to. *)
Record engine := {
  rules : list WatchRule;
  ruleSeq : Z;
  store : state;
}.

(** [rule_${Date.now()}_${String(ruleSeq).padStart(3, "0")}] *)
Definition rule_id_of (now seq : Z) : string :=
  "rule_" +:+ JSON.number now +:+ "_" +:+ Hub.pad3 seq.

(** The number that a decimal numeral stands for, leading zeros allowed. *)
Definition numeral_value (s : string) : option Z :=
  option_map Z.of_int (DecimalString.NilZero.int_of_string s).

(** [addRule(ruleInput)]; [now_id] and [now_created] are the two readings
    of the clock, for the id and for [createdAt]. *)
Definition addRule (label : string) (source : option EventSource)
    (conditions : WatchConditions) (now_id now_created : Z) (e : engine)
    : WatchRule * engine :=
  let seq := (ruleSeq e + 1)%Z in
  let rule :=
    {| rule_id := rule_id_of now_id seq; rule_label := label; rule_source := source;
       rule_conditions := conditions; rule_createdAt := now_created;
       rule_active := true |} in
  (rule, {| rules := rules e ++ [rule]; ruleSeq := seq; store := store e |}).

(** [rules.splice(index, 1)] at the index that [findIndex] found. *)
Fixpoint remove_first (ident : string) (rs : list WatchRule) : option (list WatchRule) :=
  match rs with
  | [] => None
  | r :: rest =>
      if String.eqb (rule_id r) ident then Some rest
      else cons r <$> remove_first ident rest
  end.

Definition removeRule (ident : string) (e : engine) : bool * engine :=
  match remove_first ident (rules e) with
  | Some rs => (true, {| rules := rs; ruleSeq := ruleSeq e; store := store e |})
  | None => (false, e)
  end.

(** [listRules()]: copies of the rules. *)
Definition listRules (e : engine) : list WatchRule := rules e.

(** [getWatchedEvents(limit)]:
    [if (limit == null) return watchedEvents.slice();
     if (limit <= 0) return [];
     return watchedEvents.slice(0, Math.min(limit, WATCHED_CAPACITY))] *)
Definition getWatchedEvents (limit : option Z) (e : engine) : list WatchedEvent :=
  match limit with
  | None => watchedEvents (store e)
  | Some limit =>
      if (limit <=? 0)%Z then []
      else JsArray.slice 0 (Some (Z.min limit (Z.of_nat WATCHED_CAPACITY)))
             (watchedEvents (store e))
  end.

(** [clearWatchedEvents()]: [watchedEvents.length = 0]. *)
Definition clearWatchedEvents (e : engine) : engine :=
  {| rules := rules e; ruleSeq := ruleSeq e;
     store := {| events := events (store e); watchedEvents := [] |} |}.

Section WithPlatform.
Context `{Platform}.

(** [evaluate(event)], on the event at the address [ev]. *)
Definition evaluate (ev : nat) (clock : nat -> Z) (e : engine) : bool * engine :=
  let '(matched, st) := WatchRules.evaluate (rules e) (store e) ev clock in
  (matched, {| rules := rules e; ruleSeq := ruleSeq e; store := st |}).

(** The calls that an engine gets. *)
Inductive call :=
  | AddRule (label : string) (source : option EventSource) (conditions : WatchConditions)
      (now_id now_created : Z)
  | RemoveRule (ident : string)
  | Evaluate (ev : nat) (clock : nat -> Z)
  | ClearWatchedEvents.

Definition do_call (e : engine) (c : call) : engine :=
  match c with
  | AddRule label source conditions now_id now_created =>
      (addRule label source conditions now_id now_created e).2
  | RemoveRule ident => (removeRule ident e).2
  | Evaluate ev clock => (evaluate ev clock e).2
  | ClearWatchedEvents => clearWatchedEvents e
  end.

Definition do_calls (e : engine) (calls : list call) : engine := foldl do_call e calls.

End WithPlatform.

(** The engine that [createWatchRuleEngine] returns, given the events. *)
Definition createWatchRuleEngine (evs : list DaibugEvent) : engine :=
  {| rules := []; ruleSeq := 0; store := {| events := evs; watchedEvents := [] |} |}.

(** The ids of the rules carry sequence numbers that were given out. *)
Definition ids_given (e : engine) : Prop :=
  (0 <= ruleSeq e)%Z
  /\ Forall (fun r => exists now seq,
                rule_id r = rule_id_of now seq /\ (1 <= seq <= ruleSeq e)%Z) (rules e)
  /\ NoDup (map rule_id (rules e)).

End WatchEngine.

(** ** mcp-tools.ts: the tools that read the event log *)

Module McpQueries.
Import JsString Js Hub McpTools.

(** The filters of [get_events], in the order of the handler: [source],
    [level], [since] and [tab_id], each applied when the argument has the
    type that the handler tests for. *)
Definition get_events_filtered (args : list (string * value)) (events : list DaibugEvent)
    : list DaibugEvent :=
  let events :=
    match get args "source" with
    | Str wanted =>
        List.filter (fun event => String.eqb (source_name (source event)) wanted) events
    | _ => events
    end in
  let events :=
    match get args "level" with
    | Str wanted =>
        List.filter (fun event => String.eqb (level_name (level event)) wanted) events
    | _ => events
    end in
  let events :=
    match get args "since" with
    | Num since => List.filter (fun event => (since <? ts event)%Z) events
    | _ => events
    end in
  match get args "tab_id" with
  | Num tabId =>
      List.filter
        (fun event =>
           match get (payload event) "tabId" with
           | Undefined => true
           | eventTab => strict_eq eventTab (Num tabId)
           end) events
  | _ => events
  end.

(** [Math.min(typeof args.limit === "number" ? Math.max(args.limit, 0) : 50, 500)] *)
Definition get_events_limit (args : list (string * value)) : Z :=
  Z.min (match get args "limit" with Num limit => Z.max limit 0 | _ => 50 end) 500.

(** The events that [get_events] returns: [events.slice(-limit)]. *)
Definition get_events_selected (args : list (string * value)) (events : list DaibugEvent)
    : list DaibugEvent :=
  JsArray.slice (- get_events_limit args) None (get_events_filtered args events).

Definition get_events {S : Type} (args : list (string * value)) (h : hub S) : value :=
  textResult (Arr (map event_object (get_events_selected args (HubApi.getEvents h)))).

(** The last filter of [get_network_log], on the status. *)
Definition status_wanted (includeSuccessful includeFailed : bool) (event : DaibugEvent)
    : bool :=
  match get (payload event) "status" with
  | Num status =>
      let isSuccess := (200 <=? status)%Z && (status <? 400)%Z in
      if isSuccess && negb includeSuccessful then false
      else if negb isSuccess && negb includeFailed then false
      else true
  | _ => true
  end.

(** The events that [get_network_log] returns, and [networkCursor]
    afterwards. *)
Definition get_network_log_selected (args : list (string * value)) (networkCursor : Z)
    (events : list DaibugEvent) : list DaibugEvent * Z :=
  let events :=
    List.filter (fun event => bool_decide (source event = BrowserNetwork)) events in
  let events :=
    if (0 <? networkCursor)%Z
    then List.filter (fun event => (networkCursor <? ts event)%Z) events
    else events in
  let includeSuccessful := negb (strict_eq (get args "include_successful") (Bool false)) in
  let includeFailed := negb (strict_eq (get args "include_failed") (Bool false)) in
  let events := List.filter (status_wanted includeSuccessful includeFailed) events in
  (events,
   match last events with
   | Some event => ts event
   | None => networkCursor
   end).

End McpQueries.

(** ** mcp-tools.ts: the tools of the watch rules *)

Module McpWatch.
Import JsString Js WatchRules WatchEngine.

(** [Array.isArray(v) && v.every((x) => typeof x === "number") ? v : undefined] *)
Definition numbers (v : value) : option (list Z) :=
  match v with
  | Arr items =>
      mapM (fun item => match item with Num n => Some n | _ => None end) items
  | _ => None
  end.

(** [Array.isArray(v) && v.every((x) => typeof x === "string") ? v : undefined] *)
Definition strings (v : value) : option (list string) :=
  match v with
  | Arr items =>
      mapM (fun item => match item with Str s => Some s | _ => None end) items
  | _ => None
  end.

(** [typeof v === "string" ? v : undefined] *)
Definition text (v : value) : option string :=
  match v with Str s => Some s | _ => None end.

(** [...(l && l.length > 0 ? { l } : {})] and [...(s ? { s } : {})]: whether
    the property is there. *)
Definition nonempty_list {A} (l : option (list A)) : option (list A) :=
  match l with
  | Some ((_ :: _) as l) => Some l
  | _ => None
  end.

Definition nonempty_text (s : option string) : option string :=
  match s with
  | Some (String _ _ as s) => Some s
  | _ => None
  end.

(** What [parseWatchConditions] returns. *)
Record parsed := {
  parsed_source : option EventSource;
  parsed_conditions : WatchConditions;
  parsed_error : option string;
}.

(** [{}] *)
Definition no_conditions : WatchConditions :=
  {| statusCodes := None; urlPattern := None; methods := None; levels := None;
     messageContains := None; payloadContains := None |}.

Definition parseWatchConditions (args : list (string * value)) : parsed :=
  let sourceRaw := get args "source" in
  let source : option (option EventSource) :=
    (* [None] is the [null] of an invalid source *)
    match sourceRaw with
    | Str name =>
        match Hub.source_of_name name with
        | Some source => Some (Some source)
        | None => None
        end
    | Undefined | Null => Some None
    | _ => None
    end in
  match source with
  | None =>
      {| parsed_source := None; parsed_conditions := no_conditions;
         parsed_error := Some ("Invalid source: " +:+ McpTools.String_ sourceRaw) |}
  | Some source =>
      let statusCodes := numbers (get args "status_codes") in
      let urlPattern := text (get args "url_pattern") in
      let methods := strings (get args "methods") in
      let levelsInput := strings (get args "levels") in
      let messageContains := text (get args "message_contains") in
      let levels : option (list EventLevel) :=
        option_map (fun input => omap Hub.level_of_name input) levelsInput in
      let invalid_levels :=
        match levelsInput, levels with
        | Some levelsInput, Some levels =>
            negb (length levels =? length levelsInput)%nat
        | Some _, None => true
        | None, _ => false
        end in
      if invalid_levels then
        {| parsed_source := None; parsed_conditions := no_conditions;
           parsed_error := Some "Invalid levels supplied to watch rule" |}
      else
        {| parsed_source := source;
           parsed_conditions :=
             {| statusCodes := nonempty_list statusCodes;
                urlPattern := nonempty_text urlPattern;
                methods := nonempty_list methods;
                levels := nonempty_list levels;
                messageContains := nonempty_text messageContains;
                payloadContains := None |};
           parsed_error := None |}
  end.

(** The conditions and the rule as [JSON.stringify] meets them. *)
Definition conditions_object (c : WatchConditions) : list (string * value) :=
  from_option (fun codes => [("statusCodes", Arr (map Num codes))]) [] (statusCodes c)
  ++ from_option (fun pattern => [("urlPattern", Str pattern)]) [] (urlPattern c)
  ++ from_option (fun ms => [("methods", Arr (map Str ms))]) [] (methods c)
  ++ from_option (fun ls => [("levels", Arr (map (fun l => Str (level_name l)) ls))]) []
       (levels c)
  ++ from_option (fun needle => [("messageContains", Str needle)]) [] (messageContains c)
  ++ from_option (fun expected => [("payloadContains", Obj expected)]) []
       (payloadContains c).

Definition rule_object (r : WatchRule) : value :=
  Obj [("id", Str (rule_id r));
       ("label", Str (rule_label r));
       ("source", from_option (fun s => Str (source_name s)) Undefined (rule_source r));
       ("conditions", Obj (conditions_object (rule_conditions r)));
       ("createdAt", Num (rule_createdAt r));
       ("active", Bool (rule_active r))].

(** The handler of [add_watch_rule]; [now_id] and [now_created] are the
    readings of the clock that [addRule] makes. *)
Definition add_watch_rule (args : list (string * value)) (now_id now_created : Z)
    (e : engine) : value * engine :=
  let label := match get args "label" with Str label => trim label | _ => "" end in
  if String.eqb label "" then (McpTools.errorResult "label is required", e)
  else
    let parsed := parseWatchConditions args in
    match parsed_error parsed with
    | Some (String _ _ as error) => (McpTools.errorResult error, e)
    | _ =>
        (* [Object.keys(parsed.conditions).length === 0] *)
        if (length (conditions_object (parsed_conditions parsed)) =? 0)%nat
        then (McpTools.errorResult "At least one watch condition is required", e)
        else
          let '(created, e) :=
            addRule label (parsed_source parsed) (parsed_conditions parsed)
              now_id now_created e in
          (McpTools.textResult (rule_object created), e)
    end.

(** The handler of [remove_watch_rule]. *)
Definition remove_watch_rule (args : list (string * value)) (e : engine)
    : value * engine :=
  match get args "id" with
  | Str (String _ _ as ident) =>
      let '(removed, e) := removeRule ident e in
      if removed
      then (McpTools.textResult (Obj [("removed", Bool true); ("id", Str ident)]), e)
      else (McpTools.errorResult ("Watch rule not found: " +:+ ident), e)
  | _ => (McpTools.errorResult "id is required", e)
  end.

(** The handler of [get_watched_events], before the result is printed:
    [Math.min(typeof args.limit === "number" ? Math.max(args.limit, 0) : 50, 200)],
    then the filter on [rule_id]. *)
Definition get_watched_events (args : list (string * value)) (e : engine)
    : list WatchedEvent :=
  let limit :=
    Z.min (match get args "limit" with Num limit => Z.max limit 0 | _ => 50%Z end) 200 in
  let events := getWatchedEvents (Some limit) e in
  match get args "rule_id" with
  | Str wanted => List.filter (fun event => String.eqb (matchedRule_id event) wanted) events
  | _ => events
  end.

End McpWatch.

(** ** config.ts: the console levels *)

Module Config.
Import JsString Js.

Definition ALL_CAPTURE_LEVELS : list string := ["error"; "warn"; "log"; "debug"].
Definition DEFAULT_CAPTURE_LEVELS : list string := ["error"; "warn"; "log"].
Definition VALID_CONSOLE_LEVELS : list string := ["log"; "debug"; "warn"; "error"; "all"].

(** [output.includes(item)], and [VALID_CONSOLE_LEVELS.has(item)]. *)
Definition includes (output : list string) (item : string) : bool :=
  existsb (String.eqb item) output.

(** [if (!output.includes(item)) output.push(item)] *)
Definition push_new (output : list string) (item : string) : list string :=
  if includes output item then output else output ++ [item].

(** The body of the loop of [normalizeConsoleArray]. *)
Definition normalize_level (output : list string) (level : value) : list string :=
  match level with
  | Str level =>
      let normalized := toLowerCase (trim level) in
      if negb (includes VALID_CONSOLE_LEVELS normalized) then output
      else if String.eqb normalized "all" then foldl push_new output ALL_CAPTURE_LEVELS
      else push_new output normalized
  | _ => output
  end.

(** [normalizeConsoleArray]: [None] is [undefined]. *)
Definition normalizeConsoleArray (levels : value) : option (list string) :=
  match levels with
  | Arr levels =>
      match foldl normalize_level [] levels with
      | [] => None
      | output => Some output
      end
  | _ => None
  end.

(** [s.split(sep)] for a separator of one character. *)
Fixpoint split (sep : ascii) (s : string) : list string :=
  match s with
  | EmptyString => [EmptyString]
  | String c r =>
      if Ascii.eqb c sep then EmptyString :: split sep r
      else
        match split sep r with
        | first :: others => String c first :: others
        | [] => [String c EmptyString]
        end
  end.

(** The argument of [parseConsoleFilter]: [string | string[] | undefined].
    The elements of the array are of type [unknown] once the array comes
    from a file. *)
Inductive filter_input :=
  | Levels (levels : list value)
  | Text (input : string)
  | Missing.

Definition parseConsoleFilter (input : filter_input) : list string :=
  match input with
  | Levels levels => default DEFAULT_CAPTURE_LEVELS (normalizeConsoleArray (Arr levels))
  | Missing | Text EmptyString => DEFAULT_CAPTURE_LEVELS
  | Text input =>
      let normalizedInput := toLowerCase (trim input) in
      if String.eqb normalizedInput "all" || String.eqb normalizedInput "verbose"
      then ALL_CAPTURE_LEVELS
      else if String.eqb normalizedInput "errors" then ["error"]
      else if String.eqb normalizedInput "errors-and-warnings" then ["error"; "warn"]
      else
        let parts :=
          List.filter (fun part => negb (String.eqb part ""))
            (map trim (split "," normalizedInput)) in
        default DEFAULT_CAPTURE_LEVELS (normalizeConsoleArray (Arr (map Str parts)))
  end.

End Config.

(** ** session.ts: the summary of a session *)

Module SessionSummary.
Import JsString Js.

(** [Array.prototype.sort] with a comparator: the sort is stable, which for
    a comparator that is a consistent order fixes the result; it is the one
    of the insertion of each element, in turn, behind the elements that do
    not come after it. *)
Fixpoint insert_sorted {A} (compare : A -> A -> Z) (x : A) (sorted : list A) : list A :=
  match sorted with
  | [] => [x]
  | y :: rest =>
      if (compare x y <? 0)%Z then x :: sorted
      else y :: insert_sorted compare x rest
  end.

Definition sort {A} (compare : A -> A -> Z) (l : list A) : list A :=
  foldl (fun sorted x => insert_sorted compare x sorted) [] l.

Record SessionSummary := {
  totalEvents : Z;
  errorCount : Z;
  warnCount : Z;
  networkRequests : Z;
  failedRequests : Z;
  interactionCount : Z;
  duration : Z;
  topErrors : list string;
}.

(** [detectFrameworkFromEvents] *)
Definition detectFrameworkFromEvents (events : list DaibugEvent) : string :=
  match List.find (fun event =>
                     bool_decide (source event = Next \/ source event = Vite
                                  \/ source event = Devserver)) events with
  | Some event => source_name (source event)
  | None => "unknown"
  end.

(** The counters of the loop of [computeSummary]. *)
Record counters := {
  errors : Z;
  warns : Z;
  requests : Z;
  failed : Z;
  errorFrequencies : list (string * Z);
}.

Definition count_event (c : counters) (event : DaibugEvent) : counters :=
  let is_error := bool_decide (level event = Error) in
  let is_network := bool_decide (source event = BrowserNetwork) in
  {| errors := if is_error then errors c + 1 else errors c;
     errorFrequencies :=
       if is_error then
         match get (payload event) "message" with
         | Str (String _ _ as message) =>
             set (errorFrequencies c) message
               (default 0%Z (find (errorFrequencies c) message) + 1)%Z
         | _ => errorFrequencies c
         end
       else errorFrequencies c;
     warns := if bool_decide (level event = Warn) then warns c + 1 else warns c;
     requests := if is_network then requests c + 1 else requests c;
     failed :=
       if is_network then
         match get (payload event) "status" with
         | Num status =>
             if (400 <=? status)%Z && (status <? 600)%Z then failed c + 1 else failed c
         | _ => failed c
         end
       else failed c |}.

(** Whether an event reports the error message [m], and in how many events
    a message is reported: what [topErrors] is stated with. *)
Definition reports (m : string) (event : DaibugEvent) : bool :=
  bool_decide (level event = Error)
  && match get (payload event) "message" with
     | Str message => String.eqb message m
     | _ => false
     end.

Definition occurrences (m : string) (events : list DaibugEvent) : Z :=
  Z.of_nat (length (filter (fun event => reports m event) events)).

(** Whether an event is a request that failed. *)
Definition is_failed_request (event : DaibugEvent) : bool :=
  bool_decide (source event = BrowserNetwork)
  && match get (payload event) "status" with
     | Num status => (400 <=? status)%Z && (status <? 600)%Z
     | _ => false
     end.

(** The map of the frequencies, after the events [seen]. *)
Definition counted (freq : list (string * Z)) (seen : list DaibugEvent) : Prop :=
  NoDup (map fst freq)
  /\ (forall m n, (m, n) ∈ freq -> m <> "" /\ (0 < n)%Z)
  /\ (forall m, m <> "" -> default 0%Z (find freq m) = occurrences m seen).

Section WithLocale.

(** [a.localeCompare(b)]: negative, zero or positive. *)
Variable localeCompare : string -> string -> Z.

(** The comparator of [sortEventsByTimestamp]:
    [a.ts === b.ts ? a.id.localeCompare(b.id) : a.ts - b.ts] *)
Definition compareEvents (a b : DaibugEvent) : Z :=
  if (ts a =? ts b)%Z then localeCompare (id a) (id b) else (ts a - ts b)%Z.

Definition sortEventsByTimestamp (events : list DaibugEvent) : list DaibugEvent :=
  sort compareEvents events.

(** The comparator of the most frequent messages:
    [a[1] !== b[1] ? b[1] - a[1] : a[0].localeCompare(b[0])] *)
Definition compareFrequencies (a b : string * Z) : Z :=
  if negb (a.2 =? b.2)%Z then (b.2 - a.2)%Z else localeCompare a.1 b.1.

Definition computeSummary (events : list DaibugEvent) (interactions : list value)
    : SessionSummary :=
  let ordered := sortEventsByTimestamp events in
  let c :=
    foldl count_event
      {| errors := 0; warns := 0; requests := 0; failed := 0; errorFrequencies := [] |}
      ordered in
  {| totalEvents := Z.of_nat (length ordered);
     errorCount := errors c;
     warnCount := warns c;
     networkRequests := requests c;
     failedRequests := failed c;
     interactionCount := Z.of_nat (length interactions);
     duration :=
       match head ordered, last ordered with
       | Some first, Some final =>
           if (2 <=? length ordered)%nat then (ts final - ts first)%Z else 0%Z
       | _, _ => 0%Z
       end;
     topErrors :=
       map fst (JsArray.slice 0 (Some 5%Z) (sort compareFrequencies (errorFrequencies c))) |}.

End WithLocale.

End SessionSummary.

(** ** Sample data *)

(** The events, rules, hubs and messages that the scenarios below run on. *)
Module Samples.
Import Js RedactorHeap Redactor WatchRules Hub McpTools.

(** The event of scenario S1, in a store of three objects. *)
Definition s1_store : list cell :=
  [ ObjCell [("username", RStr "u@x.com"); ("password", RStr "s")];
    ObjCell [("token", RStr "t")];
    ObjCell [("url", RStr "/api/login"); ("method", RStr "POST");
             ("requestBody", Ref 0); ("responseBody", Ref 1)] ].

Definition s1_payload : list (string * value) :=
  [("url", Str "/api/login"); ("method", Str "POST");
   ("requestBody", Obj [("username", Str "u@x.com"); ("password", Str "s")]);
   ("responseBody", Obj [("token", Str "t")])].

Definition s1_event : Event ref_value :=
  {| id := "evt_1_001"; ts := 1; source := BrowserNetwork; level := Info;
     payload := Ref 2 |}.

Definition s1_config : RedactConfig :=
  {| fields := ["password"; "token"]; urlPatterns := [] |}.

(** Scenario S2: the rule "auth failures" and a 401 on /api/user. *)
Definition s2_rule : WatchRule :=
  {| rule_id := "rule_1_001"; rule_label := "auth failures"; rule_source := None;
     rule_conditions :=
       {| statusCodes := Some [401%Z]; urlPattern := Some "/api/**"; methods := None;
          levels := None; messageContains := None; payloadContains := None |};
     rule_createdAt := 1; rule_active := true |}.

Definition s2_event : DaibugEvent :=
  {| id := "evt_2_001"; ts := 2; source := BrowserNetwork; level := Error;
     payload := [("status", Num 401); ("url", Str "/api/user")] |}.

(** A document of version 2.0, as [JSON.stringify] writes it. *)
Definition s3_document : value :=
  Obj [("version", Str "2.0"); ("id", Str "session_1")].

Definition s3_text : string := JSON.serialize "" "" s3_document.

(** A hub that has just started: one open client and one that is closing,
    no listener, the clock at 1000. *)
Definition sample_hub : hub unit :=
  {| redact := {| Redactor.fields := ["password"]; Redactor.urlPatterns := [] |};
     buffer := []; interactions := []; eventListeners := []; connectedTabs := [];
     interactionSeq := 0;
     wss := Some [ {| readyState := 1; received := [] |};
                   {| readyState := 2; received := [] |} ];
     locked := None; seq := 0; inBatch := false;
     timeline := fun n => (1000 + Z.of_nat n)%Z; ticks := 0; closures := tt |}.

(** A chunk of two lines: [a], line feed, [b], line feed. *)
Definition s4_chunk : string :=
  String "a" (String (ascii_of_nat 10) (String "b" (String (ascii_of_nat 10) ""))).

(** The message that the hub makes of it: both lines. *)
Definition s4_message : string := String "a" (String (ascii_of_nat 10) (String "b" "")).

(** A message of an unknown type that carries an event. *)
Definition s5_message : list (string * value) :=
  [("type", Str "unknown_kind"); ("source", Str "browser:console");
   ("level", Str "info"); ("payload", Obj [("message", Str "x")])].

Definition s5_frame : string := JSON.serialize "" "" (Obj s5_message).

(** A hub with one open client, for the tools. *)
Definition tools_hub (events : list DaibugEvent) : hub tool_closures :=
  {| redact := {| Redactor.fields := []; Redactor.urlPatterns := [] |};
     buffer := events; interactions := []; eventListeners := []; connectedTabs := [];
     interactionSeq := 0;
     wss := Some [ {| readyState := 1; received := [] |} ];
     locked := None; seq := 0; inBatch := false;
     timeline := fun n => (2000 + Z.of_nat n)%Z; ticks := 0;
     closures := {| evalCounter := 0; waits := [] |} |}.

(** A DOM snapshot that the browser sent earlier, e.g. for an earlier call
    of the tool. *)
Definition s6_snapshot : DaibugEvent :=
  {| id := "evt_1900_001"; ts := 1900; source := BrowserDom; level := Info;
     payload := [("type", Str "dom_snapshot"); ("html", Str "<html></html>")] |}.

(** The hub at a time when the clock does not advance: two readings within
    the same millisecond. *)
Definition steady_hub : hub unit :=
  {| redact := {| Redactor.fields := ["password"]; Redactor.urlPatterns := [] |};
     buffer := []; interactions := []; eventListeners := []; connectedTabs := [];
     interactionSeq := 0;
     wss := Some [ {| readyState := 1; received := [] |} ];
     locked := None; seq := 0; inBatch := false;
     timeline := fun _ => 1000%Z; ticks := 0; closures := tt |}.

(** A message that tells the hub of the tab 7. *)
Definition s7_message : list (string * value) :=
  [("type", Str "browser_tab_info"); ("tabId", Num 7);
   ("tabUrl", Str "http://localhost:3000/"); ("tabTitle", Str "Home")].

Definition s7_frame : string := JSON.serialize "" "" (Obj s7_message).

(** Two listeners whose closure is a counter of the events they were given:
    one that stays, one that unsubscribes itself at its first event. *)
Definition counting (ident : nat) : handler nat :=
  {| handler_id := ident;
     handle := fun _ n => {| next := S n; written := []; unsubscribed := []; thrown := false |} |}.

Definition once (ident : nat) : handler nat :=
  {| handler_id := ident;
     handle := fun _ n =>
       {| next := S n; written := []; unsubscribed := [ident]; thrown := false |} |}.

Definition listening_hub (listeners : list (handler nat)) : hub nat :=
  {| redact := {| Redactor.fields := []; Redactor.urlPatterns := [] |};
     buffer := []; interactions := []; eventListeners := listeners; connectedTabs := [];
     interactionSeq := 0;
     wss := Some [ {| readyState := 1; received := [] |} ];
     locked := None; seq := 0; inBatch := false;
     timeline := fun n => (3000 + Z.of_nat n)%Z; ticks := 0; closures := 0 |}.

(** A request that failed, at time 5. *)
Definition s8_event : DaibugEvent :=
  {| id := "evt_5_001"; ts := 5; source := BrowserNetwork; level := Error;
     payload := [("status", Num 500); ("url", Str "/api/items")] |}.

End Samples.

(** * Properties *)

(** ** JavaScript values *)

Module JsFacts.
Import JsString Js.

Lemma map_chars_length f s : String.length (map_chars f s) = String.length s.
Proof. induction s; simpl; congruence. Qed.

Lemma toLowerCase_nonempty s : s <> "" -> toLowerCase s <> "".
Proof. destruct s; [done|]. intros _. discriminate. Qed.

(** Induction on a value, with the hypothesis for every element of an array
    and every property of an object. *)
Lemma value_ind' (P : value -> Prop) :
  P Undefined -> P Null -> (forall b, P (Bool b)) -> (forall n, P (Num n)) ->
  (forall s, P (Str s)) ->
  (forall items, Forall P items -> P (Arr items)) ->
  (forall props, Forall (fun kv => P kv.2) props -> P (Obj props)) ->
  forall v, P v.
Proof.
  intros HU HN HB HZ HS HA HO.
  fix IH 1. intros v. destruct v as [| |b|n|s|items|props].
  - exact HU.
  - exact HN.
  - apply HB.
  - apply HZ.
  - apply HS.
  - apply HA.
    exact ((fix all (l : list value) : Forall P l :=
              match l with
              | [] => Forall_nil_2 P
              | v :: l' => Forall_cons_2 P v l' (IH v) (all l')
              end) items).
  - apply HO.
    exact ((fix all (l : list (string * value)) : Forall (fun kv => P kv.2) l :=
              match l with
              | [] => Forall_nil_2 (fun kv => P kv.2)
              | kv :: l' => Forall_cons_2 (fun kv => P kv.2) kv l' (IH kv.2) (all l')
              end) props).
Qed.

Section Props.
Context {V : Type}.
Implicit Types (o : list (string * V)).

Lemma find_from acc o key :
  foldl (fun found kv => if String.eqb kv.1 key then Some kv.2 else found) acc o
  = match find o key with Some v => Some v | None => acc end.
Proof.
  unfold find. revert acc. induction o as [|[k w] o IH]; intros acc; [done|].
  simpl. rewrite (IH (if String.eqb k key then Some w else acc)).
  rewrite (IH (if String.eqb k key then Some w else None)).
  destruct (foldl _ None o); [done|]. by destruct (String.eqb k key).
Qed.

Lemma find_cons k w o key :
  find ((k, w) :: o) key
  = match find o key with
    | Some v => Some v
    | None => if String.eqb k key then Some w else None
    end.
Proof. unfold find at 1. simpl. apply find_from. Qed.

Lemma find_nil key : find (V:=V) [] key = None.
Proof. done. Qed.

Lemma find_set o k v key :
  find (set o k v) key = if String.eqb k key then Some v else find o key.
Proof.
  induction o as [|[k' w] o IH]; simpl.
  - rewrite find_cons, find_nil. done.
  - destruct (String.eqb_spec k' k) as [->|Hne].
    + rewrite !find_cons. unfold has.
      destruct (String.eqb_spec k key) as [->|Hk].
      * destruct (find o key) eqn:Hf; [by rewrite IH|]. by rewrite Hf.
      * destruct (find o k) eqn:Hf; [by rewrite IH|]. done.
    + rewrite !find_cons, IH.
      destruct (String.eqb_spec k key) as [->|Hk]; [done|]. done.
Qed.

Lemma has_set o k v key :
  has (set o k v) key = String.eqb k key || has o key.
Proof. unfold has. rewrite find_set. by destruct (String.eqb k key). Qed.

Lemma elem_of_set o k v key x :
  (key, x) ∈ set o k v -> (key, x) ∈ o \/ (key = k /\ x = v).
Proof.
  revert key x. induction o as [|[k' w] o IH]; simpl; intros key x.
  - rewrite list_elem_of_singleton. intros [= -> ->]. by right.
  - destruct (String.eqb_spec k' k) as [->|Hne].
    + rewrite elem_of_cons. intros [[= -> ->]|Hin]; [by right|].
      destruct (has o k).
      * apply IH in Hin as [?|?]; [left; by apply elem_of_cons; right|by right].
      * left. apply elem_of_cons. by right.
    + rewrite elem_of_cons. intros [[= -> ->]|Hin].
      * left. apply elem_of_cons. by left.
      * apply IH in Hin as [?|?]; [left; by apply elem_of_cons; right|by right].
Qed.

End Props.

Lemma get_set (o : list (string * value)) k v key :
  get (set o k v) key = if String.eqb k key then v else get o key.
Proof. unfold get. rewrite find_set. by destruct (String.eqb k key). Qed.

Lemma elem_of_assign_all f (input : list (string * value)) : forall output key x,
  (key, x) ∈ assign_all f output input ->
  (key, x) ∈ output \/ exists v, (key, v) ∈ input /\ x = f key v.
Proof.
  induction input as [|[k v] input IH]; intros output key x; simpl.
  - by left.
  - intros Hin. apply IH in Hin as [Hin|(v' & Hin & ->)].
    + apply elem_of_set in Hin as [?|[-> ->]]; [by left|].
      right. exists v. split; [apply elem_of_cons; by left|done].
    + right. exists v'. split; [apply elem_of_cons; by right|done].
Qed.

Lemma find_assign_all f (input : list (string * value)) : forall output key,
  find (assign_all f output input) key
  = match find input key with
    | Some v => Some (f key v)
    | None => find output key
    end.
Proof.
  induction input as [|[k v] input IH]; intros output key; [done|].
  simpl. rewrite IH, find_cons, find_set.
  destruct (find input key); [done|].
  by destruct (String.eqb_spec k key) as [->|].
Qed.

End JsFacts.

(** ** JSON: parsing what was serialised *)

Module JSONSpec.
Import Js JsFacts JSON.

Lemma app_cons c s t : String c s +:+ t = String c (s +:+ t).
Proof. reflexivity. Qed.

Lemma app_nil_l s : "" +:+ s = s.
Proof. reflexivity. Qed.

Lemma app_assoc s1 s2 s3 : (s1 +:+ s2) +:+ s3 = s1 +:+ (s2 +:+ s3).
Proof. induction s1; rewrite ?app_nil_l, ?app_cons; congruence. Qed.

Lemma app_nil_r s : s +:+ "" = s.
Proof. induction s; rewrite ?app_nil_l, ?app_cons; congruence. Qed.

Lemma length_app s1 s2 :
  String.length (s1 +:+ s2) = String.length s1 + String.length s2.
Proof. induction s1; rewrite ?app_nil_l, ?app_cons; simpl; congruence. Qed.

Lemma all_ws_app a b : all_ws (a +:+ b) = all_ws a && all_ws b.
Proof.
  induction a; rewrite ?app_nil_l, ?app_cons; simpl; [done|].
  rewrite IHa. by rewrite andb_assoc.
Qed.

Lemma skip_ws_app pre s : all_ws pre = true -> skip_ws (pre +:+ s) = skip_ws s.
Proof.
  induction pre as [|c pre IH]; rewrite ?app_nil_l, ?app_cons; simpl; [done|].
  intros [Hc Hpre]%andb_true_iff. rewrite Hc. by apply IH.
Qed.

Lemma skip_ws_head c s : is_ws c = false -> skip_ws (String c s) = String c s.
Proof. intros Hc. simpl. by rewrite Hc. Qed.

(** *** Strings *)

Lemma parse_chars_quote_char c X :
  parse_chars (quote_char c +:+ X)
  = match parse_chars X with
    | Some (t, rest) => Some (String c t, rest)
    | None => None
    end.
Proof.
  destruct c as [b0 b1 b2 b3 b4 b5 b6 b7].
  destruct b0, b1, b2, b3, b4, b5, b6, b7; reflexivity.
Qed.

Lemma parse_chars_quote s rest :
  parse_chars (quote_chars s +:+ String dquote rest) = Some (s, rest).
Proof.
  induction s as [|c s IH]; [reflexivity|].
  change (quote_chars (String c s)) with (quote_char c +:+ quote_chars s).
  rewrite app_assoc, parse_chars_quote_char. by rewrite IH.
Qed.

Lemma parse_quote s rest :
  parse_chars ((quote_chars s +:+ String dquote EmptyString) +:+ rest) = Some (s, rest).
Proof. rewrite app_assoc. apply parse_chars_quote. Qed.

(** *** Numbers *)

Lemma all_digits_uint d : all_digits (DecimalString.NilEmpty.string_of_uint d) = true.
Proof. induction d; simpl; auto. Qed.

Lemma all_digits_uint0 d : all_digits (DecimalString.NilZero.string_of_uint d) = true.
Proof. destruct d; try apply all_digits_uint. reflexivity. Qed.

Lemma uint0_nonempty d : DecimalString.NilZero.string_of_uint d <> "".
Proof. by destruct d. Qed.

Lemma span_digits_app ds rest :
  all_digits ds = true ->
  match rest with String c _ => is_digit c = false | EmptyString => True end ->
  span_digits (ds +:+ rest) = (ds, rest).
Proof.
  intros Hds Hrest. induction ds as [|c ds IH]; rewrite ?app_nil_l, ?app_cons; simpl.
  - destruct rest as [|c rest]; [done|]. simpl. by rewrite Hrest.
  - simpl in Hds. apply andb_true_iff in Hds as [Hc Hds].
    rewrite Hc, IH by done. done.
Qed.

Lemma digit_not_minus c : is_digit c = true -> Ascii.eqb c "-" = false.
Proof.
  destruct c as [b0 b1 b2 b3 b4 b5 b6 b7].
  destruct b0, b1, b2, b3, b4, b5, b6, b7; try discriminate; reflexivity.
Qed.

Lemma ok_rest_number rest :
  ok_rest rest = true ->
  match rest with
  | String c _ => is_digit c = false /\ bool_decide (c ∈ list_ascii_of_string ".eE") = false
  | EmptyString => True
  end.
Proof.
  destruct rest as [|c rest]; [done|]. unfold ok_rest.
  destruct c as [b0 b1 b2 b3 b4 b5 b6 b7].
  destruct b0, b1, b2, b3, b4, b5, b6, b7; try discriminate; intros _; by vm_compute.
Qed.

Lemma to_int_proper n :
  Z.to_int n <> Decimal.Pos Decimal.Nil /\ Z.to_int n <> Decimal.Neg Decimal.Nil.
Proof.
  destruct n as [|p|p]; simpl; split; try discriminate;
    intros [= Hp]; by apply DecimalPos.Unsigned.to_uint_nonnil in Hp.
Qed.

Lemma parse_number_number n rest :
  ok_rest rest = true -> parse_number (number n +:+ rest) = Some (n, rest).
Proof.
  intros Hrest. apply ok_rest_number in Hrest.
  assert (DecimalString.NilZero.int_of_string (number n) = Some (Z.to_int n)) as Hparse.
  { destruct (to_int_proper n). by apply DecimalString.NilZero.isi. }
  assert (span_ok : forall d,
            span_digits (DecimalString.NilZero.string_of_uint d +:+ rest)
            = (DecimalString.NilZero.string_of_uint d, rest)).
  { intros d. apply span_digits_app; [apply all_digits_uint0|].
    destruct rest; [done|]. by destruct Hrest. }
  unfold parse_number, number in *.
  destruct (Z.to_int n) as [d|d] eqn:Hn; simpl DecimalString.NilZero.string_of_int in *.
  - pose proof (all_digits_uint0 d) as Hd. pose proof (uint0_nonempty d) as Hne.
    destruct (DecimalString.NilZero.string_of_uint d) as [|c ds] eqn:Hs; [done|].
    simpl in Hd. apply andb_true_iff in Hd as [Hc _].
    rewrite app_cons, (digit_not_minus c Hc), <- app_cons.
    rewrite <- Hs, span_ok, Hs, app_nil_l. rewrite Hparse.
    rewrite <- Hn, DecimalZ.of_to, Hn. simpl DecimalString.NilZero.string_of_int.
    rewrite Hs, String.eqb_refl. cbn [orb].
    destruct rest as [|c' rest]; [done|]. destruct Hrest as [_ Hr]. by rewrite Hr.
  - rewrite app_cons, Ascii.eqb_refl, span_ok.
    rewrite (app_cons "-" "" _), app_nil_l, Hparse.
    rewrite <- Hn, DecimalZ.of_to, Hn. simpl DecimalString.NilZero.string_of_int.
    rewrite String.eqb_refl. cbn [orb].
    destruct rest as [|c' rest]; [done|]. destruct Hrest as [_ Hr]. by rewrite Hr.
Qed.

(** *** Values *)

Lemma digit_start c : is_digit c = true -> value_start c = true.
Proof.
  destruct c as [b0 b1 b2 b3 b4 b5 b6 b7].
  destruct b0, b1, b2, b3, b4, b5, b6, b7; try discriminate; reflexivity.
Qed.

Lemma digit_dispatch c :
  is_digit c || Ascii.eqb c "-" = true ->
  Ascii.eqb c "n" = false /\ Ascii.eqb c "t" = false /\ Ascii.eqb c "f" = false
  /\ Ascii.eqb c dquote = false /\ Ascii.eqb c "[" = false /\ Ascii.eqb c "{" = false
  /\ is_ws c = false.
Proof.
  destruct c as [b0 b1 b2 b3 b4 b5 b6 b7].
  destruct b0, b1, b2, b3, b4, b5, b6, b7; try discriminate; intros _; by vm_compute.
Qed.

Lemma number_head n :
  exists c t, number n = String c t /\ is_digit c || Ascii.eqb c "-" = true.
Proof.
  unfold number. destruct (Z.to_int n) as [d|d]; simpl.
  - pose proof (all_digits_uint0 d) as Hd. pose proof (uint0_nonempty d) as Hne.
    destruct (DecimalString.NilZero.string_of_uint d) as [|c ds]; [done|].
    simpl in Hd. apply andb_true_iff in Hd as [Hc _].
    exists c, ds. by rewrite Hc.
  - by eexists _, _.
Qed.

Lemma wrap_eq open close gap stepback indent p partial :
  wrap open close gap stepback indent (p :: partial)
  = open +:+ (lead gap indent
              +:+ (join ("," +:+ lead gap indent) (p :: partial)
                   +:+ (lead gap stepback +:+ close))).
Proof.
  unfold wrap, lead. destruct (String.eqb gap "").
  - by rewrite ?app_nil_l, ?app_nil_r, ?app_assoc.
  - by rewrite ?app_assoc.
Qed.

Lemma serialize_head gap indent v :
  exists c t, serialize gap indent v = String c t /\ value_start c = true.
Proof.
  destruct v as [| |[|]|n|s|items|props]; simpl; try (by eexists _, _).
  - destruct (number_head n) as (c & t & -> & Hc). exists c, t. split; [done|].
    apply orb_true_iff in Hc as [Hc|Hc]; [by apply digit_start|].
    apply Ascii.eqb_eq in Hc as ->. reflexivity.
  - destruct (map _ items); [by eexists _, _|]. rewrite wrap_eq. by eexists _, _.
  - destruct (member_texts _ _ props); [by eexists _, _|]. rewrite wrap_eq. by eexists _, _.
Qed.

Lemma value_start_ws c : value_start c = true -> is_ws c = false.
Proof. unfold value_start. by destruct (is_ws c). Qed.

Lemma parse_value_S fuel s :
  parse_value (S fuel) s
  = match skip_ws s with
    | EmptyString => None
    | String c r =>
        if Ascii.eqb c "n" then
          rest ← JsString.strip_prefix "ull" r; Some (Null, rest)
        else if Ascii.eqb c "t" then
          rest ← JsString.strip_prefix "rue" r; Some (Bool true, rest)
        else if Ascii.eqb c "f" then
          rest ← JsString.strip_prefix "alse" r; Some (Bool false, rest)
        else if Ascii.eqb c dquote then
          '(str, rest) ← parse_chars r; Some (Str str, rest)
        else if Ascii.eqb c "[" then
          match skip_ws r with
          | String d rest =>
              if Ascii.eqb d "]" then Some (Arr [], rest)
              else '(items, rest) ← parse_elements fuel r; Some (Arr items, rest)
          | EmptyString => None
          end
        else if Ascii.eqb c "{" then
          match skip_ws r with
          | String d rest =>
              if Ascii.eqb d "}" then Some (Obj [], rest)
              else '(props, rest) ← parse_members fuel [] r; Some (Obj props, rest)
          | EmptyString => None
          end
        else
          '(n, rest) ← parse_number (String c r); Some (Num n, rest)
    end.
Proof. reflexivity. Qed.

Lemma parse_elements_S fuel s :
  parse_elements (S fuel) s
  = '(v, rest) ← parse_value fuel s;
    match skip_ws rest with
    | String "," rest' =>
        '(vs, rest'') ← parse_elements fuel rest'; Some (v :: vs, rest'')
    | String "]" rest' => Some ([v], rest')
    | _ => None
    end.
Proof. reflexivity. Qed.

Lemma parse_members_S fuel acc s :
  parse_members (S fuel) acc s
  = match skip_ws s with
    | String c r =>
        if Ascii.eqb c dquote then
          '(key, rest) ← parse_chars r;
          match skip_ws rest with
          | String ":" rest' =>
              '(v, rest'') ← parse_value fuel rest';
              let acc := set acc key v in
              match skip_ws rest'' with
              | String "," rest3 => parse_members fuel acc rest3
              | String "}" rest3 => Some (acc, rest3)
              | _ => None
              end
          | _ => None
          end
        else None
    | EmptyString => None
    end.
Proof. reflexivity. Qed.

Lemma ok_rest_close trail c rest :
  all_ws trail = true -> bool_decide (c ∈ list_ascii_of_string ",]}") = true ->
  ok_rest (trail +:+ String c rest) = true.
Proof.
  intros Htrail Hc. destruct trail as [|d trail]; rewrite ?app_nil_l, ?app_cons; unfold ok_rest.
  - rewrite Hc. by rewrite orb_true_r.
  - simpl in Htrail. apply andb_true_iff in Htrail as [-> _]. done.
Qed.

Lemma parse_elements_spec gap indent lead trail items :
  all_ws indent = true -> all_ws lead = true -> all_ws trail = true ->
  Forall (parses gap) items -> items <> [] ->
  forall fuel rest,
    String.length (join ("," +:+ lead) (map (serialize gap indent) items)) + 2 <= fuel ->
    parse_elements fuel
      (lead +:+ (join ("," +:+ lead) (map (serialize gap indent) items)
                 +:+ (trail +:+ String "]" rest)))
    = Some (map normal items, rest).
Proof.
  intros Hindent Hlead Htrail Hall. induction Hall as [|v items Hv _ IH]; [done|].
  intros _ [|fuel] rest Hfuel; [lia|]. rewrite parse_elements_S.
  destruct items as [|v2 items].
  - simpl map. simpl join. simpl join in Hfuel.
    rewrite Hv; [|done|done|by apply ok_rest_close|lia]. simpl.
    rewrite skip_ws_app by done. simpl. done.
  - change (map (serialize gap indent) (v :: v2 :: items))
      with (serialize gap indent v :: map (serialize gap indent) (v2 :: items)) in *.
    remember (map (serialize gap indent) (v2 :: items)) as parts eqn:Hparts.
    assert (join ("," +:+ lead) (serialize gap indent v :: parts)
            = serialize gap indent v +:+ (("," +:+ lead) +:+ join ("," +:+ lead) parts)) as Hjoin.
    { rewrite Hparts. reflexivity. }
    rewrite Hjoin in *. rewrite !length_app in Hfuel.
    rewrite !app_assoc, (app_cons "," ""), app_nil_l.
    rewrite Hv; [|done|done|done|lia]. simpl.
    rewrite (IH ltac:(done) fuel rest).
    + done.
    + simpl in Hfuel. lia.
Qed.

Lemma normal_members_undefined ser colon norm props : forall acc,
  member_texts ser colon props = [] -> normal_members norm acc props = acc.
Proof.
  induction props as [|[key v] props IH]; intros acc; simpl; [done|].
  destruct (is_undefined v); [apply IH|done].
Qed.

Lemma quote_app key X :
  quote key +:+ X = String dquote ((quote_chars key +:+ String dquote EmptyString) +:+ X).
Proof. unfold quote. by rewrite app_cons. Qed.

Lemma parse_members_spec gap indent lead trail sp props :
  all_ws indent = true -> all_ws lead = true -> all_ws trail = true -> all_ws sp = true ->
  Forall (fun kv => parses gap kv.2) props ->
  forall fuel acc rest,
    member_texts (serialize gap indent) (String ":" sp) props <> [] ->
    String.length (join ("," +:+ lead)
                     (member_texts (serialize gap indent) (String ":" sp) props)) + 2
      <= fuel ->
    parse_members fuel acc
      (lead +:+ (join ("," +:+ lead)
                   (member_texts (serialize gap indent) (String ":" sp) props)
                 +:+ (trail +:+ String "}" rest)))
    = Some (normal_members normal acc props, rest).
Proof.
  intros Hindent Hlead Htrail Hsp Hall.
  induction Hall as [|[key v] props Hv _ IH]; intros fuel acc rest Hne Hfuel; [done|].
  simpl in Hv, Hne, Hfuel |- *.
  destruct (is_undefined v) eqn:Hu; [by apply IH|].
  destruct fuel as [|fuel]; [lia|]. rewrite parse_members_S.
  set (ser := serialize gap indent) in *.
  assert (forall X, skip_ws (lead +:+ ((quote key +:+ (String ":" sp +:+ ser v)) +:+ X))
            = String dquote (quote_chars key
                             +:+ String dquote (String ":" (sp +:+ (ser v +:+ X))))) as Hskip.
  { intros X. rewrite skip_ws_app by done. unfold quote.
    rewrite !app_cons, !app_assoc, !app_cons, app_nil_l, !app_assoc.
    by apply skip_ws_head. }
  subst ser.
  destruct (member_texts _ (String ":" sp) props) as [|t texts] eqn:Htexts.
  - simpl join. simpl join in Hfuel. rewrite Hskip. rewrite Ascii.eqb_refl.
    rewrite parse_chars_quote. simpl.
    rewrite !length_app in Hfuel. simpl in Hfuel.
    rewrite Hv; [|done|done|by apply ok_rest_close|lia]. simpl.
    rewrite skip_ws_app by done. simpl.
    by rewrite (normal_members_undefined _ _ _ _ _ Htexts).
  - assert (join ("," +:+ lead)
              ((quote key +:+ (String ":" sp +:+ serialize gap indent v)) :: t :: texts)
            = (quote key +:+ (String ":" sp +:+ serialize gap indent v))
              +:+ (("," +:+ lead) +:+ join ("," +:+ lead) (t :: texts))) as Hjoin
      by reflexivity.
    rewrite Hjoin in *. rewrite !length_app in Hfuel.
    rewrite (app_assoc _ _ (trail +:+ _)). rewrite Hskip. rewrite Ascii.eqb_refl.
    rewrite parse_chars_quote. simpl.
    rewrite !app_assoc, (app_cons "," ""), app_nil_l.
    rewrite Hv; [|done|done|done|simpl in Hfuel; lia]. simpl.
    apply IH; [done|]. change (String.length ",") with 1 in Hfuel. lia.
Qed.

Lemma all_ws_lead gap indent :
  all_ws gap = true -> all_ws indent = true -> all_ws (lead gap indent) = true.
Proof.
  intros Hgap Hindent. unfold lead. destruct (String.eqb gap ""); [done|].
  by rewrite all_ws_app, Hindent.
Qed.

Lemma join_head sep p parts X :
  exists Y, join sep (p :: parts) +:+ X = p +:+ Y.
Proof.
  destruct parts as [|q parts]; [by exists X|].
  exists (sep +:+ (join sep (q :: parts) +:+ X)).
  change (join sep (p :: q :: parts)) with (p +:+ (sep +:+ join sep (q :: parts))).
  by rewrite !app_assoc.
Qed.

Lemma skip_to_first lead c t sep parts X :
  all_ws lead = true -> is_ws c = false ->
  exists t', skip_ws (lead +:+ (join sep (String c t :: parts) +:+ X)) = String c t'.
Proof.
  intros Hlead Hc. destruct (join_head sep (String c t) parts X) as (Y & ->).
  exists (t +:+ Y). rewrite skip_ws_app by done. rewrite app_cons. by apply skip_ws_head.
Qed.

Lemma member_texts_head ser colon props m ms :
  member_texts ser colon props = m :: ms -> exists t, m = String dquote t.
Proof.
  induction props as [|[key v] props IH]; simpl; [done|].
  destruct (is_undefined v); [done|]. intros [= <- _]. unfold quote.
  rewrite app_cons. by eexists.
Qed.

(** Every value parses from its text. *)
Lemma parse_serialize gap v : all_ws gap = true -> parses gap v.
Proof.
  intros Hgap. induction v as [| |b|n|s|items IH|props IH] using value_ind';
    intros indent pre [|fuel] rest Hindent Hpre Hrest Hfuel; try (simpl in Hfuel; lia);
    rewrite parse_value_S, skip_ws_app by done.
  - reflexivity.
  - reflexivity.
  - by destruct b.
  - simpl serialize.
    destruct (number_head n) as (c & t & Hn & Hc).
    destruct (digit_dispatch c Hc) as (H1 & H2 & H3 & H4 & H5 & H6 & H7).
    rewrite Hn, app_cons, skip_ws_head by done.
    rewrite H1, H2, H3, H4, H5, H6. rewrite <- app_cons, <- Hn.
    by rewrite parse_number_number.
  - simpl serialize. rewrite quote_app. rewrite skip_ws_head by done.
    change (Ascii.eqb dquote "n") with false. change (Ascii.eqb dquote "t") with false.
    change (Ascii.eqb dquote "f") with false. rewrite Ascii.eqb_refl.
    by rewrite parse_quote.
  - simpl serialize. simpl serialize in Hfuel.
    destruct items as [|v items]; [reflexivity|].
    assert (all_ws (indent +:+ gap) = true) as Hindent'
      by (by rewrite all_ws_app, Hindent, Hgap).
    pose proof (all_ws_lead gap _ Hgap Hindent') as Hl1.
    pose proof (all_ws_lead gap _ Hgap Hindent) as Hl2.
    change (map ?f (v :: items)) with (f v :: map f items) in *.
    rewrite wrap_eq in *. rewrite !length_app in Hfuel.
    rewrite !app_assoc, (app_cons "[" ""), app_nil_l.
    rewrite skip_ws_head by done.
    change (Ascii.eqb "[" "n") with false. change (Ascii.eqb "[" "t") with false.
    change (Ascii.eqb "[" "f") with false. change (Ascii.eqb "[" dquote) with false.
    rewrite Ascii.eqb_refl.
    destruct (serialize_head gap (indent +:+ gap) v) as (c & t & Hhead & Hc).
    pose proof Hc as Hc'. unfold value_start in Hc'.
    apply andb_true_iff in Hc' as [[Hws Hcb]%andb_true_iff Hcc].
    apply negb_true_iff in Hws, Hcb, Hcc.
    rewrite Hhead.
    edestruct (skip_to_first (lead gap (indent +:+ gap)) c t) as (t' & ->); [done|done|].
    rewrite Hcb, <- Hhead.
    rewrite (app_cons "]" ""), app_nil_l.
    change (serialize gap (indent +:+ gap) v :: map (serialize gap (indent +:+ gap)) items)
      with (map (serialize gap (indent +:+ gap)) (v :: items)) in *.
    rewrite parse_elements_spec; [done|done|done|done|done|done|].
    change (String.length "[") with 1 in Hfuel.
    change (String.length "]") with 1 in Hfuel. lia.
  - simpl serialize. simpl serialize in Hfuel.
    assert (all_ws (indent +:+ gap) = true) as Hindent'
      by (by rewrite all_ws_app, Hindent, Hgap).
    pose proof (all_ws_lead gap _ Hgap Hindent') as Hl1.
    pose proof (all_ws_lead gap _ Hgap Hindent) as Hl2.
    assert ((if String.eqb gap "" then ":" else ": ")
            = String ":" (if String.eqb gap "" then "" else " ")) as Hcolon
      by (by destruct (String.eqb gap "")).
    assert (all_ws (if String.eqb gap "" then "" else " ") = true) as Hsp
      by (by destruct (String.eqb gap "")).
    rewrite Hcolon in *.
    destruct (member_texts _ _ props) as [|m ms] eqn:Htexts.
    + simpl. by rewrite (normal_members_undefined _ _ _ _ _ Htexts).
    + rewrite wrap_eq in *. rewrite !length_app in Hfuel.
      rewrite !app_assoc, (app_cons "{" ""), app_nil_l.
      rewrite skip_ws_head by done.
      change (Ascii.eqb "{" "n") with false. change (Ascii.eqb "{" "t") with false.
      change (Ascii.eqb "{" "f") with false. change (Ascii.eqb "{" dquote) with false.
      change (Ascii.eqb "{" "[") with false.
      rewrite Ascii.eqb_refl.
      destruct (member_texts_head _ _ _ _ _ Htexts) as (t & Hm).
      rewrite Hm.
      edestruct (skip_to_first (lead gap (indent +:+ gap)) dquote t) as (t' & ->); [done|done|].
      change (Ascii.eqb dquote "}") with false. cbv iota.
      rewrite <- Hm, <- Htexts.
      rewrite (app_cons "}" ""), app_nil_l.
      rewrite parse_members_spec; [done|done|done|done|done|done| |].
      * by rewrite Htexts.
      * rewrite Htexts. change (String.length "{") with 1 in Hfuel.
        change (String.length "}") with 1 in Hfuel. lia.
Qed.

(** [JSON.parse(JSON.stringify(v))] and [JSON.parse(JSON.stringify(v, null, 2))]
    are the normal form of [v]. *)
Lemma parse_stringify v text :
  stringify v = Some text \/ stringify_indented v = Some text ->
  parse text = Some (normal v).
Proof.
  assert (forall gap, all_ws gap = true ->
            parse (serialize gap "" v) = Some (normal v)) as Hparse.
  { intros gap Hgap. unfold parse.
    pose proof (parse_serialize gap v Hgap "" "" (S (String.length (serialize gap "" v))) ""
                  eq_refl eq_refl eq_refl) as Hp.
    rewrite app_nil_l, app_nil_r in Hp. rewrite Hp by lia. reflexivity. }
  unfold stringify, stringify_indented.
  destruct (is_undefined v); intros [[= <-]|[= <-]]; by apply Hparse.
Qed.

End JSONSpec.

(** ** The bounded ring *)

Module RingBufferSpec.
Import RingBuffer.

Section Ring.
Context {T : Type}.
Implicit Types (h : list (list T)) (r : ring) (its : list T).

Lemma push_items_length cap x its :
  (1 <= cap)%Z -> (Z.of_nat (length its) <= cap)%Z ->
  (Z.of_nat (length (push_items cap x its)) <= cap)%Z.
Proof.
  intros Hcap Hlen. unfold push_items.
  destruct (Z.leb_spec cap (Z.of_nat (length its))).
  - destruct its as [|y its]; simpl in *; rewrite ?length_app; simpl; lia.
  - rewrite length_app. simpl. lia.
Qed.

Lemma push_items_last_n cap x its :
  (1 <= cap)%Z -> (Z.of_nat (length its) <= cap)%Z ->
  push_items cap x its = last_n (Z.to_nat cap) (its ++ [x]).
Proof.
  intros Hcap Hlen. unfold push_items, last_n. rewrite length_app. simpl.
  destruct (Z.leb_spec cap (Z.of_nat (length its))).
  - assert (length its = Z.to_nat cap) as Hn by lia.
    replace (length its + 1 - Z.to_nat cap) with 1 by lia.
    destruct its as [|y its]; [simpl in *; lia|]. reflexivity.
  - replace (length its + 1 - Z.to_nat cap) with 0 by lia. reflexivity.
Qed.

Lemma last_n_length n its : length (last_n n its) = min (length its) n.
Proof. unfold last_n. rewrite length_drop. lia. Qed.

Lemma last_n_snoc n x its :
  1 <= n -> last_n n (last_n n its ++ [x]) = last_n n (its ++ [x]).
Proof.
  intros Hn. unfold last_n.
  rewrite !length_app, length_drop. simpl.
  destruct (decide (length its <= n)) as [Hle|Hgt].
  - replace (length its - n) with 0 by lia. simpl. f_equal. lia.
  - replace (length its - (length its - n) + 1 - n) with 1 by lia.
    replace (length its + 1 - n) with (length its - n + 1) by lia.
    rewrite (drop_app_le its [x]) by lia.
    rewrite (drop_app_le _ [x]) by (rewrite length_drop; lia).
    by rewrite drop_drop.
Qed.

Lemma step_inv cap r c its o :
  (1 <= cap)%Z -> capacity r = cap ->
  inv cap r c its -> inv cap r (step r c o) (model_step cap its o).
Proof.
  intros Hcap Hr [Hits Hgiven Hsize].
  assert (items r < length (heap c)) as Hlt by (eapply lookup_lt_Some; eauto).
  destruct o as [x| | |k a]; simpl.
  - split; simpl.
    + unfold push, contents. rewrite Hits. simpl. rewrite Hr.
      rewrite list_lookup_insert_eq by done.
      by rewrite push_items_last_n.
    + unfold push. rewrite length_insert. done.
    + rewrite <- push_items_last_n by done. by apply push_items_length.
  - split; simpl.
    + unfold clear. by rewrite list_lookup_insert_eq.
    + unfold clear. by rewrite length_insert.
    + simpl. lia.
  - split; simpl.
    + by rewrite lookup_app_l.
    + rewrite Forall_app. split.
      * eapply Forall_impl; [exact Hgiven|]. intros l [? ?]. rewrite length_app. split; [lia|done].
      * apply Forall_singleton. rewrite length_app. simpl. split; lia.
    + done.
  - destruct (given c !! k) as [l|] eqn:Hk; [|by split].
    split; simpl.
    + rewrite list_lookup_insert_ne; [done|].
      pose proof (Forall_lookup_1 _ _ _ _ Hgiven Hk) as [_ Hne]. congruence.
    + by rewrite length_insert.
    + done.
Qed.

Lemma run_inv cap r ops : forall c its,
  (1 <= cap)%Z -> capacity r = cap ->
  inv cap r c its -> inv cap r (run r c ops) (foldl (model_step cap) its ops).
Proof.
  induction ops as [|o ops IH]; intros c its Hcap Hr Hinv; [done|].
  simpl. apply IH; [done..|]. by apply step_inv.
Qed.

Lemma create_inv cap h :
  (1 <= cap)%Z ->
  capacity (createRingBuffer cap h).1 = cap
  /\ inv cap (createRingBuffer cap h).1 (Client (createRingBuffer cap h).2 []) [].
Proof.
  intros Hcap. split; [done|]. split; simpl.
  - by rewrite lookup_app_r, Nat.sub_diag.
  - constructor.
  - lia.
Qed.

Lemma last_n_absorb n its (S : list T) :
  last_n n (last_n n its ++ S) = last_n n (its ++ S).
Proof.
  unfold last_n. rewrite !length_app, length_drop.
  rewrite !drop_app, drop_drop, length_drop. f_equal; f_equal; lia.
Qed.

Lemma pushes_model cap (S : list T) : forall its,
  length its <= Z.to_nat cap ->
  foldl (model_step cap) its (Push <$> S) = last_n (Z.to_nat cap) (its ++ S).
Proof.
  induction S as [|x S IH]; intros its Hlen; simpl.
  - rewrite app_nil_r. unfold last_n. by replace (length its - Z.to_nat cap) with 0 by lia.
  - rewrite IH by (rewrite last_n_length; lia).
    rewrite last_n_absorb. by rewrite <- app_assoc.
Qed.

Lemma push_all_run r (S : list T) : forall h g,
  heap (run r (Client h g) (Push <$> S)) = push_all r S h.
Proof.
  induction S as [|x S IH]; intros h g; [done|]. simpl. apply IH.
Qed.

Lemma last_n_min (S : list T) n : last_n (min (length S) n) S = last_n n S.
Proof. unfold last_n. f_equal. lia. Qed.

(** C3.  For every capacity N >= 1 and every sequence S pushed into a new
    ring buffer of capacity N: [toArray] returns a fresh array (an address
    the store did not hold, different from the private array, and no other
    array changes) whose elements are the last min(|S|, N) elements of S in
    insertion order; and after every sequence of operations (pushes, clears,
    [toArray] calls and writes of the client to the arrays it was handed)
    the size is at most the capacity, the contents being the last N
    elements pushed since the last [clear]. *)
Theorem C3_ring_keeps_last_elements (N : Z) (h0 : list (list T)) (S : list T) :
  (1 <= N)%Z ->
  let r := (createRingBuffer N h0).1 in
  let h1 := (createRingBuffer N h0).2 in
  let h2 := push_all r S h1 in
  let l := (toArray r h2).1 in
  let h3 := (toArray r h2).2 in
  (h3 !! l = Some (last_n (min (length S) (Z.to_nat N)) S)
   /\ h2 !! l = None /\ l <> items r
   /\ (forall l', l' < length h2 -> h3 !! l' = h2 !! l'))
  /\ (forall ops : list (op T),
        let c := run r (Client h1 []) ops in
        (size r (heap c) <= capacity r)%Z
        /\ contents r (heap c) = foldl (model_step N) [] ops).
Proof.
  intros HN r h1 h2 l h3.
  pose proof (create_inv N h0 HN) as [Hcap Hinv]. fold r h1 in Hcap, Hinv.
  clearbody r h1.
  assert (forall ops, inv N r (run r (Client h1 []) ops) (foldl (model_step N) [] ops))
    as Hrun by (intros ops; apply run_inv; [exact HN|exact Hcap|exact Hinv]).
  split.
  - pose proof (Hrun (Push <$> S)) as [Hits _ _].
    rewrite push_all_run in Hits. fold h2 in Hits.
    rewrite pushes_model in Hits by (simpl; lia). simpl in Hits.
    assert (items r < length h2) by (eapply lookup_lt_Some; eauto).
    subst l h3. unfold toArray, contents. simpl. rewrite Hits. simpl.
    rewrite last_n_min. repeat split.
    + by rewrite lookup_app_r, Nat.sub_diag.
    + by apply lookup_ge_None.
    + lia.
    + intros l' Hl'. by rewrite lookup_app_l.
  - intros ops c. destruct (Hrun ops) as [Hits _ Hsize]. fold c in Hits.
    unfold size, contents. rewrite Hits. simpl. rewrite Hcap. done.
Qed.

End Ring.

(** The theorem at capacity 2 and the pushes 1, 2, 3. *)
Lemma C3_ring_keeps_last_elements_witness :
  (1 <= 2)%Z /\
  let r := (createRingBuffer (T:=nat) 2 []).1 in
  let h2 := push_all r [1; 2; 3] (createRingBuffer 2 []).2 in
  (toArray r h2).2 !! (toArray r h2).1 = Some [2; 3].
Proof.
  split; [lia|].
  exact (proj1 (proj1 (C3_ring_keeps_last_elements 2 [] [1; 2; 3] ltac:(lia)))).
Defined.

End RingBufferSpec.

(** ** The redactor *)

Module RedactorSpec.
Import JsString Js JsFacts Redactor.

Lemma redacts_same_key sf key k v :
  toLowerCase k ∈ sf -> k <> "" -> same_key key k ->
  redacts sf (Some key) v = negb (is_undefined v).
Proof.
  intros Hk Hne Hsame. unfold redacts.
  assert (key <> "") as Hkey.
  { intros ->. symmetry in Hsame. by apply toLowerCase_nonempty in Hsame. }
  apply String.eqb_neq in Hkey. rewrite Hkey. simpl.
  rewrite Hsame. by rewrite bool_decide_eq_true_2.
Qed.

Lemma deepClone_undefined sf key : deepCloneAndRedact sf key Undefined = Undefined.
Proof.
  simpl. destruct key as [key|]; simpl; [|done].
  by rewrite andb_false_r.
Qed.

Lemma deepClone_eq sf key v :
  deepCloneAndRedact sf key v
  = if redacts sf key v then Str REDACTED
    else match v with
         | Arr items => Arr (map (deepCloneAndRedact sf None) items)
         | Obj input =>
             Obj (assign_all (fun key v => deepCloneAndRedact sf (Some key) v) [] input)
         | _ => v
         end.
Proof. by destruct v. Qed.

(** Whatever the clone stores under a sensitive key is the marker, or an
    [undefined] that it left alone. *)
Lemma deepClone_stored_under sf k :
  toLowerCase k ∈ sf -> k <> "" ->
  forall v key x,
    stored_under k (deepCloneAndRedact sf key v) x -> x = Str REDACTED \/ x = Undefined.
Proof.
  intros Hk Hne v. induction v as [| |b|n|s|items IH|props IH] using value_ind';
    intros key x; simpl; destruct (redacts sf key _); try (by inversion 1).
  - inversion 1 as [| |items' v x' Hin Hsub]; subst.
    apply list_elem_of_fmap in Hin as (item & -> & Hitem).
    rewrite Forall_forall in IH. eapply IH; eauto.
  - inversion 1 as [props' key' x' Hin Hsame|props' key' v x' Hin Hsub|]; subst.
    + apply elem_of_assign_all in Hin as [Hin|(v & Hin & ->)]; [by inversion Hin|].
      rewrite deepClone_eq, (redacts_same_key sf key' k) by done.
      destruct v; simpl; auto.
    + apply elem_of_assign_all in Hin as [Hin|(v' & Hin & ->)]; [by inversion Hin|].
      rewrite Forall_forall in IH. eapply (IH (key', v')); eauto.
Qed.

Lemma stored_under_set k (o : list (string * value)) key0 v0 x :
  stored_under k (Obj (set o key0 v0)) x ->
  stored_under k (Obj o) x \/ (same_key key0 k /\ x = v0) \/ stored_under k v0 x.
Proof.
  inversion 1 as [props key y Hin Hsame|props key v y Hin Hsub|]; subst.
  - apply elem_of_set in Hin as [Hin|[-> ->]]; [left|right; left]; eauto using stored_under.
  - apply elem_of_set in Hin as [Hin|[-> ->]]; [left|right; right]; eauto using stored_under.
Qed.

Lemma stored_under_set_str k (o : list (string * value)) key0 s x :
  stored_under k (Obj (set o key0 (Str s))) x ->
  stored_under k (Obj o) x \/ (same_key key0 k /\ x = Str s).
Proof.
  intros [?|[?|Hsub]]%stored_under_set; [by left|by right|inversion Hsub].
Qed.

Section WithPlatform.
Context `{Platform}.

Lemma redactObject_eq config obj :
  redactObject config obj
  = assign_all (fun key v => deepCloneAndRedact (sensitiveFieldsOf config) (Some key) v) [] obj.
Proof. done. Qed.

Lemma redactObject_stored_under config k obj x :
  k ∈ fields config -> k <> "" ->
  stored_under k (Obj (redactObject config obj)) x -> x = Str REDACTED \/ x = Undefined.
Proof.
  intros Hk Hne. apply (deepClone_stored_under _ k) with (v := Obj obj) (key := None); [|done].
  unfold sensitiveFieldsOf. apply elem_of_list_to_set, list_elem_of_fmap. eauto.
Qed.

Lemma redactStorage_stored_under config k p x :
  stored_under k (Obj (redactStorage config p)) x ->
  stored_under k (Obj p) x \/ x = Str REDACTED.
Proof.
  unfold redactStorage.
  destruct (get p "key"); try (by left).
  destruct (bool_decide _); [|by left].
  destruct (has p "value"), (has _ "previousValue"); intros Hs;
    repeat (apply stored_under_set_str in Hs as [Hs|[_ ->]]; [|by right]); by left.
Qed.

Lemma redactNetwork_stored_under config k p x :
  stored_under k (Obj (redactNetwork config p)) x ->
  stored_under k (Obj p) x
  \/ (x = Str REDACTED_ENDPOINT
      /\ (same_key "requestBody" k \/ same_key "responseBody" k)).
Proof.
  unfold redactNetwork.
  destruct (get p "url"); try (by left).
  destruct (isRedactedUrl _ _); [|by left].
  intros [Hs|[? ->]]%stored_under_set_str; [|right; auto].
  apply stored_under_set_str in Hs as [Hs|[? ->]]; [by left|right; auto].
Qed.

(** The redacted payload, key by key. *)
Lemma redactEvent_stored_under config e k x :
  k ∈ fields config -> k <> "" ->
  stored_under k (Obj (payload (redactEvent config e))) x ->
  x = Str REDACTED \/ x = Undefined
  \/ (x = Str REDACTED_ENDPOINT /\ source e = BrowserNetwork
      /\ (same_key "requestBody" k \/ same_key "responseBody" k)).
Proof.
  intros Hk Hne. unfold redactEvent. simpl.
  destruct (decide (source e = BrowserNetwork)) as [Hnet|Hnet];
    destruct (decide (source e = BrowserStorage)) as [Hsto|Hsto];
    try congruence; intros Hs.
  - apply redactNetwork_stored_under in Hs as [Hs|[-> ?]]; [|by auto].
    apply redactObject_stored_under in Hs as [->| ->]; auto.
  - apply redactStorage_stored_under in Hs as [Hs| ->]; [|by auto].
    apply redactObject_stored_under in Hs as [->| ->]; auto.
  - apply redactObject_stored_under in Hs as [->| ->]; auto.
Qed.

Lemma get_redactObject config obj key :
  get (redactObject config obj) key
  = match find obj key with
    | Some v => deepCloneAndRedact (sensitiveFieldsOf config) (Some key) v
    | None => Undefined
    end.
Proof.
  unfold get. rewrite redactObject_eq, find_assign_all. by destruct (find obj key).
Qed.

(** C2, as amended.  For every event with source browser:network whose
    payload.url is a string that the matchers built from the configured
    redact urlPatterns accept (the URL stripped to pathname + search, or the
    raw string when it does not parse), and provided [url] is not itself a
    redact field: the redacted event has payload.requestBody and
    payload.responseBody equal to "[REDACTED - sensitive endpoint]" and
    payload.url unchanged. *)
Theorem C2_sensitive_endpoint_bodies config e url :
  source e = BrowserNetwork ->
  get (payload e) "url" = Str url ->
  isRedactedUrl config url = true ->
  (forall k, k ∈ fields config -> ~ same_key "url" k) ->
  let redacted := redactEvent config e in
  get (payload redacted) "requestBody" = Str REDACTED_ENDPOINT
  /\ get (payload redacted) "responseBody" = Str REDACTED_ENDPOINT
  /\ get (payload redacted) "url" = Str url.
Proof.
  intros Hsrc Hurl Hmatch Hfield redacted. subst redacted.
  unfold redactEvent. simpl. rewrite Hsrc.
  destruct (decide (BrowserNetwork = BrowserNetwork)); [|done].
  destruct (decide (BrowserNetwork = BrowserStorage)); [done|].
  assert (get (redactObject config (payload e)) "url" = Str url) as Hurl'.
  { rewrite get_redactObject. unfold get in Hurl.
    destruct (find (payload e) "url") as [v|]; [|done]. simpl in Hurl. subst v.
    simpl. rewrite bool_decide_eq_false_2; [done|].
    unfold sensitiveFieldsOf. rewrite elem_of_list_to_set, list_elem_of_fmap.
    intros (k & Hk & Hin). by apply (Hfield k). }
  unfold redactNetwork. rewrite Hurl', Hmatch.
  rewrite !get_set. simpl. done.
Qed.

End WithPlatform.

(** The theorem at a login request, with the default redact fields. *)
Lemma C2_sensitive_endpoint_bodies_witness :
  let config := {| fields := ["password"; "token"]; urlPatterns := ["/api/**"] |} in
  let e := {| id := "evt_1_001"; ts := 1; source := BrowserNetwork; level := Info;
              payload := [("url", Str "http://localhost:3000/api/login");
                          ("requestBody", Obj [("password", Str "s")])] |} in
  get (payload (redactEvent (H:=SamplePlatform.platform) config e)) "requestBody"
    = Str REDACTED_ENDPOINT
  /\ get (payload (redactEvent (H:=SamplePlatform.platform) config e)) "responseBody"
    = Str REDACTED_ENDPOINT
  /\ get (payload (redactEvent (H:=SamplePlatform.platform) config e)) "url"
    = Str "http://localhost:3000/api/login".
Proof.
  intros config e.
  apply (C2_sensitive_endpoint_bodies (H:=SamplePlatform.platform) config e
           "http://localhost:3000/api/login").
  - reflexivity.
  - reflexivity.
  - vm_compute. reflexivity.
  - intros k Hk Hsame. unfold same_key in Hsame.
    apply list_elem_of_In in Hk. simpl in Hk.
    destruct Hk as [<-|[<-|[]]]; vm_compute in Hsame; discriminate.
Defined.

(** C2 as stated fails when [url] is a redact field: the url is replaced
    before the patterns are tried, and the bodies are left as they are. *)
Lemma C2_counterexample_url_field :
  ~ matching_url_hides_bodies (H:=SamplePlatform.platform).
Proof.
  intros Hclaim.
  destruct (Hclaim {| fields := ["url"]; urlPatterns := ["/api/**"] |}
              {| id := "evt_1_001"; ts := 1; source := BrowserNetwork; level := Info;
                 payload := [("url", Str "/api/login"); ("requestBody", Str "secret")] |}
              "/api/login" eq_refl eq_refl eq_refl) as (Hbody & _).
  vm_compute in Hbody. discriminate.
Qed.

End RedactorSpec.

(** ** The redactor on a store *)

Module RedactorHeapSpec.
Import JsString Js JsFacts RedactorHeap.

Implicit Types (h : list cell) (P Q : nat -> Prop) (r : ref_value) (v : value).

Lemma Forall2_Forall_r {A B} (R R' : A -> B -> Prop) (G : B -> Prop) l k :
  Forall2 R l k -> Forall G k -> (forall a b, R a b -> G b -> R' a b) ->
  Forall2 R' l k.
Proof.
  intros Hall. induction Hall; inversion 1; subst; constructor; eauto.
Qed.

Lemma repr_in_mono v : forall P Q h h' r,
  repr_in P h r v -> (forall l, P l -> Q l) -> agree P h h' -> repr_in Q h' r v.
Proof.
  induction v as [| |b|n|s|items IH|props IH] using value_ind';
    intros P Q h h' r Hr HPQ Hag; inversion Hr; subst; try constructor.
  - econstructor; [by apply HPQ|by rewrite Hag|].
    eapply Forall2_Forall_r; [eassumption|exact IH|]. simpl. eauto.
  - econstructor; [by apply HPQ|by rewrite Hag|].
    eapply Forall2_Forall_r; [eassumption|exact IH|]. simpl.
    intros a b [Hk Hv] Hb. split; [done|]. eauto.
Qed.

Lemma prop_rel_mono P Q h h' props ps :
  Forall2 (prop_rel P h) props ps -> (forall l, P l -> Q l) -> agree P h h' ->
  Forall2 (prop_rel Q h') props ps.
Proof.
  intros Hall HPQ Hag. eapply Forall2_impl; [exact Hall|].
  intros a b [Hk Hv]. split; [done|]. eapply repr_in_mono; eauto.
Qed.

Lemma repr_is_undefined P h r v :
  repr_in P h r v -> is_undefined r = Js.is_undefined v.
Proof. by inversion 1. Qed.

Lemma repr_redacts P h sf key r v :
  repr_in P h r v -> redacts sf key r = Redactor.redacts sf key v.
Proof.
  intros Hr. unfold redacts, Redactor.redacts.
  by rewrite (repr_is_undefined _ _ _ _ Hr).
Qed.

Lemma prop_rel_find P h props ps key :
  Forall2 (prop_rel P h) props ps ->
  option_Forall2 (repr_in P h) (find props key) (find ps key).
Proof.
  induction 1 as [|[k r] [k' v] props ps [Hk Hv] Hall IH]; [constructor|].
  simpl in Hk. subst k'. rewrite !find_cons.
  destruct IH; [by constructor|].
  destruct (String.eqb k key); by constructor.
Qed.

Lemma prop_rel_has P h props ps key :
  Forall2 (prop_rel P h) props ps -> has props key = has ps key.
Proof.
  intros Hall. unfold has. by destruct (prop_rel_find _ _ _ _ key Hall).
Qed.

Lemma prop_rel_set P h props ps key r v :
  Forall2 (prop_rel P h) props ps -> repr_in P h r v ->
  Forall2 (prop_rel P h) (set props key r) (set ps key v).
Proof.
  intros Hall Hr.
  induction Hall as [|[k r'] [k' v'] props ps [Hk Hv] Hall IH]; simpl.
  - by repeat constructor.
  - simpl in Hk. subst k'. rewrite (prop_rel_has _ _ _ _ key Hall).
    destruct (String.eqb k key).
    + constructor; [done|]. by destruct (has ps key).
    + by constructor.
Qed.

Lemma depth_item v (items : list value) :
  v ∈ items -> depth v <= foldr (fun item n => max (depth item) n) 0 items.
Proof.
  induction 1; simpl; lia.
Qed.

Lemma depth_prop (kv : string * value) (props : list (string * value)) :
  kv ∈ props -> depth kv.2 <= foldr (fun kv n => max (depth kv.2) n) 0 props.
Proof.
  induction 1; simpl; lia.
Qed.

Lemma obj_at_repr lo hi h l ps :
  obj_at lo hi h l ps -> repr_in (fun x => lo <= x < hi) h (Ref l) (Obj ps).
Proof.
  intros (props & Hl & Hcell & Hall). econstructor; [done|done|].
  eapply prop_rel_mono; [exact Hall| |done]. simpl. lia.
Qed.

Lemma obj_at_read lo hi h l ps key :
  obj_at lo hi h l ps -> repr_in (fun x => l < x < hi) h (read h l key) (get ps key).
Proof.
  intros (props & Hl & Hcell & Hall). unfold read, get. rewrite Hcell.
  destruct (prop_rel_find _ _ _ _ key Hall); [done|constructor].
Qed.

Lemma obj_at_has lo hi h l ps key :
  obj_at lo hi h l ps -> has_prop h l key = has ps key.
Proof.
  intros (props & Hl & Hcell & Hall). unfold has_prop. rewrite Hcell.
  by apply prop_rel_has with (P := fun x => l < x < hi) (h := h).
Qed.

Lemma assign_length l key r h : length (assign l key r h) = length h.
Proof.
  unfold assign. destruct (h !! l) as [[|]|]; [done| |done]. by rewrite length_insert.
Qed.

Lemma assign_agree l key r h : agree (fun x => x <> l) h (assign l key r h).
Proof.
  intros x Hx. unfold assign. destruct (h !! l) as [[|]|]; [done| |done].
  by rewrite list_lookup_insert_ne.
Qed.

Lemma obj_at_assign lo hi h l ps key s :
  hi <= length h ->
  obj_at lo hi h l ps ->
  obj_at lo hi (assign l key (RStr s) h) l (set ps key (Str s)).
Proof.
  intros Hhi (props & Hl & Hcell & Hall).
  exists (set props key (RStr s)). split; [done|]. split.
  - unfold assign. rewrite Hcell. apply list_lookup_insert_eq. lia.
  - apply prop_rel_set; [|constructor].
    eapply prop_rel_mono; [exact Hall|done|].
    intros x Hx. apply assign_agree. lia.
Qed.

Lemma clone_items_spec rec (f : value -> value) P vs :
  Forall (fun v => forall r h, repr_in P h r v -> (forall l, P l -> l < length h) ->
                   clone_post h (rec r h) (f v)) vs ->
  forall items h, Forall2 (repr_in P h) items vs -> (forall l, P l -> l < length h) ->
  exists rs h', clone_items rec items h = Some (rs, h')
    /\ length h <= length h'
    /\ agree (fun l => l < length h) h h'
    /\ Forall2 (repr_in (fun l => length h <= l < length h') h') rs (f <$> vs).
Proof.
  induction 1 as [|v vs Hv _ IH]; intros items h Hitems HP; inversion Hitems; subst.
  - exists [], h. repeat split; [done|constructor].
  - match goal with Hx : repr_in P h ?x v |- _ => rename Hx into Hitem; rename x into item end.
    match goal with Hx : Forall2 _ ?l vs |- _ => rename Hx into Hrest; rename l into rest end.
    destruct (Hv item h Hitem HP) as (r1 & h1 & Hrec & Hlen1 & Hag1 & Hr1 & _).
    destruct (IH rest h1) as (rs & h2 & Hrest2 & Hlen2 & Hag2 & Hrs).
    { eapply Forall2_impl; [exact Hrest|]. intros a b Hab.
      eapply repr_in_mono; [exact Hab|done|]. intros l Hl. apply Hag1. by apply HP. }
    { intros l Hl. specialize (HP l Hl). lia. }
    exists (r1 :: rs), h2. simpl. rewrite Hrec. simpl. rewrite Hrest2. simpl.
    split; [done|]. split; [lia|]. split.
    { intros l Hl. rewrite Hag2 by lia. by apply Hag1. }
    constructor.
    + eapply repr_in_mono; [exact Hr1| |].
      * simpl. lia.
      * intros l Hl. apply Hag2. simpl in Hl. lia.
    + eapply Forall2_impl; [exact Hrs|]. intros a b Hab.
      eapply repr_in_mono; [exact Hab| |done]. simpl. lia.
Qed.

Lemma clone_props_spec rec (f : string -> value -> value) P lo ps :
  Forall (fun kv => forall key r h, repr_in P h r kv.2 -> (forall l, P l -> l < length h) ->
                    clone_post h (rec key r h) (f key kv.2)) ps ->
  forall input hc out_h out_p,
    Forall2 (prop_rel P hc) input ps -> (forall l, P l -> l < lo) -> lo < length hc ->
    hc !! lo = Some (ObjCell out_h) ->
    Forall2 (prop_rel (fun l => lo < l < length hc) hc) out_h out_p ->
    exists h' out_h', clone_props rec lo input hc = Some h'
      /\ length hc <= length h'
      /\ agree (fun l => l < lo) hc h'
      /\ h' !! lo = Some (ObjCell out_h')
      /\ Forall2 (prop_rel (fun l => lo < l < length h') h') out_h' (assign_all f out_p ps).
Proof.
  induction 1 as [|[k v] ps Hv _ IH]; intros input hc out_h out_p Hinput HP Hlo Hcell Hout.
  - apply Forall2_nil_inv_r in Hinput as ->.
    exists hc, out_h. repeat split; done.
  - apply Forall2_cons_inv_r in Hinput as ([k' nv] & rest & [Hk Hnv] & Hrest & ->).
    simpl in Hk, Hnv, Hv. subst k'.
    destruct (Hv k nv hc Hnv) as (r1 & h1 & Hrec & Hlen1 & Hag1 & Hr1 & _).
    { intros l Hl. specialize (HP l Hl). lia. }
    assert (h1 !! lo = Some (ObjCell out_h)) as Hcell1 by (rewrite Hag1; done).
    assert (assign lo k r1 h1 = <[lo := ObjCell (set out_h k r1)]> h1) as Hassign
      by (unfold assign; by rewrite Hcell1).
    destruct (IH rest (assign lo k r1 h1) (set out_h k r1) (set out_p k (f k v)))
      as (h' & out_h' & Hloop & Hlen' & Hag' & Hcell' & Hout').
    + eapply prop_rel_mono; [exact Hrest|done|].
      intros l Hl. specialize (HP l Hl). rewrite assign_agree by lia.
      apply Hag1. lia.
    + done.
    + rewrite assign_length. lia.
    + rewrite Hassign. apply list_lookup_insert_eq. lia.
    + rewrite assign_length. apply prop_rel_set.
      * eapply prop_rel_mono; [exact Hout| |].
        -- simpl. lia.
        -- intros l Hl. simpl in Hl. rewrite assign_agree by lia. apply Hag1. lia.
      * eapply repr_in_mono; [exact Hr1| |].
        -- simpl. lia.
        -- intros l Hl. simpl in Hl. apply assign_agree. lia.
    + exists h', out_h'. simpl. rewrite Hrec. simpl. rewrite Hloop.
      rewrite assign_length in Hlen'.
      split; [done|]. split; [lia|]. split; [|done].
      intros l Hl. rewrite Hag' by done. rewrite assign_agree by lia. apply Hag1. lia.
Qed.

(** The clone in the store computes the clone of the tree, in new cells, and
    leaves every cell of the store it was given as it was. *)
Lemma deepClone_spec sf v : forall fuel key P r h,
  depth v < fuel -> repr_in P h r v -> (forall l, P l -> l < length h) ->
  clone_post h (deepCloneAndRedact fuel sf key r h) (Redactor.deepCloneAndRedact sf key v).
Proof.
  induction v as [| |b|n|s|items IH|props IH] using value_ind';
    intros [|fuel] key P r h Hfuel Hr HP; try (simpl in Hfuel; lia);
    rewrite RedactorSpec.deepClone_eq; simpl;
    rewrite (repr_redacts _ _ sf key _ _ Hr);
    (destruct (Redactor.redacts sf key _);
     [exists (RStr Redactor.REDACTED), h;
      split; [done|]; split; [done|]; split; [done|]; split; [constructor|done]|]);
    inversion Hr; subst.
  1-5: eexists _, h; split; [done|]; split; [done|]; split; [done|];
       split; [constructor|done].
  - match goal with Hc : h !! _ = Some _ |- _ => rewrite Hc end.
    match goal with Hx : Forall2 _ ?its items |- _ => rename Hx into Hitems; rename its into ritems end.
    destruct (clone_items_spec (deepCloneAndRedact fuel sf None)
                (Redactor.deepCloneAndRedact sf None) P items) with (items := ritems) (h := h)
      as (rs & h' & Hloop & Hlen & Hag & Hrs); [|done|done|].
    { rewrite Forall_forall in IH. apply Forall_forall. intros v Hv r' h0 Hr' HP'.
      apply (IH v Hv fuel None P); [|done|done].
      pose proof (depth_item v items Hv). simpl in Hfuel. lia. }
    rewrite Hloop. simpl.
    eexists _, _. split; [done|]. rewrite length_app. simpl.
    split; [lia|]. split; [|split; [|done]].
    + intros x Hx. rewrite lookup_app_l by lia. by apply Hag.
    + econstructor; [simpl; lia|by rewrite lookup_app_r, Nat.sub_diag|].
      eapply Forall2_impl; [exact Hrs|]. intros a b Hab.
      eapply repr_in_mono; [exact Hab| |].
      * simpl. lia.
      * intros x Hx. simpl in Hx. apply lookup_app_l. lia.
  - match goal with Hc : h !! _ = Some _ |- _ => rewrite Hc end.
    match goal with Hx : Forall2 _ ?its props |- _ => rename Hx into Hprops; rename its into rprops end.
    destruct (clone_props_spec
                (fun key => deepCloneAndRedact fuel sf (Some key))
                (fun key v => Redactor.deepCloneAndRedact sf (Some key) v) P (length h) props)
      with (input := rprops) (hc := h ++ [ObjCell []]) (out_h := @nil (string * ref_value))
           (out_p := @nil (string * value))
      as (h' & out_h' & Hloop & Hlen & Hag & Hcell & Hout).
    { rewrite Forall_forall in IH. apply Forall_forall. intros kv Hkv key' r' h0 Hr' HP'.
      apply (IH kv Hkv fuel (Some key') P); [|done|done].
      pose proof (depth_prop kv props Hkv). simpl in Hfuel. lia. }
    { eapply prop_rel_mono; [exact Hprops|done|].
      intros x Hx. apply lookup_app_l. by apply HP. }
    { done. }
    { rewrite length_app. simpl. lia. }
    { by rewrite lookup_app_r, Nat.sub_diag. }
    { constructor. }
    rewrite Hloop. simpl. rewrite length_app in Hlen. simpl in Hlen.
    assert (obj_at (length h) (length h') h' (length h)
              (assign_all (fun key v => Redactor.deepCloneAndRedact sf (Some key) v) [] props))
      as Hobj by (exists out_h'; split; [lia|done]).
    eexists _, _. split; [done|]. split; [lia|]. split; [|split].
    + intros x Hx. rewrite Hag by done. by apply lookup_app_l.
    + by apply obj_at_repr.
    + intros ps [= <-]. by exists (length h).
Qed.

Section WithPlatform.
Context `{Platform}.

Lemma redactNetwork_spec config lo hi h l ps :
  hi <= length h -> obj_at lo hi h l ps ->
  obj_at lo hi (redactNetwork config l h) l (Redactor.redactNetwork config ps)
  /\ length (redactNetwork config l h) = length h
  /\ agree (fun x => x <> l) h (redactNetwork config l h).
Proof.
  intros Hhi Hobj. unfold redactNetwork, Redactor.redactNetwork.
  pose proof (obj_at_read _ _ _ _ _ "url" Hobj) as Hrd.
  inversion Hrd; try done.
  destruct (Redactor.isRedactedUrl config s); [|done].
  split; [|split].
  - apply obj_at_assign; [by rewrite assign_length|]. by apply obj_at_assign.
  - by rewrite !assign_length.
  - intros x Hx. by rewrite !assign_agree.
Qed.

Lemma redactStorage_spec config lo hi h l ps :
  hi <= length h -> obj_at lo hi h l ps ->
  obj_at lo hi (redactStorage config l h) l (Redactor.redactStorage config ps)
  /\ length (redactStorage config l h) = length h
  /\ agree (fun x => x <> l) h (redactStorage config l h).
Proof.
  intros Hhi Hobj. unfold redactStorage, Redactor.redactStorage.
  pose proof (obj_at_read _ _ _ _ _ "key" Hobj) as Hrd.
  inversion Hrd; try done.
  destruct (bool_decide _); [|done].
  rewrite (obj_at_has _ _ _ _ _ "value" Hobj).
  destruct (has ps "value").
  - pose proof (obj_at_assign _ _ _ _ _ "value" Redactor.REDACTED Hhi Hobj) as Hobj1.
    rewrite (obj_at_has _ _ _ _ _ "previousValue" Hobj1).
    destruct (has _ "previousValue").
    + split; [|split].
      * apply obj_at_assign; [by rewrite assign_length|done].
      * by rewrite !assign_length.
      * intros x Hx. by rewrite !assign_agree.
    + split; [done|]. split; [by rewrite assign_length|apply assign_agree].
  - rewrite (obj_at_has _ _ _ _ _ "previousValue" Hobj).
    destruct (has _ "previousValue").
    + split; [by apply obj_at_assign|]. split; [by rewrite assign_length|apply assign_agree].
    + done.
Qed.

(** [redactEvent] in the store: it returns, its result is the event that
    [Redactor.redactEvent] computes on the tree, held in cells that did not
    exist before, and no cell of the store it was given has changed. *)
Lemma redactEvent_spec config fuel e h p P :
  repr_in P h (payload e) (Obj p) -> (forall l, P l -> l < length h) ->
  depth (Obj p) < fuel ->
  exists e' h',
    redactEvent fuel config e h = Some (e', h')
    /\ length h <= length h'
    /\ agree (fun l => l < length h) h h'
    /\ repr_in (fun l => length h <= l < length h') h' (payload e')
         (Obj (payload (Redactor.redactEvent config (with_payload e p))))
    /\ with_payload e' p = with_payload e p.
Proof.
  intros Hr HP Hfuel.
  destruct (deepClone_spec (Redactor.sensitiveFieldsOf config) (Obj p) fuel None P
              (payload e) h Hfuel Hr HP)
    as (r' & h1 & Hclone & Hlen & Hag & _ & Hobj).
  destruct (Hobj _ eq_refl) as (l & -> & Hat).
  unfold redactEvent, redactObject. rewrite Hclone. simpl.
  unfold Redactor.redactEvent. simpl.
  change (Redactor.redactObject config p)
    with (assign_all (fun key v =>
            Redactor.deepCloneAndRedact (Redactor.sensitiveFieldsOf config) (Some key) v) [] p).
  set (p1 := assign_all _ [] p) in *.
  assert (l < length h1 /\ length h <= l) as [Hl1 Hl2] by (destruct Hat as (? & ? & _); lia).
  eexists _, _. split; [done|].
  destruct (decide (source e = BrowserNetwork)) as [Hnet|Hnet].
  - destruct (decide (source e = BrowserStorage)) as [Hsto|_]; [congruence|].
    destruct (redactNetwork_spec config _ _ h1 l p1 (Nat.le_refl _) Hat) as (Hat' & Hlen' & Hag').
    rewrite Hlen'. split; [done|]. split; [|split; [|done]].
    + intros x Hx. rewrite Hag' by lia. by apply Hag.
    + simpl. apply obj_at_repr in Hat'. exact Hat'.
  - destruct (decide (source e = BrowserStorage)) as [Hsto|_].
    + destruct (redactStorage_spec config _ _ h1 l p1 (Nat.le_refl _) Hat) as (Hat' & Hlen' & Hag').
      rewrite Hlen'. split; [done|]. split; [|split; [|done]].
      * intros x Hx. rewrite Hag' by lia. by apply Hag.
      * simpl. apply obj_at_repr in Hat'. exact Hat'.
    + split; [done|]. split; [done|]. split; [|done]. simpl. by apply obj_at_repr.
Qed.

End WithPlatform.

End RedactorHeapSpec.

(** ** The redactor: what the result holds, and what happens to the input *)

Module RedactionSpec.
Import JsString Js JsFacts Redactor RedactorHeap.
Import Samples.

Section WithPlatform.
Context `{Platform}.


End WithPlatform.

Lemma s1_repr : repr_in (fun l => l < 3) s1_store (Ref 2) (Obj s1_payload).
Proof.
  unfold s1_store, s1_payload.
  eapply repr_obj; [lia|reflexivity|].
  repeat (first [apply Forall2_nil_2 | apply Forall2_cons_2]); simpl;
    (split; [reflexivity|]); try constructor.
  - eapply repr_obj; [lia|reflexivity|].
    repeat (first [apply Forall2_nil_2 | apply Forall2_cons_2]); simpl;
      (split; [reflexivity|]); constructor.
  - eapply repr_obj; [lia|reflexivity|].
    repeat (first [apply Forall2_nil_2 | apply Forall2_cons_2]); simpl;
      (split; [reflexivity|]); constructor.
Qed.



(** Two more values that stay under a redact field: the value of a property
    whose name is the empty string, and an [undefined]. *)
Lemma redactEvent_empty_key_and_undefined :
  stored_under ""
    (Obj (payload (Redactor.redactEvent (H:=SamplePlatform.platform)
            {| fields := [""]; urlPatterns := [] |}
            {| id := "evt_1_001"; ts := 1; source := BrowserConsole; level := Info;
               payload := [("", Str "secret")] |})))
    (Str "secret")
  /\ stored_under "token"
       (Obj (payload (Redactor.redactEvent (H:=SamplePlatform.platform)
               {| fields := ["token"]; urlPatterns := [] |}
               {| id := "evt_1_001"; ts := 1; source := BrowserConsole; level := Info;
                  payload := [("token", Undefined)] |})))
       Undefined.
Proof.
  split.
  - vm_compute. eapply stored_here with (key := ""); [|reflexivity].
    apply list_elem_of_In. simpl. auto.
  - vm_compute. eapply stored_here with (key := "token"); [|reflexivity].
    apply list_elem_of_In. simpl. auto.
Qed.

End RedactionSpec.

(** ** The watch-rule engine *)

Module WatchRulesSpec.
Import JsString Js JsFacts WatchRules.
Import Samples.

Lemma strict_eq_array_r a items : strict_eq a (Arr items) = false.
Proof. by destruct a. Qed.

Lemma strict_eq_object_r a props : strict_eq a (Obj props) = false.
Proof. by destruct a. Qed.

Lemma array_prefix_eq_spec actualItems expectedItems :
  array_prefix_eq actualItems expectedItems = true
  <-> forall i, i < length expectedItems ->
        strict_eq (index actualItems i) (index expectedItems i) = true.
Proof.
  unfold array_prefix_eq. rewrite forallb_forall. split.
  - intros Hall i Hi. apply Hall. apply in_seq. lia.
  - intros Hall i Hi. apply Hall. apply in_seq in Hi. lia.
Qed.

(** The loop body of [deepPartialMatch] decides the structural match. *)
Lemma property_matches_spec expectedValue : forall actualValue,
  property_matches expectedValue actualValue = true
  <-> value_match actualValue expectedValue.
Proof.
  induction expectedValue as [| |b|n|s|items _|props IH] using value_ind';
    intros actualValue; simpl.
  1-5: split; [by constructor|inversion 1; subst; done].
  - destruct actualValue; simpl;
      try (split; [done|inversion 1; subst; by rewrite ?strict_eq_array_r in *]).
    rewrite array_prefix_eq_spec. split; [by constructor|].
    inversion 1; subst; [done|]. by rewrite strict_eq_array_r in *.
  - destruct actualValue as [| | | | | |actual]; simpl;
      try (split; [done|inversion 1; subst; by rewrite ?strict_eq_object_r in *]).
    rewrite forallb_forall. split.
    + intros Hall. constructor. constructor. apply Forall_forall. intros kv Hkv.
      specialize (Hall kv (proj1 (list_elem_of_In _ _) Hkv)).
      apply andb_true_iff in Hall as [Hhas Hm]. split; [done|].
      rewrite Forall_forall in IH. by apply (IH kv Hkv).
    + inversion 1 as [|? ? Hpm|]; subst; [|by rewrite strict_eq_object_r in *].
      inversion Hpm as [? ? Hall]; subst. intros kv Hkv.
      rewrite Forall_forall in Hall, IH.
      apply list_elem_of_In in Hkv. destruct (Hall kv Hkv) as [Hhas Hm].
      apply andb_true_iff. split; [done|]. by apply (IH kv Hkv).
Qed.

Lemma deepPartialMatch_spec actual expected :
  deepPartialMatch actual expected = true <-> partial_match actual expected.
Proof.
  unfold deepPartialMatch. rewrite forallb_forall. split.
  - intros Hall. constructor. apply Forall_forall. intros kv Hkv.
    specialize (Hall kv (proj1 (list_elem_of_In _ _) Hkv)).
    apply andb_true_iff in Hall as [Hhas Hm]. split; [done|].
    by apply property_matches_spec.
  - inversion 1 as [? ? Hall]; subst. intros kv Hkv.
    rewrite Forall_forall in Hall. apply list_elem_of_In in Hkv.
    destruct (Hall kv Hkv) as [Hhas Hm].
    apply andb_true_iff. split; [done|]. by apply property_matches_spec.
Qed.

Section WithPlatform.
Context `{Platform}.

(** The tests of [evaluate] on a rule decide what the specification asks
    of the event. *)
Lemma conditionsMatch_spec e r :
  sourceMatches (rule_source r) (source e)
  && conditionsMatch e (rule_conditions r) = true
  <-> satisfies e r.
Proof.
  unfold conditionsMatch, specified_list, specified_string.
  rewrite !andb_true_iff. split.
  - intros [Hs [[[[[H1 H2] H3] H4] H5] H6]]. constructor.
    + intros s Hrs. rewrite Hrs in Hs. simpl in Hs. by apply bool_decide_eq_true in Hs.
    + intros codes [Hc Hne]. rewrite Hc in H1. destruct codes; [done|].
      destruct (get (payload e) "status"); try done.
      eexists. split; [done|]. by apply bool_decide_eq_true in H1.
    + intros pattern [Hc Hne]. unfold specified_string in *. rewrite Hc in H2.
      destruct pattern; [done|].
      destruct (get (payload e) "url"); try done. eauto.
    + intros ms [Hc Hne]. rewrite Hc in H3. destruct ms; [done|].
      destruct (get (payload e) "method"); try done.
      eexists. split; [done|]. apply bool_decide_eq_true in H3.
      by apply elem_of_list_to_set in H3.
    + intros ls [Hc Hne]. rewrite Hc in H4. destruct ls; [done|].
      simpl in H4. by apply bool_decide_eq_true in H4.
    + intros needle [Hc Hne]. rewrite Hc in H5. destruct needle; [done|].
      destruct (get (payload e) "message"); try done. eauto.
    + intros expected Hc. rewrite Hc in H6. by apply deepPartialMatch_spec.
  - intros [Hs H1 H2 H3 H4 H5 H6]. repeat split.
    + destruct (rule_source r) as [s|] eqn:Hrs; [|done].
      simpl. apply bool_decide_eq_true. by apply Hs.
    + destruct (statusCodes _) as [[|c codes]|] eqn:Hc; try done.
      destruct (H1 (c :: codes)) as (status & -> & Hin); [done|].
      by apply bool_decide_eq_true.
    + destruct (urlPattern _) as [[|c pattern]|] eqn:Hc; try done.
      destruct (H2 (String c pattern)) as (url & -> & Hm); done.
    + destruct (methods _) as [[|c ms]|] eqn:Hc; try done.
      destruct (H3 (c :: ms)) as (method & -> & Hin); [done|].
      apply bool_decide_eq_true. by apply elem_of_list_to_set.
    + destruct (levels _) as [[|c ls]|] eqn:Hc; try done.
      simpl. apply bool_decide_eq_true. by apply H4.
    + destruct (messageContains _) as [[|c needle]|] eqn:Hc; try done.
      destruct (H5 (String c needle)) as (message & -> & Hm); done.
    + destruct (payloadContains _) as [expected|] eqn:Hc; [|done].
      apply deepPartialMatch_spec. by apply H6.
Qed.

Lemma addWatchedEvent_take buffer ev rule now :
  addWatchedEvent buffer ev rule now
  = take WATCHED_CAPACITY (entry ev rule now :: buffer).
Proof.
  unfold addWatchedEvent. fold (entry ev rule now).
  destruct (Nat.ltb_spec WATCHED_CAPACITY (length (entry ev rule now :: buffer))); [done|].
  by rewrite take_ge.
Qed.

Lemma take_app_take {A} n (a b : list A) : take n (a ++ take n b) = take n (a ++ b).
Proof.
  rewrite !take_app, take_take. f_equal. f_equal. lia.
Qed.

Lemma entries_cons ev clock tick r rs :
  entries ev clock tick (r :: rs)
  = entries ev clock (S tick) rs ++ [entry ev r (clock tick)].
Proof.
  unfold entries. simpl. rewrite Nat.add_0_r. f_equal. f_equal.
  apply imap_ext. intros i x _. simpl. f_equal. f_equal. lia.
Qed.

Lemma evaluate_loop ev clock rules : forall matched tick st e,
  events st !! ev = Some e ->
  exists rs e',
    hits rules e rs e'
    /\ foldl (evaluate_rule ev clock) (matched, tick, st) rules
       = (matched || match rs with [] => false | _ => true end,
          tick + length rs,
          {| events := <[ev := e']> (events st);
             watchedEvents :=
               match rs with
               | [] => watchedEvents st
               | _ => take WATCHED_CAPACITY (entries ev clock tick rs ++ watchedEvents st)
               end |}).
Proof.
  induction rules as [|r rules IH]; intros matched tick st e He.
  - exists [], e. split; [constructor|]. simpl.
    rewrite orb_false_r, Nat.add_0_r, list_insert_id by done. by destruct st.
  - simpl. rewrite He.
    destruct (rule_active r) eqn:Hact; simpl.
    2:{ destruct (IH matched tick st e He) as (rs & e' & Hhits & ->).
        exists rs, e'. split; [|done]. apply hits_skip; auto. }
    destruct (sourceMatches (rule_source r) (source e)
              && conditionsMatch e (rule_conditions r)) eqn:Hsat.
    + apply andb_true_iff in Hsat as Hsat'. destruct Hsat' as [-> ->]. simpl.
      apply conditionsMatch_spec in Hsat.
      assert (ev < length (events st)) as Hlt by (eapply lookup_lt_Some; eauto).
      edestruct (IH true (S tick)) as (rs & e' & Hhits & ->).
      { simpl. by apply list_lookup_insert_eq. }
      exists (r :: rs), e'. split; [by apply hits_match|].
      cbn [events watchedEvents length]. rewrite list_insert_insert_eq.
      f_equal; [f_equal; lia|]. f_equal.
      rewrite addWatchedEvent_take, entries_cons.
      destruct rs as [|r' rs]; [done|].
      by rewrite take_app_take, <- app_assoc.
    + destruct (IH matched tick st e He) as (rs & e' & Hhits & Heq).
      exists rs, e'. split.
      * apply hits_skip; [|done]. right. intros Hs.
        apply conditionsMatch_spec in Hs. congruence.
      * rewrite <- Heq. apply andb_false_iff in Hsat as [->| ->]; simpl; [done|].
        by destruct (sourceMatches _ _).
Qed.

Lemma conditionsMatch_annotate e r' c :
  payloadContains c = None ->
  conditionsMatch (annotate e r') c = conditionsMatch e c.
Proof.
  intros Hpc. unfold conditionsMatch. rewrite Hpc. simpl.
  rewrite !get_set. done.
Qed.

Lemma satisfies_annotate e r' r :
  payloadContains (rule_conditions r) = None ->
  satisfies (annotate e r') r <-> satisfies e r.
Proof.
  intros Hpc. rewrite <- !conditionsMatch_spec.
  by rewrite conditionsMatch_annotate.
Qed.

Lemma hits_without_payloadContains rules e rs e' :
  hits rules e rs e' ->
  (forall r, r ∈ rules -> payloadContains (rule_conditions r) = None) ->
  forall e0, (forall r, r ∈ rules -> satisfies e r <-> satisfies e0 r) ->
  forall r, r ∈ rs <-> r ∈ rules /\ rule_active r = true /\ satisfies e0 r.
Proof.
  induction 1 as [e|r1 rules e rs e' Hact Hsat _ IH|r1 rules e rs e' Hskip _ IH];
    intros Hpc e0 He0 r.
  - split; [by inversion 1|]. intros [Hin _]. by inversion Hin.
  - rewrite !elem_of_cons, IH.
    + split.
      * intros [->|(? & ? & ?)]; [|split; [by right|by split]].
        split; [by left|]. split; [done|]. apply He0; [by left|done].
      * intros ([->|?] & ? & ?); [by left|by right].
    + intros r2 Hr2. apply Hpc. by right.
    + intros r2 Hr2. rewrite satisfies_annotate by (apply Hpc; by right).
      apply He0. by right.
  - rewrite elem_of_cons, IH.
    + split; [intros (? & ? & ?); split; [by right|by split]|].
      intros ([->|?] & Ha & Hs); [|split; [done|by split]].
      exfalso. destruct Hskip as [Hi|Hn]; [congruence|].
      apply Hn. apply He0; [by left|done].
    + intros r2 Hr2. apply Hpc. by right.
    + intros r2 Hr2. apply He0. by right.
Qed.


End WithPlatform.


Example s2_watched :
  watchedEvents (evaluate (H:=SamplePlatform.platform) [s2_rule]
                   {| events := [s2_event]; watchedEvents := [] |} 0 (fun _ => 5%Z)).2
  = [{| event := 0; matchedRule_id := "rule_1_001";
        matchedRule_label := "auth failures"; matchedAt := 5 |}].
Proof. vm_compute. reflexivity. Qed.


End WatchRulesSpec.

(** ** The hub: what arrives from the child and from the browser *)

Module HubSpec.
Import JsString Js Hub.

Section WithPlatform.
Context `{Platform} {S : Type}.
Implicit Types (h : hub S) (e : DaibugEvent).

Lemma with_payload_same e : with_payload e (payload e) = e.
Proof. by destruct e. Qed.

Lemma replace_last_snoc {A} (x y : A) (l : list A) : replace_last x (l ++ [y]) = l ++ [x].
Proof.
  unfold replace_last. destruct (l ++ [y]) as [|z l'] eqn:Heq.
  - by destruct l.
  - rewrite <- Heq, length_app. simpl.
    replace (length l + 1 - 1)%nat with (length l) by lia.
    by rewrite take_app_length.
Qed.

(** The listeners get the event with the payload as the listeners before
    them left it, and cannot change its other fields. *)
Lemma notify_event fuel i e (ls : list (handler S)) (s : S) :
  exists p, (notify fuel i e ls s).1.1 = with_payload e p.
Proof.
  revert i e ls s. induction fuel as [|fuel IH]; intros i e ls s; simpl.
  - exists (payload e). by rewrite with_payload_same.
  - destruct (ls !! i) as [l|].
    + destruct (IH (Datatypes.S i) (with_payload e (written (handle l e s)))
                  (unsubscribe_all (unsubscribed (handle l e s)) ls)
                  (next (handle l e s))) as [p Hp].
      exists p. by rewrite Hp.
    + exists (payload e). by rewrite with_payload_same.
Qed.

Lemma notify_nil fuel i e (s : S) : notify fuel i e [] s = (e, [], s).
Proof. by destruct fuel. Qed.

(** [classifyLine] touches the detector only. *)
Lemma classifyLine_frame line h :
  exists l, (classifyLine line h).2 = set_locked l h.
Proof.
  unfold classifyLine.
  destruct (Detector.detector_classifyOutput line (locked h)) as [result l].
  destruct result; simpl; try (by eexists).
  destruct l as [[]|]; simpl; try (by eexists).
  destruct (RegExp.test URL_PATTERN line); by eexists.
Qed.

Lemma redactEvent_message config e message :
  payload e = [("message", Str message)] ->
  payload (Redactor.redactEvent config e) = message_payload config message.
Proof.
  intros He. unfold Redactor.redactEvent. rewrite He.
  assert (Redactor.redactObject config [("message", Str message)]
          = message_payload config message) as ->.
  { rewrite RedactorSpec.redactObject_eq. unfold assign_all, message_payload. simpl.
    unfold Redactor.redacts. simpl.
    change (toLowerCase "message") with "message".
    by destruct (bool_decide _). }
  unfold message_payload.
  destruct (bool_decide _);
    by destruct (decide (source e = BrowserNetwork)), (decide (source e = BrowserStorage)).
Qed.

(** What [addEvent] leaves in the ring and sends to the clients. *)
Lemma addEvent_spec e h :
  exists stored,
    buffer (addEvent e h)
    = (if (500 <=? Z.of_nat (length (buffer h)))%Z then tail (buffer h) else buffer h)
      ++ [stored]
    /\ (exists p, stored = with_payload e p)
    /\ (eventListeners h = [] -> stored = e)
    /\ wss (addEvent e h)
       = send_to_open (default "" (JSON.stringify (event_object e))) <$> wss h.
Proof.
  unfold addEvent.
  set (h1 := set_buffer _ h).
  set (h2 := match wss h1 with Some _ => _ | None => _ end).
  assert (buffer h2 = buffer h1 /\ eventListeners h2 = eventListeners h
          /\ closures h2 = closures h
          /\ wss h2 = send_to_open (default "" (JSON.stringify (event_object e))) <$> wss h)
    as (Hb & Hl & Hc & Hw).
  { subst h2. change (wss h1) with (wss h). destruct (wss h) eqn:Hwss;
      repeat split; try reflexivity.
    change (wss h1) with (wss h). by rewrite Hwss. }
  rewrite Hl, Hc.
  destruct (notify_event (length (eventListeners h)) 0 e (eventListeners h) (closures h))
    as [p Hp].
  destruct (notify _ _ _ _ _) as [[stored ls] s] eqn:Hn. simpl in Hp. subst stored.
  exists (with_payload e p). simpl. rewrite Hb. subst h1. simpl.
  unfold RingBuffer.push_items. rewrite replace_last_snoc.
  split; [done|]. split; [by eexists|]. split; [|done].
  intros Hnil. rewrite Hnil, notify_nil in Hn. by injection Hn as <- _ _.
Qed.

(** What [ingestEvent] leaves in the ring: one more event, of the source and
    the level given. *)
Lemma ingestEvent_buffer src lvl p h :
  exists stored,
    buffer (ingestEvent src lvl p h)
    = (if (500 <=? Z.of_nat (length (buffer h)))%Z then tail (buffer h) else buffer h)
      ++ [stored]
    /\ source stored = src /\ level stored = lvl.
Proof.
  unfold ingestEvent.
  set (h1 := updateConnectedTabFromPayload p h).
  assert (buffer h1 = buffer h) as Hb1.
  { subst h1. unfold updateConnectedTabFromPayload.
    destruct (get p "tabId"); try reflexivity.
    by destruct (tabs_get (connectedTabs h) n). }
  destruct (createEvent src lvl p h1) as [ev h2] eqn:Hcreate.
  assert (buffer h2 = buffer h1 /\ source ev = src /\ level ev = lvl) as (Hb2 & Hsrc & Hlvl).
  { unfold createEvent, Date_now in Hcreate.
    destruct (inBatch h1); injection Hcreate as <- <-; done. }
  destruct (addEvent_spec (Redactor.redactEvent (redact h2) ev) h2)
    as (stored & Hbuf & [q Hq] & _).
  exists stored. rewrite Hbuf, Hb2, Hb1. split; [done|].
  subst stored. done.
Qed.

End WithPlatform.

End HubSpec.

(** ** The output of the child process *)

Module ChildOutputSpec.
Import JsString Js Hub HubSpec.
Import Samples.

Section WithPlatform.
Context `{Platform} {S : Type}.


End WithPlatform.

Example s4_lines : lines s4_chunk = ["a"; "b"].
Proof. reflexivity. Qed.

Example s4_events :
  buffer (on_stdout_data (H:=SamplePlatform.platform) s4_chunk sample_hub)
  = [ {| id := "evt_1000_001"; ts := 1000; source := Vite; level := Info;
         payload := [("message", Str s4_message)] |} ].
Proof. vm_compute. reflexivity. Qed.



End ChildOutputSpec.

(** ** Messages from the browser *)

Module WsMessageSpec.
Import JsString Js Hub HubSpec.
Import Samples.

Section WithPlatform.
Context `{Platform} {S : Type}.

(** C6, what the code does instead.  A message whose [type] is a string
    other than the four recognised ones is not dropped: [handleWsMessage]
    falls through to the branch meant for the messages without [type], and
    when the message carries a valid source, level and payload the event is
    ingested, so the ring gets one more event. *)
Theorem C6_unknown_type_is_ingested (h : hub S) (rawData : string)
    (msg : list (string * value)) (type : string)
    (src : EventSource) (lvl : EventLevel) (p : list (string * value)) :
  JSON.parse rawData = Some (Obj msg) ->
  get msg "type" = Str type ->
  type <> "browser_event" -> type <> "browser_interaction" ->
  type <> "browser_tab_info" -> type <> "browser_storage" ->
  normalizeEventSource (get msg "source") = Some src ->
  normalizeEventLevel (get msg "level") = Some lvl ->
  get msg "payload" = Obj p ->
  handleWsMessage rawData h = ingestEvent src lvl p h
  /\ exists stored,
       buffer (handleWsMessage rawData h)
       = (if (500 <=? Z.of_nat (length (buffer h)))%Z then tail (buffer h) else buffer h)
         ++ [stored]
       /\ source stored = src /\ level stored = lvl.
Proof.
  intros Hparse Htype H1 H2 H3 H4 Hsrc Hlvl Hp.
  assert (handleWsMessage rawData h = ingestEvent src lvl p h) as ->.
  { unfold handleWsMessage. rewrite Hparse. unfold prop. rewrite Htype.
    unfold strict_eq.
    rewrite (proj2 (String.eqb_neq _ _) H3), (proj2 (String.eqb_neq _ _) H2),
      (proj2 (String.eqb_neq _ _) H4), (proj2 (String.eqb_neq _ _) H1).
    by rewrite Hsrc, Hlvl, Hp. }
  split; [done|]. apply ingestEvent_buffer.
Qed.

End WithPlatform.

Example s5_ingested :
  buffer (handleWsMessage (H:=SamplePlatform.platform) s5_frame sample_hub)
  = [ {| id := "evt_1000_001"; ts := 1000; source := BrowserConsole; level := Info;
         payload := [("message", Str "x")] |} ].
Proof. vm_compute. reflexivity. Qed.

Lemma C6_unknown_type_is_ingested_witness :
  exists stored : DaibugEvent,
    buffer (handleWsMessage (H:=SamplePlatform.platform) s5_frame sample_hub) = [stored]
    /\ source stored = BrowserConsole /\ level stored = Info.
Proof.
  destruct (C6_unknown_type_is_ingested (H:=SamplePlatform.platform) sample_hub s5_frame
              s5_message "unknown_kind" BrowserConsole Info [("message", Str "x")])
    as [_ Hstored];
    [vm_compute; reflexivity | reflexivity | discriminate | discriminate | discriminate
    | discriminate | reflexivity | reflexivity | reflexivity |].
  exact Hstored.
Defined.

(** So the sentence of the specification does not hold of the code. *)
Lemma unknown_type_is_not_dropped : ~ unknown_type_is_dropped (H:=SamplePlatform.platform).
Proof.
  intros Hclaim.
  assert (buffer (handleWsMessage (H:=SamplePlatform.platform) s5_frame sample_hub)
          = buffer sample_hub) as Hsame.
  { by rewrite (Hclaim sample_hub s5_frame s5_message "unknown_kind"). }
  rewrite s5_ingested in Hsame. discriminate Hsame.
Qed.

(** The message without [type] is ingested, as the specification says. *)
Example legacy_message_ingested :
  buffer (handleWsMessage (H:=SamplePlatform.platform)
            (JSON.serialize "" "" (Obj (tail s5_message))) sample_hub)
  = [ {| id := "evt_1000_001"; ts := 1000; source := BrowserConsole; level := Info;
         payload := [("message", Str "x")] |} ].
Proof. vm_compute. reflexivity. Qed.

(** A text that is not JSON, and a message that lacks a valid source, are
    ignored. *)
Example malformed_message_ignored :
  handleWsMessage (H:=SamplePlatform.platform) "{oops" sample_hub = sample_hub
  /\ handleWsMessage (H:=SamplePlatform.platform)
       (JSON.serialize "" "" (Obj [("type", Str "unknown_kind"); ("level", Str "info")]))
       sample_hub = sample_hub.
Proof. split; vm_compute; reflexivity. Qed.

End WsMessageSpec.

(** ** Sessions: export and import *)

Module SessionSpec.
Import JsString Js JsFacts JSON Session.
Import Samples.

Section WithPlatform.
Context `{Platform}.

Lemma sessionId_nonempty createdAt : exists c s, sessionId createdAt = String c s.
Proof. unfold sessionId. rewrite JSONSpec.app_cons. by eexists _, _. Qed.


(** A session that is imported has the version and an id. *)
Lemma import_returns json imported :
  importSessionFromString json = Returns imported ->
  JSON.parse json = Some (Obj imported)
  /\ get imported "version" = Str "1.0"
  /\ exists c s, get imported "id" = Str (String c s).
Proof.
  unfold importSessionFromString.
  destruct (JSON.parse json) as [parsed|]; [|done].
  destruct parsed as [| | | | | |candidate]; simpl; try done.
  destruct (get candidate "version") as [| | | |v| |] eqn:Hv; simpl; try done.
  destruct (String.eqb_spec v "1.0") as [->|]; [|done]. simpl.
  destruct (get candidate "id") as [| | | |s| |] eqn:Hid; try done.
  destruct s as [|c s]; [done|]. intros [= <-]. eauto.
Qed.

End WithPlatform.


Example import_rejects_version_2 :
  importSessionFromString s3_text
  = Throws "Invalid session format: unsupported or missing version".
Proof. vm_compute. reflexivity. Qed.

Example import_rejects_empty_id :
  importSessionFromString
    (serialize "" "" (Obj [("version", Str "1.0"); ("id", Str "")]))
  = Throws "Invalid session format: missing id".
Proof. vm_compute. reflexivity. Qed.

Example import_rejects_text :
  importSessionFromString "not json" = Throws "Invalid session JSON".
Proof. vm_compute. reflexivity. Qed.

End SessionSpec.

(** ** The tools: the sandbox of [evaluate_in_browser] and the waits *)

Module McpToolsSpec.
Import JsString Js Hub McpTools.
Import Samples.

Section WithPlatform.
Context `{Platform}.

Lemma isLocalhostUrl_false url : isLocalhostUrl url = false <-> foreign url.
Proof.
  unfold isLocalhostUrl, foreign. split.
  - destruct (URL_parse url) as [parsed|]; [|done].
    intros [H1 H2]%orb_false_iff. exists parsed.
    by rewrite String.eqb_neq in H1, H2.
  - intros (parsed & -> & H1 & H2). apply orb_false_iff.
    by rewrite !String.eqb_neq.
Qed.

Lemma sandboxCheck_violation expression :
  sandboxCheck expression = Some VIOLATION
  <-> exists url,
        url ∈ captured FETCH_URL_RE expression ++ captured XHR_URL_RE expression
        /\ foreign url.
Proof.
  unfold sandboxCheck.
  destruct (existsb _ _) eqn:Hex.
  - split; [intros _|done].
    apply existsb_exists in Hex as (url & Hin & Hurl).
    exists url. split; [by apply list_elem_of_In|].
    apply isLocalhostUrl_false. by destruct (isLocalhostUrl url).
  - split; [done|]. intros (url & Hin & Hurl%isLocalhostUrl_false).
    assert (existsb (fun url => negb (isLocalhostUrl url))
              (captured FETCH_URL_RE expression ++ captured XHR_URL_RE expression) = true)
      as Htrue; [|by rewrite Hex in Htrue].
    apply existsb_exists. exists url. split; [by apply list_elem_of_In|].
    by rewrite Hurl.
Qed.

(** C10.  [isLocalhostUrl] answers true for every string that [new URL]
    does not parse, and false exactly for the strings that parse with a
    hostname other than localhost and 127.0.0.1; so [sandboxCheck] rejects an
    expression exactly when one of the URLs captured by the two scans parses
    with such a hostname, and lets it pass otherwise. *)
Theorem C10_unparsable_url_counts_as_localhost :
  (forall url, URL_parse url = None -> isLocalhostUrl url = true)
  /\ (forall url, isLocalhostUrl url = false <-> foreign url)
  /\ (forall expression,
        sandboxCheck expression = Some VIOLATION
        <-> exists url,
              url ∈ captured FETCH_URL_RE expression ++ captured XHR_URL_RE expression
              /\ foreign url)
  /\ (forall expression,
        sandboxCheck expression = None
        <-> forall url,
              url ∈ captured FETCH_URL_RE expression ++ captured XHR_URL_RE expression ->
              ~ foreign url).
Proof.
  split; [|split; [|split]].
  - intros url Hnone. unfold isLocalhostUrl. by rewrite Hnone.
  - apply isLocalhostUrl_false.
  - apply sandboxCheck_violation.
  - intros expression. split.
    + intros Hnone url Hin Hurl.
      assert (sandboxCheck expression = Some VIOLATION) as Hsome
        by (apply sandboxCheck_violation; eauto).
      by rewrite Hnone in Hsome.
    + intros Hall. unfold sandboxCheck.
      destruct (existsb _ _) eqn:Hex; [|done].
      assert (sandboxCheck expression = Some VIOLATION) as Hsome
        by (unfold sandboxCheck; by rewrite Hex).
      apply sandboxCheck_violation in Hsome as (url & Hin & Hurl).
      by destruct (Hall url Hin).
Qed.

(** C8.  When one of the two scans captures, in the expression, a URL that
    parses with a hostname other than localhost and 127.0.0.1, the handler of
    [evaluate_in_browser] returns the sandbox violation and leaves the hub as
    it was: no command is broadcast, no client receives a frame, nothing is
    subscribed and the clock is not read. *)
Theorem C8_sandbox_rejects_before_broadcast (args : list (string * value))
    (h : hub tool_closures) (expression url : string) (parsed : URL) :
  get args "expression" = Str expression ->
  url ∈ captured FETCH_URL_RE expression ++ captured XHR_URL_RE expression ->
  URL_parse url = Some parsed ->
  hostname parsed <> "localhost" ->
  hostname parsed <> "127.0.0.1" ->
  evaluate_in_browser args h
  = (Now (textResult
            (Obj [("error",
                   Str "Sandbox violation: network requests to non-localhost URLs are not allowed")])),
     h)
  /\ frames (evaluate_in_browser args h).2 = frames h.
Proof.
  intros Hexpr Hin Hparse H1 H2.
  assert (sandboxCheck expression = Some VIOLATION) as Hcheck.
  { apply sandboxCheck_violation. exists url. split; [done|]. by exists parsed. }
  assert (evaluate_in_browser args h = (Now (errorResult VIOLATION), h)) as ->.
  { unfold evaluate_in_browser. rewrite Hexpr.
    destruct expression as [|c e].
    - by apply elem_of_nil in Hin.
    - by rewrite Hcheck. }
  done.
Qed.

End WithPlatform.

Lemma C10_unparsable_url_counts_as_localhost_witness :
  isLocalhostUrl (H:=SamplePlatform.platform) "/api/x" = true
  /\ sandboxCheck (H:=SamplePlatform.platform) "fetch('/api/x')" = None.
Proof.
  pose proof (C10_unparsable_url_counts_as_localhost (H:=SamplePlatform.platform))
    as (Hunparsed & _ & _ & Hpass).
  split.
  - apply Hunparsed. reflexivity.
  - apply Hpass. intros url Hin (parsed & Hparse & _).
    apply list_elem_of_singleton in Hin. subst url. discriminate Hparse.
Defined.

Lemma C8_sandbox_rejects_before_broadcast_witness :
  let args := [("expression", Str "fetch('https://evil.com/x')")] in
  evaluate_in_browser (H:=SamplePlatform.platform) args (tools_hub [])
  = (Now (textResult
            (Obj [("error",
                   Str "Sandbox violation: network requests to non-localhost URLs are not allowed")])),
     tools_hub [])
  /\ frames (evaluate_in_browser (H:=SamplePlatform.platform) args (tools_hub [])).2 = [[]].
Proof.
  intros args.
  apply (C8_sandbox_rejects_before_broadcast (H:=SamplePlatform.platform) args (tools_hub [])
           "fetch('https://evil.com/x')" "https://evil.com/x"
           {| hostname := "evil.com"; pathname := "/x"; search := "" |}).
  - reflexivity.
  - apply list_elem_of_singleton. reflexivity.
  - reflexivity.
  - discriminate.
  - discriminate.
Defined.

(** An expression that only talks to localhost is broadcast. *)
Example evaluate_localhost_is_broadcast :
  let args := [("expression", Str "fetch('http://localhost:3000/x')")] in
  let '(promise, h) := evaluate_in_browser (H:=SamplePlatform.platform) args (tools_hub []) in
  promise = Later 0 300
  /\ length (concat (frames h)) = 1%nat
  /\ map handler_id (eventListeners h) = [0%nat].
Proof. vm_compute. done. Qed.

End McpToolsSpec.

(** ** Subscribing to the hub *)

Module SubscriptionSpec.
Import JsString Js Hub McpTools.
Import Samples.

Section WithPlatform.
Context `{Platform} {S : Type}.

Lemma replay_spec (l : handler S) (events : list DaibugEvent) (ls : list (handler S)) (s : S) :
  (replay l events ls s).2 = foldl (fun s event => next (handle l event s)) s events
  /\ map id (replay l events ls s).1.1 = map id events
  /\ ((forall event s, unsubscribed (handle l event s) = []) ->
      (replay l events ls s).1.2 = ls).
Proof.
  revert ls s. induction events as [|event rest IH]; intros ls s; [done|].
  simpl.
  destruct (IH (unsubscribe_all (unsubscribed (handle l event s)) ls)
              (next (handle l event s))) as (IH1 & IH2 & IH3).
  destruct (replay l rest _ _) as [[rest' ls'] s']. simpl in *.
  split; [done|]. split; [by rewrite IH2|].
  intros Hnone. rewrite IH3 by done. by rewrite Hnone.
Qed.

(** [onBrowserEvent(handler)] adds the handler to the listeners and calls it
    once for every event of the ring, oldest first, each call on the state
    that the call before left; what a call throws is dropped; the ring holds
    the same events afterwards, and the handler is still subscribed unless
    it unsubscribed itself. *)
Lemma onBrowserEvent_replays (l : handler S) (h : hub S) :
  closures (onBrowserEvent l h)
  = foldl (fun s event => next (handle l event s)) (closures h) (buffer h)
  /\ map id (buffer (onBrowserEvent l h)) = map id (buffer h)
  /\ ((forall event s, unsubscribed (handle l event s) = []) ->
      eventListeners (onBrowserEvent l h) = eventListeners h ++ [l]).
Proof.
  unfold onBrowserEvent.
  set (h1 := set_eventListeners _ h).
  change (buffer h1) with (buffer h). change (closures h1) with (closures h).
  change (eventListeners h1) with (eventListeners h ++ [l]).
  destruct (replay_spec l (buffer h) (eventListeners h ++ [l]) (closures h))
    as (Hs & Hevents & Hls).
  destruct (replay l (buffer h) _ _) as [[events ls] s]. simpl in *.
  split; [done|]. split; [done|]. done.
Qed.

End WithPlatform.

(** The callback of a waiting tool whose [unsubscribe] has no value yet. *)
Lemma wait_callback_early (matches : DaibugEvent -> bool) (result : DaibugEvent -> value)
    (w : nat) (event : DaibugEvent) (s : tool_closures) (c : wait) :
  waits s !! w = Some c ->
  unsubscribe_fn c = None ->
  wait_callback matches result w event s
  = if settled c || negb (matches event) then React s (payload event) [] false
    else React (set_wait w {| settled := true; unsubscribe_fn := None;
                              resolved := resolved c |} s)
           (payload event) [] true.
Proof.
  intros Hw Hun. unfold wait_callback. rewrite Hw.
  destruct (settled c || negb (matches event)); [done|].
  simpl. by rewrite Hun.
Qed.

(** The replay to it: the first event that matches sets [settled], and
    nothing else changes. *)
Lemma replay_wait_callback (matches : DaibugEvent -> bool) (result : DaibugEvent -> value)
    (w : nat) (events : list DaibugEvent) (ls : list (handler tool_closures))
    (s : tool_closures) (c : wait) :
  waits s !! w = Some c ->
  unsubscribe_fn c = None ->
  exists events' s',
    replay (Handler w (wait_callback matches result w)) events ls s = (events', ls, s')
    /\ evalCounter s' = evalCounter s
    /\ length (waits s') = length (waits s)
    /\ waits s' !! w
       = Some {| settled := settled c || existsb matches events;
                 unsubscribe_fn := None; resolved := resolved c |}.
Proof.
  revert s c. induction events as [|event rest IH]; intros s c Hw Hun.
  - exists [], s. simpl. rewrite orb_false_r. destruct c; simpl in *. by subst.
  - cbn [replay handle]. rewrite (wait_callback_early _ _ _ _ _ c Hw Hun).
    destruct (settled c || negb (matches event)) eqn:Hskip;
      cbn [next written unsubscribed unsubscribe_all foldl].
    + destruct (IH s c Hw Hun) as (events' & s' & Hreplay & Hcounter & Hlen & Hlookup).
      rewrite Hreplay.
      eexists _, s'. split; [reflexivity|]. split; [done|]. split; [done|].
      rewrite Hlookup. cbn [existsb].
      destruct (settled c), (matches event); simpl in *; done.
    + apply orb_false_iff in Hskip as [Hsettled Hmatch%negb_false_iff].
      set (c1 := {| settled := true; unsubscribe_fn := None; resolved := resolved c |}).
      assert (waits (set_wait w c1 s) !! w = Some c1) as Hw1.
      { simpl. apply list_lookup_insert_eq. by eapply lookup_lt_Some. }
      destruct (IH (set_wait w c1 s) c1 Hw1 eq_refl)
        as (events' & s' & Hreplay & Hcounter & Hlen & Hlookup).
      rewrite Hreplay.
      eexists _, s'. split; [reflexivity|]. split; [done|].
      split; [by rewrite Hlen; simpl; rewrite length_insert|].
      rewrite Hlookup, Hsettled. simpl. by rewrite Hmatch.
Qed.

Section Tools.
Context `{Platform}.

(** C9, where the code departs from it.  When the ring holds a DOM snapshot
    and the tool [snapshot_dom] is called, [onBrowserEvent] replays the
    snapshot to the callback of the tool before it returns; the callback
    sets [settled] and calls [unsubscribe], which has no value yet, so it
    throws and [onBrowserEvent] drops the exception.  The promise of the tool
    is left unresolved and its callback subscribed, and the timer, which
    finds [settled] set, changes nothing. *)
Theorem C9_replayed_match_leaves_tool_unresolved (args : list (string * value))
    (h : hub tool_closures) :
  (exists event, event ∈ buffer h /\ is_dom_snapshot event = true) ->
  exists (w : nat) (timeout : Z) (h' : hub tool_closures),
    snapshot_dom args h = (Later w timeout, h')
    /\ waits (closures h') !! w
       = Some {| settled := true; unsubscribe_fn := Some w; resolved := None |}
    /\ eventListeners h'
       = eventListeners h
         ++ [Handler w (wait_callback is_dom_snapshot
                          (fun event => textResult (Obj (payload event))) w)]
    /\ on_timeout SNAPSHOT_TIMEOUT w h' = h'.
Proof.
  intros (event & Hin & Hmatch).
  unfold snapshot_dom.
  set (h0 := broadcastCommand _ h).
  assert (buffer h0 = buffer h /\ eventListeners h0 = eventListeners h
          /\ closures h0 = closures h) as (Hb & Hl & Hc).
  { subst h0. unfold broadcastCommand. by destruct (wss h). }
  unfold subscribe_wait, onBrowserEvent.
  set (w := length (waits (closures h0))).
  set (fresh := {| settled := false; unsubscribe_fn := None; resolved := None |}).
  set (s1 := {| evalCounter := evalCounter (closures h0);
                waits := waits (closures h0) ++ [fresh] |}).
  set (cb := wait_callback is_dom_snapshot (fun event => textResult (Obj (payload event)))).
  set (h1 := set_closures s1 h0).
  set (h2 := set_eventListeners (eventListeners h1 ++ [Handler w (cb w)]) h1).
  change (buffer h2) with (buffer h0). change (closures h2) with s1.
  change (eventListeners h2) with (eventListeners h0 ++ [Handler w (cb w)]).
  assert (waits s1 !! w = Some fresh) as Hw.
  { subst s1 w. simpl. by rewrite lookup_app_r, Nat.sub_diag. }
  destruct (replay_wait_callback is_dom_snapshot
              (fun event => textResult (Obj (payload event))) w (buffer h0)
              (eventListeners h0 ++ [Handler w (cb w)]) s1 fresh Hw eq_refl)
    as (events' & s' & Hreplay & _ & _ & Hlookup).
  fold cb in Hreplay. rewrite Hreplay.
  assert (existsb is_dom_snapshot (buffer h0) = true) as Hex.
  { apply existsb_exists. exists event. rewrite Hb. split; [|done].
    by apply list_elem_of_In. }
  rewrite Hex in Hlookup. simpl in Hlookup.
  set (h3 := set_closures s' _).
  change (closures h3) with s'. rewrite Hlookup.
  eexists w, _, _. split; [reflexivity|].
  assert (w < length (waits s')) as Hlt by (by eapply lookup_lt_Some).
  split; [|split].
  - simpl. by apply list_lookup_insert_eq.
  - simpl. by rewrite Hl.
  - unfold on_timeout. simpl.
    by rewrite list_lookup_insert_eq.
Qed.

End Tools.

(** The theorem on a hub whose ring holds one snapshot. *)
Lemma C9_replayed_match_leaves_tool_unresolved_witness :
  exists (w : nat) (timeout : Z) (h' : hub tool_closures),
    snapshot_dom [] (tools_hub [s6_snapshot]) = (Later w timeout, h')
    /\ waits (closures h') !! w
       = Some {| settled := true; unsubscribe_fn := Some w; resolved := None |}
    /\ eventListeners h'
       = [Handler w (wait_callback is_dom_snapshot
                       (fun event => textResult (Obj (payload event))) w)]
    /\ on_timeout SNAPSHOT_TIMEOUT w h' = h'.
Proof.
  apply (C9_replayed_match_leaves_tool_unresolved [] (tools_hub [s6_snapshot])).
  exists s6_snapshot. split; [apply list_elem_of_here|reflexivity].
Defined.

(** The same hub, step by step: the wait is stuck after the call, after the
    timer, and after a snapshot that arrives later. *)
Example s6_stuck :
  let '(promise, h) := snapshot_dom [] (tools_hub [s6_snapshot]) in
  let stuck := [ {| settled := true; unsubscribe_fn := Some 0%nat; resolved := None |} ] in
  promise = Later 0 3000
  /\ waits (closures h) = stuck
  /\ map handler_id (eventListeners h) = [0%nat]
  /\ waits (closures (on_timeout SNAPSHOT_TIMEOUT 0 h)) = stuck
  /\ waits (closures (addEvent s6_snapshot h)) = stuck.
Proof. vm_compute. done. Qed.

(** With an empty ring the same call resolves when the snapshot arrives, and
    at the timeout when none does. *)
Example snapshot_after_subscription_resolves :
  let '(promise, h) :=
    snapshot_dom [] (tools_hub []) in
  promise = Later 0 3000
  /\ map resolved (waits (closures (addEvent s6_snapshot h)))
     = [Some (textResult (Obj (payload s6_snapshot)))]
  /\ eventListeners (addEvent s6_snapshot h) = []
  /\ map resolved (waits (closures (on_timeout SNAPSHOT_TIMEOUT 0 h)))
     = [Some (errorResult SNAPSHOT_TIMEOUT)].
Proof. vm_compute. done. Qed.

End SubscriptionSpec.

(** ** Objects whose keys are distinct *)

Module ObjectFacts.
Import JsString Js JsFacts.

Section Props.
Context {V : Type}.
Implicit Types (o : list (string * V)).

Lemma has_keys o k : has o k = true <-> k ∈ map fst o.
Proof.
  unfold has. induction o as [|[k' w] o IH].
  - rewrite find_nil. split; [done|]. by intros ?%elem_of_nil.
  - rewrite find_cons. simpl. rewrite elem_of_cons.
    destruct (find o k) as [v|] eqn:Hfind.
    + split; [intros _; right; by apply IH|done].
    + destruct (String.eqb_spec k' k) as [->|Hne].
      * split; [by left|done].
      * split; [done|]. intros [Heq|Hin]; [congruence|]. by apply IH in Hin.
Qed.

Lemma has_absent o k : k ∉ map fst o -> has o k = false.
Proof.
  intros Hnot. destruct (has o k) eqn:Hhas; [|done]. by apply has_keys in Hhas.
Qed.

Lemma set_absent o k v : k ∉ map fst o -> set o k v = o ++ [(k, v)].
Proof.
  induction o as [|[k' w] o IH]; simpl; [done|].
  intros Hnot. apply not_elem_of_cons in Hnot as [Hne Hrest].
  destruct (String.eqb_spec k' k); [congruence|]. by rewrite IH.
Qed.

Lemma set_keys o k v :
  NoDup (map fst o) ->
  map fst (set o k v) = if has o k then map fst o else map fst o ++ [k].
Proof.
  induction o as [|[k' w] o IH]; simpl; [done|].
  intros [Hk' Ho]%NoDup_cons.
  destruct (String.eqb_spec k' k) as [->|Hne].
  - rewrite (has_absent o k Hk'). simpl.
    assert (has ((k, w) :: o) k = true) as -> by (apply has_keys; simpl; by left).
    done.
  - simpl. rewrite IH by done.
    assert (has ((k', w) :: o) k = has o k) as ->.
    { unfold has. rewrite find_cons. destruct (find o k); [done|].
      by destruct (String.eqb_spec k' k). }
    by destruct (has o k).
Qed.

Lemma set_NoDup o k v : NoDup (map fst o) -> NoDup (map fst (set o k v)).
Proof.
  intros Ho. rewrite set_keys by done.
  destruct (has o k) eqn:Hhas; [done|].
  apply NoDup_app. split; [done|]. split; [|apply NoDup_singleton].
  intros x Hx ->%list_elem_of_singleton.
  apply has_keys in Hx. congruence.
Qed.

(** The binding of a key that is bound once. *)
Lemma find_NoDup o k v : NoDup (map fst o) -> (k, v) ∈ o -> find o k = Some v.
Proof.
  induction o as [|[k' w] o IH]; simpl; [by intros _ ?%elem_of_nil|].
  intros [Hk' Ho]%NoDup_cons Hin. rewrite find_cons.
  apply elem_of_cons in Hin as [[= -> ->]|Hin].
  - destruct (find o k') eqn:Hfind.
    + assert (has o k' = true) as Hhas by (unfold has; by rewrite Hfind).
      by apply has_keys in Hhas.
    + by rewrite String.eqb_refl.
  - by rewrite (IH Ho Hin).
Qed.

Lemma find_elem o k v : find o k = Some v -> (k, v) ∈ o.
Proof.
  induction o as [|[k' w] o IH]; [by rewrite find_nil|].
  rewrite find_cons. destruct (find o k) as [x|].
  - intros [= <-]. right. by apply IH.
  - destruct (String.eqb_spec k' k) as [->|]; [|done]. intros [= <-]. by left.
Qed.

(** Setting a key to the value it has. *)
Lemma set_same o k v : NoDup (map fst o) -> (k, v) ∈ o -> set o k v = o.
Proof.
  induction o as [|[k' w] o IH]; simpl; [by intros _ ?%elem_of_nil|].
  intros [Hk' Ho]%NoDup_cons Hin.
  apply elem_of_cons in Hin as [[= -> ->]|Hin].
  - rewrite String.eqb_refl. by rewrite (has_absent o k' Hk').
  - destruct (String.eqb_spec k' k) as [->|Hne].
    + exfalso. apply Hk'. apply list_elem_of_fmap. by exists (k, v).
    + by rewrite IH.
Qed.

End Props.

End ObjectFacts.

(** ** The hub at work: what every input keeps *)

Module HubRunSpec.
Import JsString Js Hub HubSpec HubApi.

Section WithPlatform.
Context `{Platform} {S : Type}.
Implicit Types (h : hub S) (e : DaibugEvent).

(** *** What the steps of the pipeline leave alone *)

Lemma addEvent_frame e h :
  interactions (addEvent e h) = interactions h
  /\ connectedTabs (addEvent e h) = connectedTabs h
  /\ locked (addEvent e h) = locked h
  /\ seq (addEvent e h) = seq h /\ inBatch (addEvent e h) = inBatch h
  /\ ticks (addEvent e h) = ticks h /\ timeline (addEvent e h) = timeline h
  /\ redact (addEvent e h) = redact h.
Proof.
  unfold addEvent.
  destruct (wss (set_buffer _ h)); destruct (notify _ _ _ _ _) as [[? ?] ?]; done.
Qed.

Lemma updateConnectedTab_frame p h :
  buffer (updateConnectedTabFromPayload p h) = buffer h
  /\ interactions (updateConnectedTabFromPayload p h) = interactions h
  /\ wss (updateConnectedTabFromPayload p h) = wss h
  /\ eventListeners (updateConnectedTabFromPayload p h) = eventListeners h
  /\ locked (updateConnectedTabFromPayload p h) = locked h
  /\ redact (updateConnectedTabFromPayload p h) = redact h.
Proof.
  unfold updateConnectedTabFromPayload.
  destruct (get p "tabId"); try done.
  by destruct (tabs_get (connectedTabs h) n).
Qed.

Lemma upsertConnectedTab_frame t url title h :
  buffer (upsertConnectedTab t url title h) = buffer h
  /\ interactions (upsertConnectedTab t url title h) = interactions h
  /\ wss (upsertConnectedTab t url title h) = wss h
  /\ locked (upsertConnectedTab t url title h) = locked h.
Proof.
  unfold upsertConnectedTab. by destruct (tabs_get (connectedTabs h) t).
Qed.

Lemma createEvent_frame src lvl p h :
  buffer (createEvent src lvl p h).2 = buffer h
  /\ interactions (createEvent src lvl p h).2 = interactions h
  /\ wss (createEvent src lvl p h).2 = wss h
  /\ eventListeners (createEvent src lvl p h).2 = eventListeners h
  /\ locked (createEvent src lvl p h).2 = locked h
  /\ redact (createEvent src lvl p h).2 = redact h.
Proof. unfold createEvent, Date_now. by destruct (inBatch h). Qed.

(** What [ingestEvent] does to the two rings, the clients and the detector. *)
Lemma ingestEvent_effect src lvl p h :
  exists stored message,
    buffer (ingestEvent src lvl p h)
    = (if (500 <=? Z.of_nat (length (buffer h)))%Z then tail (buffer h) else buffer h)
      ++ [stored]
    /\ interactions (ingestEvent src lvl p h) = interactions h
    /\ wss (ingestEvent src lvl p h) = send_to_open message <$> wss h
    /\ locked (ingestEvent src lvl p h) = locked h.
Proof.
  unfold ingestEvent.
  destruct (updateConnectedTab_frame p h) as (Hb1 & Hi1 & Hw1 & _ & Hl1 & _).
  set (h1 := updateConnectedTabFromPayload p h) in *.
  destruct (createEvent_frame src lvl p h1) as (Hb2 & Hi2 & Hw2 & _ & Hl2 & _).
  destruct (createEvent src lvl p h1) as [ev h2]. simpl in *.
  destruct (addEvent_spec (Redactor.redactEvent (redact h2) ev) h2)
    as (stored & Hbuf & _ & _ & Hwss).
  destruct (addEvent_frame (Redactor.redactEvent (redact h2) ev) h2)
    as (Hi3 & _ & Hl3 & _).
  exists stored, (default "" (JSON.stringify (event_object (Redactor.redactEvent (redact h2) ev)))).
  rewrite Hbuf, Hwss, Hi3, Hl3, Hb2, Hb1, Hi2, Hi1, Hw2, Hw1, Hl2, Hl1. done.
Qed.

(** What a frame from a browser can do: nothing, register a tab, record an
    interaction, or ingest an event. *)
Lemma handleWsMessage_cases rawData h :
  handleWsMessage rawData h = h
  \/ (exists t url title, handleWsMessage rawData h = upsertConnectedTab t url title h)
  \/ (exists item h',
        handleWsMessage rawData h
        = set_interactions (RingBuffer.push_items 200 item (interactions h)) h'
        /\ buffer h' = buffer h /\ wss h' = wss h /\ locked h' = locked h)
  \/ (exists src lvl p, handleWsMessage rawData h = ingestEvent src lvl p h).
Proof.
  unfold handleWsMessage.
  destruct (JSON.parse rawData) as [msg|]; [|by left].
  destruct (strict_eq (prop msg "type") (Str "browser_tab_info")).
  { destruct msg; try (by left);
      destruct (prop _ "tabId"); try (by left);
      destruct (prop _ "tabUrl"); try (by left);
      destruct (prop _ "tabTitle"); try (by left);
      right; left; by eexists _, _, _. }
  destruct (strict_eq (prop msg "type") (Str "browser_interaction")).
  { destruct msg; try (by left);
      right; right; left; unfold Date_now; cbv zeta; cbv beta iota;
      eexists _, _; (split; [reflexivity|done]). }
  destruct (strict_eq (prop msg "type") (Str "browser_storage")).
  { destruct msg; try (by left);
      match goal with
      | |- context [normalizePayload ?g] => destruct (normalizePayload g)
      end; try (by left); right; right; right; by eexists _, _, _. }
  destruct (strict_eq (prop msg "type") (Str "browser_event")).
  all: destruct msg; try (by left);
    destruct (normalizeEventSource _); try (by left);
    destruct (normalizeEventLevel _); try (by left);
    destruct (normalizePayload _); try (by left);
    right; right; right; by eexists _, _, _.
Qed.

(** *** Clients *)

Lemma client_after_refl c : client_after c c.
Proof. done. Qed.

Lemma client_after_trans c1 c2 c3 :
  client_after c1 c2 -> client_after c2 c3 -> client_after c1 c3.
Proof.
  intros (Hs1 & Hp1 & Hc1) (Hs2 & Hp2 & Hc2). split; [congruence|]. split.
  - by etrans.
  - intros Hne. rewrite Hc2 by congruence. by apply Hc1.
Qed.

Lemma server_after_refl w : server_after w w.
Proof. destruct w as [clients|]; [|done]. simpl. apply Forall2_same_length_lookup_2; [done|].
  intros i c c' Hc Hc'. rewrite Hc in Hc'. injection Hc' as <-. apply client_after_refl.
Qed.

Lemma server_after_trans w1 w2 w3 :
  server_after w1 w2 -> server_after w2 w3 -> server_after w1 w3.
Proof.
  destruct w1 as [c1|], w2 as [c2|], w3 as [c3|]; simpl; try done.
  intros H12 H23. revert c3 H23.
  induction H12 as [|a b l k Hab _ IH]; intros c3 H23.
  - by apply Forall2_nil_inv_l in H23 as ->.
  - apply Forall2_cons_inv_l in H23 as (c & k' & Hbc & Hk & ->).
    constructor; [by eapply client_after_trans|by apply IH].
Qed.

Lemma send_to_open_after message w : server_after w (send_to_open message <$> w).
Proof.
  destruct w as [clients|]; [|done]. simpl.
  induction clients as [|c clients IH]; simpl; constructor; [|done].
  destruct (Z.eqb_spec (readyState c) 1) as [Heq|Hne].
  - split; [done|]. split; [by apply prefix_app_r|done].
  - apply client_after_refl.
Qed.

(** *** One input *)

Lemma ingestEvent_keeps src lvl p h :
  (length (buffer h) <= 500 -> length (buffer (ingestEvent src lvl p h)) <= 500)
  /\ interactions (ingestEvent src lvl p h) = interactions h
  /\ server_after (wss h) (wss (ingestEvent src lvl p h)).
Proof.
  destruct (ingestEvent_effect src lvl p h) as (stored & message & Hb & Hi & Hw & _).
  split; [|split; [done|rewrite Hw; apply send_to_open_after]].
  intros Hlen. rewrite Hb.
  pose proof (RingBufferSpec.push_items_length 500 stored (buffer h)) as Hpush.
  unfold RingBuffer.push_items in Hpush. lia.
Qed.

Lemma on_child_data_keeps lvl data h :
  (length (buffer h) <= 500 -> length (buffer (on_child_data lvl data h)) <= 500)
  /\ interactions (on_child_data lvl data h) = interactions h
  /\ server_after (wss h) (wss (on_child_data lvl data h)).
Proof.
  unfold on_child_data.
  destruct (String.eqb (trim data) ""); [split; [done|split; [done|apply server_after_refl]]|].
  destruct (classifyLine_frame (trim data) h) as [l Hl].
  destruct (classifyLine (trim data) h) as [src h1]. simpl in Hl. subst h1.
  apply (ingestEvent_keeps src lvl _ (set_locked l h)).
Qed.

Lemma handleWsMessage_keeps rawData h :
  (length (buffer h) <= 500 -> length (buffer (handleWsMessage rawData h)) <= 500)
  /\ (length (interactions h) <= 200 ->
      length (interactions (handleWsMessage rawData h)) <= 200)
  /\ server_after (wss h) (wss (handleWsMessage rawData h)).
Proof.
  destruct (handleWsMessage_cases rawData h)
    as [->|[(t & url & title & ->)|[(item & h' & -> & Hb & Hw & _)|(src & lvl & p & ->)]]].
  - split; [done|split; [done|apply server_after_refl]].
  - destruct (upsertConnectedTab_frame t url title h) as (-> & -> & -> & _).
    split; [done|split; [done|apply server_after_refl]].
  - simpl. rewrite Hb, Hw. split; [done|]. split; [|apply server_after_refl].
    intros Hlen.
    pose proof (RingBufferSpec.push_items_length 200 item (interactions h)). lia.
  - destruct (ingestEvent_keeps src lvl p h) as (Hb & -> & Hw). done.
Qed.

Lemma onBrowserEvent_keeps (l : handler S) h :
  length (buffer (onBrowserEvent l h)) = length (buffer h)
  /\ interactions (onBrowserEvent l h) = interactions h
  /\ wss (onBrowserEvent l h) = wss h.
Proof.
  unfold onBrowserEvent.
  set (h1 := set_eventListeners _ h).
  change (buffer h1) with (buffer h).
  destruct (SubscriptionSpec.replay_spec l (buffer h) (eventListeners h1) (closures h1))
    as (_ & Hids & _).
  destruct (replay l (buffer h) _ _) as [[events ls] s]. simpl in *.
  split; [|done].
  by rewrite <- (length_map id events), Hids, length_map.
Qed.

Lemma step_keeps h (i : input S) :
  (length (buffer h) <= 500 -> length (buffer (step h i)) <= 500)
  /\ (length (interactions h) <= 200 -> length (interactions (step h i)) <= 200)
  /\ server_after (wss h) (wss (step h i)).
Proof.
  unfold step.
  destruct i as [data|data|rawData|l|command|]; simpl.
  - destruct (on_child_data_keeps Info data h) as (Hb & Hi & Hw).
    unfold on_stdout_data. by rewrite Hi.
  - destruct (on_child_data_keeps Warn data h) as (Hb & Hi & Hw).
    unfold on_stderr_data. by rewrite Hi.
  - apply handleWsMessage_keeps.
  - destruct (onBrowserEvent_keeps l h) as (-> & -> & ->).
    split; [done|split; [done|apply server_after_refl]].
  - unfold broadcastCommand. destruct (wss h) as [clients|] eqn:Hw; simpl.
    + split; [done|]. split; [done|].
      apply (send_to_open_after _ (Some clients)).
    + rewrite Hw. done.
  - split; [lia|]. split; [done|apply server_after_refl].
Qed.

(** X1.  Whatever reaches the hub, in any order, the event ring never
    holds more than 500 events and the ring of interactions never more than
    200 (both start empty). *)
Theorem hub_rings_stay_bounded (h : hub S) (inputs : list (input S)) :
  length (buffer h) <= 500 ->
  length (interactions h) <= 200 ->
  length (buffer (run h inputs)) <= 500
  /\ length (interactions (run h inputs)) <= 200.
Proof.
  revert h. induction inputs as [|i inputs IH]; intros h Hb Hi; [done|].
  simpl. destruct (step_keeps h i) as (Hb' & Hi' & _).
  apply IH; auto.
Qed.

(** X2.  Whatever reaches the hub, a client keeps the frames it has
    received, in order, and a client that is not open ([readyState] other
    than 1) is never sent anything: the hub sends to open clients only. *)
Theorem hub_sends_to_open_clients_only (h : hub S) (inputs : list (input S)) :
  server_after (wss h) (wss (run h inputs)).
Proof.
  revert h. induction inputs as [|i inputs IH]; intros h; [apply server_after_refl|].
  simpl. destruct (step_keeps h i) as (_ & _ & Hw).
  eapply server_after_trans; [exact Hw|apply IH].
Qed.

End WithPlatform.

(** The theorem on the hub that has just started, given a chunk of output
    and then the frame of an unknown type. *)
Lemma hub_rings_stay_bounded_witness :
  let h := run (H:=SamplePlatform.platform) Samples.sample_hub
             [StdoutData Samples.s4_chunk; WsMessage Samples.s5_frame] in
  length (buffer h) <= 500 /\ length (interactions h) <= 200.
Proof.
  apply (hub_rings_stay_bounded (H:=SamplePlatform.platform) Samples.sample_hub
           [StdoutData Samples.s4_chunk; WsMessage Samples.s5_frame]); simpl; lia.
Defined.

End HubRunSpec.

(** ** The hub: edges of its inputs *)

Module HubEdgeSpec.
Import JsString Js Hub HubSpec HubApi Samples.

Section WithPlatform.
Context `{Platform} {S : Type}.
Implicit Types (h : hub S) (e : DaibugEvent).


(** *** The registry of tabs *)

Lemma tabs_get_set tabs t info : tabs_get (tabs_set tabs t info) t = Some info.
Proof.
  induction tabs as [|[k old] tabs IH]; simpl.
  - by rewrite Z.eqb_refl.
  - destruct (Z.eqb_spec k t) as [->|Hne]; simpl.
    + by rewrite Z.eqb_refl.
    + by destruct (Z.eqb_spec k t).
Qed.

Lemma tabs_get_set_other tabs t info t' :
  t' <> t -> tabs_get (tabs_set tabs t info) t' = tabs_get tabs t'.
Proof.
  intros Hne. induction tabs as [|[k old] tabs IH]; simpl.
  - destruct (Z.eqb_spec t t'); [congruence|done].
  - destruct (Z.eqb_spec k t) as [->|Hk]; simpl.
    + destruct (Z.eqb_spec t t'); [congruence|done].
    + by rewrite IH.
Qed.

(** X4.  A [browser_tab_info] message with a numeric [tabId] and string
    [tabUrl] and [tabTitle] registers the tab under its id with that url and
    title; the time of connection is the clock's for a new tab and is kept
    for a tab that was registered; the other tabs, the rings and the clients
    are left as they were. *)
Theorem tab_info_registers_tab (rawData : string) (msg : list (string * value))
    (t : Z) (url title : string) h :
  JSON.parse rawData = Some (Obj msg) ->
  get msg "type" = Str "browser_tab_info" ->
  get msg "tabId" = Num t ->
  get msg "tabUrl" = Str url ->
  get msg "tabTitle" = Str title ->
  let h' := handleWsMessage rawData h in
  tabs_get (connectedTabs h') t
  = Some {| tabId := t; tab_url := url; tab_title := title;
            connectedAt := match tabs_get (connectedTabs h) t with
                           | Some known => connectedAt known
                           | None => timeline h (ticks h)
                           end |}
  /\ (forall t', t' <> t -> tabs_get (connectedTabs h') t' = tabs_get (connectedTabs h) t')
  /\ buffer h' = buffer h /\ interactions h' = interactions h /\ wss h' = wss h.
Proof.
  intros Hparse Htype Hid Hurl Htitle h'. subst h'.
  unfold handleWsMessage. rewrite Hparse. unfold prop. rewrite Htype, Hid, Hurl, Htitle.
  change (strict_eq (Str "browser_tab_info") (Str "browser_tab_info")) with true.
  cbv iota. unfold upsertConnectedTab, Date_now.
  destruct (tabs_get (connectedTabs h) t) as [known|]; simpl;
    (split; [apply tabs_get_set|]);
    (split; [intros t' Hne; by apply tabs_get_set_other|done]).
Qed.

Lemma createEvent_tabs src lvl p h :
  connectedTabs (createEvent src lvl p h).2 = connectedTabs h.
Proof. unfold createEvent, Date_now. by destruct (inBatch h). Qed.

(** X5.  Ingesting an event whose payload has a numeric [tabId] registers
    that tab: its url is [payload.tabUrl] when that is a string, else
    [payload.url] when that is a string, else the url already known, else
    the empty string; its title is [payload.tabTitle] or the title known or
    empty; the time of connection of a known tab is kept.  An event without
    a numeric [tabId] leaves the registry as it was. *)
Theorem ingested_event_registers_its_tab (src : EventSource) (lvl : EventLevel)
    (p : list (string * value)) h :
  let h' := ingestEvent src lvl p h in
  match get p "tabId" with
  | Num t =>
      let known := tabs_get (connectedTabs h) t in
      tabs_get (connectedTabs h') t
      = Some {| tabId := t;
                tab_url := match get p "tabUrl", get p "url" with
                           | Str u, _ => u
                           | _, Str u => u
                           | _, _ => from_option tab_url "" known
                           end;
                tab_title := match get p "tabTitle" with
                             | Str title => title
                             | _ => from_option tab_title "" known
                             end;
                connectedAt := match known with
                               | Some info => connectedAt info
                               | None => timeline h (ticks h)
                               end |}
      /\ forall t', t' <> t ->
           tabs_get (connectedTabs h') t' = tabs_get (connectedTabs h) t'
  | _ => connectedTabs h' = connectedTabs h
  end.
Proof.
  intros h'. subst h'. unfold ingestEvent.
  set (h1 := updateConnectedTabFromPayload p h).
  pose proof (createEvent_tabs src lvl p h1) as Hc.
  destruct (createEvent src lvl p h1) as [ev h2]. simpl in Hc.
  destruct (HubRunSpec.addEvent_frame (Redactor.redactEvent (redact h2) ev) h2)
    as (_ & -> & _).
  rewrite Hc. subst h1. unfold updateConnectedTabFromPayload, Date_now.
  destruct (get p "tabId") as [| | |t| | |]; try done.
  destruct (tabs_get (connectedTabs h) t) as [known|]; simpl;
    (split; [rewrite tabs_get_set; by destruct (get p "tabUrl"), (get p "url")|]);
    intros t' Hne; by apply tabs_get_set_other.
Qed.

(** *** The ids of events *)

(** The event that a chunk of output makes: its id, and the counters
    afterwards. *)
Lemma on_child_data_event lvl data h :
  trim data <> "" ->
  exists stored,
    last (buffer (on_child_data lvl data h)) = Some stored
    /\ id stored
       = "evt_" +:+ JSON.number (timeline h (ticks h)) +:+ "_"
         +:+ pad3 (if inBatch h then seq h + 1 else 1)
    /\ ts stored = timeline h (ticks h)
    /\ ticks (on_child_data lvl data h) = Datatypes.S (ticks h)
    /\ timeline (on_child_data lvl data h) = timeline h.
Proof.
  intros Hne. unfold on_child_data.
  destruct (String.eqb_spec (trim data) ""); [done|].
  destruct (classifyLine_frame (trim data) h) as [l Hl].
  destruct (classifyLine (trim data) h) as [src h1]. simpl in Hl. subst h1.
  unfold ingestEvent, updateConnectedTabFromPayload.
  change (get [("message", Str (trim data))] "tabId") with Undefined.
  unfold createEvent, Date_now.
  change (inBatch (set_locked l h)) with (inBatch h).
  destruct (inBatch h);
    lazy zeta; lazy iota; lazy beta;
    match goal with
    | |- context [addEvent ?ev ?h2] =>
        destruct (addEvent_spec ev h2) as (stored & Hbuf & [q ->] & _);
        destruct (HubRunSpec.addEvent_frame ev h2) as (_ & _ & _ & _ & _ & Ht & Htl & _);
        exists (with_payload ev q); rewrite Hbuf, Ht, Htl, last_snoc
    end; done.
Qed.

(** X6.  The sequence number in the id of an event counts the events of the
    current task only: it restarts at 001 when the microtasks have run.  So
    two chunks of output handled in two tasks while the clock shows the same
    millisecond give two events with the same id. *)
Theorem event_ids_restart_each_task (data1 data2 : string) h :
  inBatch h = false ->
  trim data1 <> "" ->
  trim data2 <> "" ->
  timeline h (Datatypes.S (ticks h)) = timeline h (ticks h) ->
  let h1 := step h (StdoutData data1) in
  let h2 := step h1 (StdoutData data2) in
  exists e1 e2,
    last (buffer h1) = Some e1 /\ last (buffer h2) = Some e2
    /\ id e1 = "evt_" +:+ JSON.number (timeline h (ticks h)) +:+ "_001"
    /\ id e2 = id e1.
Proof.
  intros Hbatch Hne1 Hne2 Hclock h1 h2. subst h1 h2. unfold step, on_stdout_data.
  destruct (on_child_data_event Info data1 h Hne1) as (e1 & Hlast1 & Hid1 & _ & Ht1 & Htl1).
  set (h1 := microtasks (on_child_data Info data1 h)).
  destruct (on_child_data_event Info data2 h1 Hne2) as (e2 & Hlast2 & Hid2 & _).
  exists e1, e2. rewrite Hbatch in Hid1.
  change (inBatch h1) with false in Hid2.
  change (ticks h1) with (ticks (on_child_data Info data1 h)) in Hid2.
  change (timeline h1) with (timeline (on_child_data Info data1 h)) in Hid2.
  rewrite Ht1, Htl1, Hclock in Hid2.
  split; [exact Hlast1|]. split; [exact Hlast2|]. split; [exact Hid1|].
  by rewrite Hid1, Hid2.
Qed.

(** *** The source of a line of output *)

Lemma classifyLine_spec line h :
  (classifyLine line h).1
  = match identified line with
    | Some s => s
    | None =>
        match locked h with
        | Some s => s
        | None => if RegExp.test URL_PATTERN line then Devserver else Vite
        end
    end
  /\ locked (classifyLine line h).2
     = match identified line with
       | Some s => Some s
       | None =>
           match locked h with
           | Some s => Some s
           | None => if RegExp.test URL_PATTERN line then Some Devserver else None
           end
       end.
Proof.
  unfold classifyLine, Detector.detector_classifyOutput, identified.
  destruct (Detector.some_matches Detector.NEXT_OUTPUT_PATTERNS line); [done|].
  destruct (Detector.some_matches Detector.VITE_OUTPUT_PATTERNS line); [done|].
  destruct (locked h) as [[]|] eqn:Hl; simpl; rewrite ?Hl; try done.
  by destruct (RegExp.test URL_PATTERN line).
Qed.

Lemma last_identified_snoc lines line :
  last_identified (lines ++ [line])
  = match identified line with Some s => Some s | None => last_identified lines end.
Proof.
  unfold last_identified. rewrite rev_app_distr. simpl.
  by destruct (identified line).
Qed.

Lemma classify_all_lock lines h :
  locked (classify_all lines h)
  = match last_identified lines with
    | Some s => Some s
    | None =>
        match locked h with
        | Some s => Some s
        | None => if existsb (RegExp.test URL_PATTERN) lines then Some Devserver else None
        end
    end.
Proof.
  induction lines as [|line lines IH] using rev_ind.
  - simpl. by destruct (locked h).
  - unfold classify_all. rewrite foldl_app. simpl. fold (classify_all lines h).
    rewrite (proj2 (classifyLine_spec line (classify_all lines h))), IH.
    rewrite last_identified_snoc, existsb_app. simpl. rewrite orb_false_r.
    destruct (identified line); [done|].
    destruct (last_identified lines); [done|].
    destruct (locked h); [done|].
    by destruct (existsb _ lines), (RegExp.test URL_PATTERN line).
Qed.

(** X7.  The source that the hub gives to a line of the child's output,
    after any lines before it: the framework whose pattern the line matches;
    else the framework seen last in the lines before; else the source the
    detector was locked on at the start; else devserver when the line or a
    line before it holds a URL, and vite when none does.  With a detector
    that started unlocked or locked on vite, next or devserver, the source is
    one of these three. *)
Theorem source_of_line_after_history (lines : list string) (line : string) h :
  let given := (classifyLine line (classify_all lines h)).1 in
  given
  = match identified line with
    | Some s => s
    | None =>
        match last_identified lines with
        | Some s => s
        | None =>
            match locked h with
            | Some s => s
            | None =>
                if existsb (RegExp.test URL_PATTERN) (lines ++ [line])
                then Devserver else Vite
            end
        end
    end
  /\ ((forall s, locked h = Some s -> server_source s) -> server_source given).
Proof.
  intros given. subst given.
  rewrite (proj1 (classifyLine_spec line (classify_all lines h))), classify_all_lock.
  rewrite existsb_app. simpl. rewrite orb_false_r.
  assert (forall l s, identified l = Some s -> server_source s) as Hid.
  { intros l s. unfold identified, server_source.
    destruct (Detector.some_matches _ l); [intros [= <-]; auto|].
    destruct (Detector.some_matches _ l); [intros [= <-]; auto|done]. }
  assert (forall s, last_identified lines = Some s -> server_source s) as Hlast.
  { intros s. unfold last_identified. intros Hhead.
    apply head_Some_elem_of in Hhead.
    apply list_elem_of_omap in Hhead as (l & _ & Hl). by eapply Hid. }
  split.
  - destruct (identified line); [done|].
    destruct (last_identified lines); [done|].
    destruct (locked h); [done|].
    by destruct (existsb _ lines), (RegExp.test URL_PATTERN line).
  - intros Hlocked.
    destruct (identified line) eqn:Hline; [by eapply Hid|].
    destruct (last_identified lines) eqn:Hseen; [by apply Hlast|].
    destruct (locked h) eqn:Hl; [by apply Hlocked|].
    unfold server_source.
    destruct (existsb _ lines), (RegExp.test URL_PATTERN line); auto.
Qed.

(** *** Reading the interactions *)

Lemma slice_from {A} (k : nat) (l : list A) :
  JsArray.slice (Z.of_nat k) None l = drop k l.
Proof.
  unfold JsArray.slice, JsArray.clamp.
  destruct (Z.ltb_spec (Z.of_nat k) 0); [lia|].
  destruct (decide (k <= length l)).
  - replace (Z.to_nat (Z.min (Z.of_nat k) (Z.of_nat (length l)))) with k by lia.
    apply take_ge. rewrite length_drop. lia.
  - replace (Z.to_nat (Z.min (Z.of_nat k) (Z.of_nat (length l)))) with (length l) by lia.
    rewrite !drop_ge by lia. by rewrite take_nil.
Qed.

Lemma slice_last {A} (n : Z) (l : list A) :
  (0 < n)%Z ->
  JsArray.slice (- n) None l = drop (length l - Z.to_nat n) l.
Proof.
  intros Hn. unfold JsArray.slice, JsArray.clamp.
  destruct (Z.ltb_spec (- n) 0); [|lia].
  replace (Z.to_nat (Z.max (Z.of_nat (length l) + - n) 0))
    with (length l - Z.to_nat n) by lia.
  apply take_ge. rewrite length_drop. lia.
Qed.

(** X8.  [getInteractions(limit)] returns every interaction, oldest first,
    when no limit is given, when the limit is zero and when the limit is at
    least their number; a limit between 1 and their number gives the last
    [limit] of them; and a negative limit [-k] gives all but the first [k]. *)
Theorem getInteractions_limits (limit : option Z) h :
  getInteractions limit h
  = match limit with
    | None => interactions h
    | Some n =>
        if (n <? 0)%Z then drop (Z.to_nat (- n)) (interactions h)
        else if (n =? 0)%Z then interactions h
        else drop (length (interactions h) - Z.to_nat n) (interactions h)
    end.
Proof.
  unfold getInteractions. destruct limit as [n|]; [|done].
  destruct (Z.ltb_spec n 0) as [Hneg|Hpos].
  - destruct (Z.ltb_spec n (Z.of_nat (length (interactions h)))); [|lia].
    replace (- n)%Z with (Z.of_nat (Z.to_nat (- n))) at 1 by lia.
    apply slice_from.
  - destruct (Z.eqb_spec n 0) as [->|Hne].
    + destruct (Z.ltb_spec 0 (Z.of_nat (length (interactions h)))); [|done].
      apply (slice_from 0).
    + destruct (Z.ltb_spec n (Z.of_nat (length (interactions h)))).
      * apply slice_last. lia.
      * replace (length (interactions h) - Z.to_nat n) with 0 by lia. done.
Qed.

End WithPlatform.


(** The hub learns of the tab 7 at the time 1000. *)
Lemma tab_info_registers_tab_witness :
  tabs_get (connectedTabs (handleWsMessage (H:=SamplePlatform.platform) s7_frame sample_hub)) 7
  = Some {| tabId := 7; tab_url := "http://localhost:3000/"; tab_title := "Home";
            connectedAt := 1000 |}.
Proof.
  exact (proj1 (tab_info_registers_tab (H:=SamplePlatform.platform) s7_frame s7_message 7
                  "http://localhost:3000/" "Home" sample_hub
                  eq_refl eq_refl eq_refl eq_refl eq_refl)).
Defined.

(** Two lines that arrive in the same millisecond, in two tasks. *)
Lemma event_ids_restart_each_task_witness :
  let h1 := step (H:=SamplePlatform.platform) steady_hub (StdoutData "a") in
  let h2 := step (H:=SamplePlatform.platform) h1 (StdoutData "b") in
  exists e1 e2,
    last (buffer h1) = Some e1 /\ last (buffer h2) = Some e2
    /\ id e1 = "evt_1000_001" /\ id e2 = id e1.
Proof.
  apply (event_ids_restart_each_task (H:=SamplePlatform.platform) "a" "b" steady_hub);
    [reflexivity|discriminate|discriminate|reflexivity].
Defined.

End HubEdgeSpec.

(** ** The listeners of the hub *)

Module ListenerSpec.
Import JsString Js Hub HubSpec HubApi.

Section WithPlatform.
Context {S : Type}.
Implicit Types (h : hub S) (e : DaibugEvent) (l : handler S) (ls : list (handler S)).

Lemma unsubscribe_absent ident ls l :
  Forall (fun x => handler_id x <> ident) ls ->
  handler_id l = ident ->
  forall rest, unsubscribe ident (ls ++ l :: rest) = ls ++ rest.
Proof.
  intros Hls Hl rest. induction Hls as [|x ls Hx _ IH]; simpl.
  - by rewrite Hl, Nat.eqb_refl.
  - destruct (Nat.eqb_spec (handler_id x) ident); [done|]. by rewrite IH.
Qed.

(** Two lists of listeners that differ in a first part, of the same
    identities, are still so after an unsubscription. *)
Lemma unsubscribe_related ident (p p' : list (handler S)) q :
  Forall2 same_identity p p' ->
  exists p1 p1' q1,
    unsubscribe ident (p ++ q) = p1 ++ q1
    /\ unsubscribe ident (p' ++ q) = p1' ++ q1
    /\ Forall2 same_identity p1 p1' /\ length p1 <= length p.
Proof.
  induction 1 as [|a b p p' Hab Hp IH]; simpl.
  - exists [], [], (unsubscribe ident q). simpl. repeat split; [constructor|lia].
  - rewrite <- Hab.
    destruct (Nat.eqb_spec (handler_id a) ident).
    + exists p, p', q. repeat split; [done|lia].
    + destruct IH as (p1 & p1' & q1 & -> & -> & Hrel & Hlen).
      exists (a :: p1), (b :: p1'), q1. simpl. repeat split; [by constructor|lia].
Qed.

Lemma unsubscribe_all_related idents (p p' : list (handler S)) q :
  Forall2 same_identity p p' ->
  exists p1 p1' q1,
    unsubscribe_all idents (p ++ q) = p1 ++ q1
    /\ unsubscribe_all idents (p' ++ q) = p1' ++ q1
    /\ Forall2 same_identity p1 p1' /\ length p1 <= length p.
Proof.
  revert p p' q. induction idents as [|ident idents IH]; intros p p' q Hrel; simpl.
  - exists p, p', q. by repeat split.
  - destruct (unsubscribe_related ident p p' q Hrel) as (p1 & p1' & q1 & -> & -> & Hrel1 & Hlen1).
    destruct (IH p1 p1' q1 Hrel1) as (p2 & p2' & q2 & -> & -> & Hrel2 & Hlen2).
    exists p2, p2', q2. repeat split; [done|lia].
Qed.

Lemma notify_S fuel i e ls (s : S) :
  notify (Datatypes.S fuel) i e ls s
  = match ls !! i with
    | None => (e, ls, s)
    | Some listener =>
        notify fuel (Datatypes.S i) (with_payload e (written (handle listener e s)))
          (unsubscribe_all (unsubscribed (handle listener e s)) ls)
          (next (handle listener e s))
    end.
Proof. reflexivity. Qed.

(** The listeners before the position of the loop are not called. *)
Lemma notify_same fuel j e (p p' : list (handler S)) q s :
  Forall2 same_identity p p' ->
  length p <= j ->
  (notify fuel j e (p ++ q) s).1.1 = (notify fuel j e (p' ++ q) s).1.1
  /\ (notify fuel j e (p ++ q) s).2 = (notify fuel j e (p' ++ q) s).2.
Proof.
  revert j e p p' q s. induction fuel as [|fuel IH]; intros j e p p' q s Hrel Hj; [done|].
  simpl. pose proof (Forall2_length _ _ _ Hrel) as Hlen.
  rewrite !lookup_app_r by lia. rewrite <- Hlen.
  destruct (q !! (j - length p)) as [l|]; [|done].
  destruct (unsubscribe_all_related (unsubscribed (handle l e s)) p p' q Hrel)
    as (p1 & p1' & q1 & -> & -> & Hrel1 & Hlen1).
  apply IH; [done|lia].
Qed.

(** The loop through listeners that do not unsubscribe. *)
Lemma notify_through (pre : list (handler S)) :
  Forall (fun x => forall e s, unsubscribed (handle x e s) = []) pre ->
  forall done_ rest fuel e s,
    exists e' s',
      notify (length pre + fuel) (length done_) e (done_ ++ pre ++ rest) s
      = notify fuel (length done_ + length pre) e' (done_ ++ pre ++ rest) s'
      /\ forall rest',
           notify (length pre + fuel) (length done_) e (done_ ++ pre ++ rest') s
           = notify fuel (length done_ + length pre) e' (done_ ++ pre ++ rest') s'.
Proof.
  induction 1 as [|x pre Hx _ IH]; intros done_ rest fuel e s.
  - exists e, s. simpl. rewrite Nat.add_0_r. done.
  - destruct (IH (done_ ++ [x]) rest fuel (with_payload e (written (handle x e s)))
                (next (handle x e s))) as (e' & s' & Heq & Hall).
    exists e', s'.
    assert (forall rest',
              notify (length (x :: pre) + fuel) (length done_) e
                (done_ ++ (x :: pre) ++ rest') s
              = notify fuel (length done_ + length (x :: pre)) e'
                  (done_ ++ (x :: pre) ++ rest') s') as Hgoal.
    { intros rest'. specialize (Hall rest').
      rewrite length_app in Hall. simpl in Hall.
      rewrite <- !app_assoc in Hall. simpl in Hall.
      simpl. rewrite lookup_app_r by lia. rewrite Nat.sub_diag. simpl.
      rewrite Hx. simpl.
      replace (Datatypes.S (length done_)) with (length done_ + 1) by lia.
      rewrite Hall. f_equal. lia. }
    split; [apply Hgoal|exact Hgoal].
Qed.

(** X9.  When a listener unsubscribes itself while an event is delivered,
    the listener subscribed right after it is not called for that event:
    the loop over the listeners goes by position, and the unsubscription
    moves the next listener into the position just visited.  Here the
    listeners before [A] never unsubscribe, [A] always unsubscribes itself,
    and whatever the listener [B] after it would do, the ring, the clients
    and the closures are the same after [addEvent]. *)
Theorem self_unsubscription_skips_next_listener
    (pre post : list (handler S)) (A B B' : handler S) e h :
  eventListeners h = pre ++ A :: B :: post ->
  Forall (fun x => handler_id x <> handler_id A
                   /\ forall e s, unsubscribed (handle x e s) = []) pre ->
  (forall e s, unsubscribed (handle A e s) = [handler_id A]) ->
  handler_id B' = handler_id B ->
  let h' := set_eventListeners (pre ++ A :: B' :: post) h in
  buffer (addEvent e h) = buffer (addEvent e h')
  /\ closures (addEvent e h) = closures (addEvent e h')
  /\ wss (addEvent e h) = wss (addEvent e h').
Proof.
  intros Hls Hpre HA HB h'. subst h'.
  assert (Forall (fun x => forall e s, unsubscribed (handle x e s) = []) pre) as Hquiet
    by (eapply Forall_impl; [exact Hpre|]; by intros x [_ Hx]).
  assert (Forall (fun x => handler_id x <> handler_id A) pre) as Hfresh
    by (eapply Forall_impl; [exact Hpre|]; by intros x [Hx _]).
  unfold addEvent.
  set (h1 := set_buffer _ h). set (h1' := set_buffer _ (set_eventListeners _ h)).
  set (h2 := match wss h1 with Some _ => _ | None => h1 end).
  set (h2' := match wss h1' with Some _ => _ | None => h1' end).
  assert (buffer h2 = buffer h2' /\ wss h2 = wss h2' /\ closures h2 = closures h2'
          /\ eventListeners h2 = pre ++ A :: B :: post
          /\ eventListeners h2' = pre ++ A :: B' :: post) as (Hb & Hw & Hc & Hl & Hl').
  { subst h2 h2'. change (wss h1') with (wss h). change (wss h1) with (wss h).
    destruct (wss h) eqn:Hwss; repeat split; try done. }
  rewrite Hl, Hl', <- Hc.
  set (e0 := e). set (s0 := closures h2).
  assert ((notify (length (pre ++ A :: B :: post)) 0 e0 (pre ++ A :: B :: post) s0).1.1
          = (notify (length (pre ++ A :: B' :: post)) 0 e0 (pre ++ A :: B' :: post) s0).1.1
          /\ (notify (length (pre ++ A :: B :: post)) 0 e0 (pre ++ A :: B :: post) s0).2
             = (notify (length (pre ++ A :: B' :: post)) 0 e0 (pre ++ A :: B' :: post) s0).2)
    as [Hev Hst].
  { rewrite !length_app. simpl.
    destruct (notify_through pre Hquiet [] (A :: B :: post)
                (Datatypes.S (Datatypes.S (length post))) e0 s0)
      as (e' & s' & _ & Hall).
    cbn [app length Nat.add] in Hall.
    rewrite (Hall (A :: B :: post)), (Hall (A :: B' :: post)).
    rewrite !notify_S, !lookup_app_r by lia. rewrite Nat.sub_diag.
    change ((A :: B :: post) !! 0) with (Some A).
    change ((A :: B' :: post) !! 0) with (Some A).
    cbv iota. rewrite HA. cbn [unsubscribe_all foldl].
    rewrite !(unsubscribe_absent (handler_id A) pre A) by done.
    change (pre ++ B :: post) with (pre ++ [B] ++ post).
    change (pre ++ B' :: post) with (pre ++ [B'] ++ post).
    rewrite !app_assoc.
    apply notify_same.
    - apply Forall2_app; [|by constructor].
      apply Forall2_same_length_lookup_2; [done|].
      intros i x y Hx Hy. rewrite Hx in Hy. by injection Hy as <-.
    - rewrite length_app. simpl. lia. }
  destruct (notify _ _ _ (pre ++ A :: B :: post) _) as [[ev1 ls1] s1].
  destruct (notify _ _ _ (pre ++ A :: B' :: post) _) as [[ev2 ls2] s2].
  simpl in *. subst. rewrite Hb, Hw. done.
Qed.

(** X10.  The function that [onBrowserEvent] returns undoes the
    subscription: for a handler that was not subscribed before and that does
    not unsubscribe during the replay, calling it leaves the listeners as
    they were before the subscription. *)
Theorem unsubscribe_undoes_subscribe l h :
  Forall (fun x => handler_id x <> handler_id l) (eventListeners h) ->
  (forall e s, unsubscribed (handle l e s) = []) ->
  unsubscribe (handler_id l) (eventListeners (onBrowserEvent l h)) = eventListeners h.
Proof.
  intros Hfresh Hquiet. unfold onBrowserEvent.
  set (h1 := set_eventListeners _ h).
  destruct (SubscriptionSpec.replay_spec l (buffer h1) (eventListeners h1) (closures h1))
    as (_ & _ & Hls).
  specialize (Hls Hquiet).
  destruct (replay l (buffer h1) _ _) as [[events ls] s]. simpl in *. subst ls.
  rewrite (unsubscribe_absent (handler_id l) (eventListeners h) l Hfresh eq_refl []).
  apply app_nil_r.
Qed.

End WithPlatform.

(** A listener that unsubscribes itself, before a listener that counts:
    the hub ends the same whether the second listener counts or unsubscribes
    too, because it is not called. *)
Lemma self_unsubscription_skips_next_listener_witness :
  closures (addEvent Samples.s8_event
              (Samples.listening_hub [Samples.once 1; Samples.counting 2]))
  = closures (addEvent Samples.s8_event
                (Samples.listening_hub [Samples.once 1; Samples.once 2])).
Proof.
  pose proof (self_unsubscription_skips_next_listener [] []
                (Samples.once 1) (Samples.counting 2) (Samples.once 2) Samples.s8_event
                (Samples.listening_hub [Samples.once 1; Samples.counting 2])
                eq_refl (Forall_nil_2 _) (fun _ _ => eq_refl) eq_refl) as (_ & Hclosures & _).
  exact Hclosures.
Defined.

(** Subscribing a listener that counts, and unsubscribing it. *)
Lemma unsubscribe_undoes_subscribe_witness :
  unsubscribe 2
    (eventListeners (onBrowserEvent (Samples.counting 2)
                       (Samples.listening_hub [Samples.counting 1])))
  = [Samples.counting 1].
Proof.
  apply (unsubscribe_undoes_subscribe (Samples.counting 2)
           (Samples.listening_hub [Samples.counting 1])).
  - repeat constructor. simpl. lia.
  - intros e s. reflexivity.
Defined.

End ListenerSpec.

(** ** The watch-rule engine: its rules and its buffer *)

Module WatchEngineSpec.
Import JsString Js WatchRules WatchEngine.

(** *** Numbers in ids *)

Lemma numeral_value_number n : numeral_value (JSON.number n) = Some n.
Proof.
  unfold numeral_value, JSON.number.
  destruct (JSONSpec.to_int_proper n) as [H1 H2].
  rewrite (DecimalString.NilZero.isi _ H1 H2). simpl. by rewrite DecimalZ.of_to.
Qed.

Lemma numeral_value_zero c s :
  JSON.is_digit c = true ->
  numeral_value (String "0" (String c s)) = numeral_value (String c s).
Proof.
  intros Hc. unfold numeral_value, DecimalString.NilZero.int_of_string.
  change (Ascii.eqb "0" (Ascii.Ascii true false true true false true false false))
    with false.
  change (Ascii.Ascii true false true true false true false false) with "-"%char.
  rewrite (JSONSpec.digit_not_minus c Hc).
  unfold DecimalString.NilZero.uint_of_string.
  change (DecimalString.NilEmpty.uint_of_string (String "0" (String c s)))
    with (option_map Decimal.D0 (DecimalString.NilEmpty.uint_of_string (String c s))).
  by destruct (DecimalString.NilEmpty.uint_of_string (String c s)).
Qed.

Lemma number_digits n :
  (0 <= n)%Z -> JSON.all_digits (JSON.number n) = true /\ JSON.number n <> "".
Proof.
  intros Hn. unfold JSON.number.
  destruct n as [|p|p]; [done| |lia]. simpl.
  split; [apply JSONSpec.all_digits_uint0|apply JSONSpec.uint0_nonempty].
Qed.

Lemma pad3_value n : (0 <= n)%Z -> numeral_value (Hub.pad3 n) = Some n.
Proof.
  intros Hn. unfold Hub.pad3.
  destruct (number_digits n Hn) as [Hd Hne].
  rewrite <- (numeral_value_number n).
  destruct (JSON.number n) as [|c1 [|c2 [|c3 ds]]]; [done| | |].
  - simpl in Hd. rewrite andb_true_r in Hd.
    change (numeral_value (String "0" (String "0" (String c1 "")))
            = numeral_value (String c1 "")).
    rewrite numeral_value_zero by done. by apply numeral_value_zero.
  - simpl in Hd. apply andb_true_iff in Hd as [Hd _].
    change (numeral_value (String "0" (String c1 (String c2 "")))
            = numeral_value (String c1 (String c2 ""))).
    by apply numeral_value_zero.
  - done.
Qed.

Lemma digits_without c s :
  JSON.all_digits s = true -> JSON.is_digit c = false ->
  ~ In c (list_ascii_of_string s).
Proof.
  intros Hd Hc. induction s as [|x s IH]; simpl; [tauto|].
  simpl in Hd. apply andb_true_iff in Hd as [Hx Hs].
  intros [->|Hin]; [congruence|by apply IH].
Qed.

Lemma number_without c n :
  JSON.is_digit c = false -> c <> "-"%char -> ~ In c (list_ascii_of_string (JSON.number n)).
Proof.
  intros Hc Hminus. unfold JSON.number.
  destruct (Z.to_int n) as [d|d]; simpl.
  - apply digits_without; [apply JSONSpec.all_digits_uint0|done].
  - intros [Heq|Hin]; [congruence|].
    revert Hin. apply digits_without; [apply JSONSpec.all_digits_uint0|done].
Qed.

(** The text before the first occurrence of a character determines the
    text after it. *)
Lemma split_at_char c a a' b b' :
  ~ In c (list_ascii_of_string a) -> ~ In c (list_ascii_of_string a') ->
  a +:+ String c b = a' +:+ String c b' -> a = a' /\ b = b'.
Proof.
  revert a'. induction a as [|x a IH]; intros [|x' a'] Ha Ha';
    rewrite ?JSONSpec.app_nil_l, ?JSONSpec.app_cons; simpl in *.
  - by intros [= ->].
  - intros [= <- _]. tauto.
  - intros [= -> _]. tauto.
  - intros [= -> Heq]. destruct (IH a') as [-> ->]; [tauto|tauto|done|done].
Qed.

Lemma rule_id_of_inj now seq now' seq' :
  (0 <= seq)%Z -> (0 <= seq')%Z ->
  rule_id_of now seq = rule_id_of now' seq' -> seq = seq'.
Proof.
  intros Hs Hs' Heq. unfold rule_id_of in Heq.
  rewrite !JSONSpec.app_cons, !JSONSpec.app_nil_l in Heq.
  injection Heq as Heq.
  apply split_at_char in Heq as [_ Heq]; try (by apply number_without).
  pose proof (pad3_value seq Hs) as Hv. rewrite Heq, pad3_value in Hv by done.
  by injection Hv.
Qed.

(** *** The rules *)

Lemma remove_first_absent ident rs :
  ident ∉ map rule_id rs -> remove_first ident rs = None.
Proof.
  induction rs as [|r rs IH]; simpl; [done|].
  intros Hnot. apply not_elem_of_cons in Hnot as [Hne Hrest].
  destruct (String.eqb_spec (rule_id r) ident); [congruence|].
  by rewrite IH.
Qed.

Lemma remove_first_present ident pre r post :
  ident ∉ map rule_id pre -> rule_id r = ident ->
  remove_first ident (pre ++ r :: post) = Some (pre ++ post).
Proof.
  intros Hpre Hr. induction pre as [|x pre IH]; simpl.
  - by rewrite Hr, String.eqb_refl.
  - simpl in Hpre. apply not_elem_of_cons in Hpre as [Hne Hrest].
    destruct (String.eqb_spec (rule_id x) ident); [congruence|].
    by rewrite IH.
Qed.

Lemma remove_first_sublist ident rs rs' :
  remove_first ident rs = Some rs' -> rs' `sublist_of` rs.
Proof.
  revert rs'. induction rs as [|r rs IH]; intros rs'; simpl; [done|].
  destruct (String.eqb (rule_id r) ident).
  - intros [= <-]. by apply sublist_cons.
  - destruct (remove_first ident rs) as [rest|]; simpl; [|done].
    intros [= <-]. apply sublist_skip. by apply IH.
Qed.

(** X11.  [removeRule(id)] answers false and changes nothing when no rule
    has the id; otherwise it answers true and removes the first rule with
    the id, and only it: the rules before and after it stay, in their
    order. *)
Theorem removeRule_removes_one_rule (ident : string) (e : engine) :
  (ident ∉ map rule_id (rules e) -> removeRule ident e = (false, e))
  /\ (forall pre r post,
        rules e = pre ++ r :: post ->
        ident ∉ map rule_id pre -> rule_id r = ident ->
        removeRule ident e
        = (true, {| rules := pre ++ post; ruleSeq := ruleSeq e; store := store e |})).
Proof.
  split.
  - intros Habsent. unfold removeRule. by rewrite remove_first_absent.
  - intros pre r post Hrules Hpre Hr. unfold removeRule.
    by rewrite Hrules, remove_first_present.
Qed.

Section WithPlatform.
Context `{Platform}.

Lemma ids_given_fresh label source conditions now_id now_created e :
  ids_given e ->
  rule_id (addRule label source conditions now_id now_created e).1
  ∉ map rule_id (rules e).
Proof.
  intros (Hseq & Hall & _). simpl. intros Hin.
  apply list_elem_of_fmap in Hin as (r & Hid & Hr).
  rewrite Forall_forall in Hall. destruct (Hall r Hr) as (now & seq & Hrid & Hrange).
  rewrite Hrid in Hid. apply rule_id_of_inj in Hid; lia.
Qed.

Lemma evaluate_rules ev clock e : rules (evaluate ev clock e).2 = rules e
  /\ ruleSeq (evaluate ev clock e).2 = ruleSeq e.
Proof. unfold evaluate. by destruct (WatchRules.evaluate _ _ _ _). Qed.

Lemma do_call_ids_given e c : ids_given e -> ids_given (do_call e c).
Proof.
  intros Hinv. pose proof Hinv as (Hseq & Hall & Hnodup).
  destruct c as [label source conditions now_id now_created|ident|ev clock|]; simpl.
  - unfold ids_given. simpl. split; [lia|]. split.
    + apply Forall_app. split.
      * eapply Forall_impl; [exact Hall|]. simpl.
        intros r (now & seq & Hr & Hrange). exists now, seq. split; [done|lia].
      * constructor; [|constructor]. exists now_id, (ruleSeq e + 1)%Z. simpl.
        split; [done|lia].
    + rewrite map_app. simpl. apply NoDup_app. split; [done|]. split.
      * intros x Hx Hin. apply list_elem_of_singleton in Hin. subst x.
        by apply (ids_given_fresh label source conditions now_id now_created e Hinv).
      * apply NoDup_singleton.
  - unfold removeRule. destruct (remove_first ident (rules e)) as [rs|] eqn:Hrm; [|done].
    simpl. apply remove_first_sublist in Hrm.
    split; [done|]. split.
    + rewrite Forall_forall in Hall |- *. intros r Hr. apply Hall.
      by eapply elem_of_sublist.
    + eapply sublist_NoDup; [exact Hnodup|]. by apply fmap_sublist.
  - destruct (evaluate_rules ev clock e) as [Hr Hs].
    unfold ids_given. by rewrite Hr, Hs.
  - done.
Qed.

Lemma do_calls_ids_given evs calls : ids_given (do_calls (createWatchRuleEngine evs) calls).
Proof.
  assert (ids_given (createWatchRuleEngine evs)) as Hinit.
  { split; [done|]. split; [constructor|constructor]. }
  revert Hinit. generalize (createWatchRuleEngine evs).
  induction calls as [|c calls IH]; intros e He; [done|].
  simpl. apply IH. by apply do_call_ids_given.
Qed.

(** X12.  The rules of an engine never share an id, whatever calls it got:
    an id ends in the sequence number of its [addRule] call, which grows with
    every call.  So [removeRule] with the id that [addRule] has just returned
    removes that rule and no other, and gives the rules back as they were. *)
Theorem rule_ids_are_unique (evs : list DaibugEvent) (calls : list call)
    (label : string) (source : option EventSource) (conditions : WatchConditions)
    (now_id now_created : Z) :
  let e := do_calls (createWatchRuleEngine evs) calls in
  let added := addRule label source conditions now_id now_created e in
  NoDup (map rule_id (rules e))
  /\ (rule_id (added.1) ∉ map rule_id (rules e))
  /\ removeRule (rule_id (added.1)) (added.2)
     = (true, {| rules := rules e; ruleSeq := ruleSeq e + 1; store := store e |}).
Proof.
  intros e added.
  pose proof (do_calls_ids_given evs calls) as Hinv. fold e in Hinv.
  pose proof (ids_given_fresh label source conditions now_id now_created e Hinv) as Hfresh.
  split; [apply Hinv|]. split; [exact Hfresh|].
  subst added. unfold removeRule, addRule. cbn [fst snd rules ruleSeq store].
  rewrite (remove_first_present _ (rules e) _ []) by done.
  by rewrite app_nil_r.
Qed.

(** *** The buffer of watched events *)

Lemma addWatchedEvent_length buffer ev rule now :
  length (addWatchedEvent buffer ev rule now) <= 200.
Proof.
  unfold addWatchedEvent, WATCHED_CAPACITY.
  match goal with
  | |- context [(?a <? ?b)%nat] => destruct (Nat.ltb_spec a b)
  end.
  - rewrite length_take. lia.
  - lia.
Qed.

Lemma evaluate_rule_bounded ev clock acc rule :
  length (watchedEvents acc.2) <= 200 ->
  length (watchedEvents (evaluate_rule ev clock acc rule).2) <= 200.
Proof.
  destruct acc as [[matched tick] st]. simpl. intros Hlen.
  destruct (events st !! ev) as [e|]; [|done].
  destruct (rule_active rule); [|done]. simpl.
  destruct (sourceMatches _ _); [|done]. simpl.
  destruct (conditionsMatch _ _); [|done]. simpl.
  apply addWatchedEvent_length.
Qed.

Lemma evaluate_bounded ev clock e :
  length (watchedEvents (store e)) <= 200 ->
  length (watchedEvents (store (evaluate ev clock e).2)) <= 200.
Proof.
  intros Hlen. unfold evaluate, WatchRules.evaluate.
  assert (forall rs acc, length (watchedEvents acc.2) <= 200 ->
            length (watchedEvents (foldl (evaluate_rule ev clock) acc rs).2) <= 200) as Hfold.
  { induction rs as [|r rs IH]; intros acc Hacc; [done|].
    simpl. apply IH. by apply evaluate_rule_bounded. }
  specialize (Hfold (rules e) (false, 0, store e) Hlen).
  by destruct (foldl _ _ _) as [[matched tick] st].
Qed.

Lemma do_calls_bounded e calls :
  length (watchedEvents (store e)) <= 200 ->
  length (watchedEvents (store (do_calls e calls))) <= 200.
Proof.
  revert e. induction calls as [|c calls IH]; intros e Hlen; [done|].
  simpl. apply IH.
  destruct c as [label source conditions now_id now_created|ident|ev clock|]; simpl.
  - done.
  - unfold removeRule. by destruct (remove_first ident (rules e)).
  - by apply evaluate_bounded.
  - lia.
Qed.

(** X13.  [getWatchedEvents(limit)] returns the whole buffer, newest entry
    first, when no limit is given; nothing for a limit of zero or less; and
    the newest min(limit, 200) entries otherwise.  The buffer of an engine,
    whatever calls it got, never holds more than 200 entries. *)
Theorem getWatchedEvents_limits (evs : list DaibugEvent) (calls : list call)
    (limit : option Z) :
  let e := do_calls (createWatchRuleEngine evs) calls in
  getWatchedEvents limit e
  = match limit with
    | None => watchedEvents (store e)
    | Some n =>
        if (n <=? 0)%Z then []
        else take (Z.to_nat (Z.min n 200)) (watchedEvents (store e))
    end
  /\ length (watchedEvents (store e)) <= 200.
Proof.
  intros e. split.
  - unfold getWatchedEvents. destruct limit as [n|]; [|done].
    destruct (Z.leb_spec n 0); [done|].
    unfold JsArray.slice, JsArray.clamp, WATCHED_CAPACITY. simpl (0 <? 0)%Z. cbv iota.
    destruct (Z.ltb_spec (Z.min n (Z.of_nat 200)) 0); [lia|].
    replace (Z.to_nat (Z.min 0 (Z.of_nat (length (watchedEvents (store e)))))) with 0 by lia.
    rewrite drop_0, Nat.sub_0_r.
    destruct (decide (Z.to_nat (Z.min n 200) <= length (watchedEvents (store e)))).
    + f_equal. lia.
    + rewrite !take_ge by lia. done.
  - apply do_calls_bounded. simpl. lia.
Qed.

End WithPlatform.

End WatchEngineSpec.

(** ** The tools that read the event log *)

Module McpQueriesSpec.
Import JsString Js Hub McpTools McpQueries.

Lemma filter_sublist {A} (f : A -> bool) (l : list A) : List.filter f l `sublist_of` l.
Proof.
  induction l as [|x l IH]; simpl; [done|].
  destruct (f x); [by apply sublist_skip|by apply sublist_cons].
Qed.

Lemma get_events_filtered_sublist args events :
  get_events_filtered args events `sublist_of` events.
Proof.
  unfold get_events_filtered.
  repeat match goal with
         | |- context [match get args ?k with _ => _ end] => destruct (get args k)
         end;
    repeat (etrans; [apply filter_sublist|]); done.
Qed.

(** X14.  [get_events] keeps the events that pass its filters in the order
    of the ring and returns the last [limit] of them, [limit] being 50 when
    none is given and at most 500; but a limit of zero or less returns all
    of them, not none: [events.slice(-0)] is the whole array. *)
Theorem get_events_limit_zero_returns_all (args : list (string * value))
    (events : list DaibugEvent) :
  let filtered := get_events_filtered args events in
  get_events_selected args events
  = match get args "limit" with
    | Num n =>
        if (n <=? 0)%Z then filtered
        else drop (length filtered - Z.to_nat (Z.min n 500)) filtered
    | _ => drop (length filtered - 50) filtered
    end
  /\ filtered `sublist_of` events.
Proof.
  intros filtered. split; [|apply get_events_filtered_sublist].
  unfold get_events_selected, get_events_limit. fold filtered.
  destruct (get args "limit") as [| | |n| | |];
    try (rewrite HubEdgeSpec.slice_last by lia; reflexivity).
  destruct (Z.leb_spec n 0).
  - replace (Z.min (Z.max n 0) 500) with 0%Z by lia. apply (HubEdgeSpec.slice_from 0).
  - rewrite HubEdgeSpec.slice_last by lia. do 3 f_equal. lia.
Qed.

(** *** The network log *)

Lemma filter_elem {A} (f : A -> bool) (l : list A) x :
  x ∈ List.filter f l <-> x ∈ l /\ f x = true.
Proof. rewrite !list_elem_of_In. apply filter_In. Qed.

Lemma sorted_last_max (l : list DaibugEvent) e x :
  StronglySorted (fun a b => (ts a <= ts b)%Z) l ->
  last l = Some e -> x ∈ l -> (ts x <= ts e)%Z.
Proof.
  induction 1 as [|a l Hsorted IH Hall]; [done|].
  intros Hlast Hx. destruct l as [|b l].
  - injection Hlast as <-. apply list_elem_of_singleton in Hx. by subst.
  - change (last (a :: b :: l)) with (last (b :: l)) in Hlast.
    apply elem_of_cons in Hx as [->|Hx]; [|by apply IH].
    rewrite Forall_forall in Hall. apply Hall.
    by eapply last_Some_elem_of.
Qed.

Lemma sorted_sublist (l k : list DaibugEvent) :
  k `sublist_of` l ->
  StronglySorted (fun a b => (ts a <= ts b)%Z) l ->
  StronglySorted (fun a b => (ts a <= ts b)%Z) k.
Proof.
  induction 1 as [|x k l Hsub IH|x k l Hsub IH]; intros Hsorted.
  - constructor.
  - apply StronglySorted_inv in Hsorted as [Hl Hx].
    constructor; [by apply IH|].
    rewrite Forall_forall in Hx |- *. intros y Hy. apply Hx.
    by eapply elem_of_sublist.
  - apply StronglySorted_inv in Hsorted as [Hl _]. by apply IH.
Qed.

(** X15.  [get_network_log] reports an event at most once: when the ring
    holds its events in the order of their timestamps, all positive, and a
    call has returned some events, every event that the next call returns is
    newer than all of those, whatever the ring then holds; the cursor is the
    timestamp of the last event returned.  So an event stamped in the same
    millisecond as that last event, and any event that the filters of the
    first call left out, is never reported. *)
Theorem network_log_reports_newer_events_only (args1 args2 : list (string * value))
    (cursor : Z) (ring1 ring2 : list DaibugEvent) :
  StronglySorted (fun a b => (ts a <= ts b)%Z) ring1 ->
  Forall (fun e => (0 < ts e)%Z) ring1 ->
  let first := get_network_log_selected args1 cursor ring1 in
  let second := get_network_log_selected args2 first.2 ring2 in
  first.1 <> [] ->
  (exists e, last first.1 = Some e /\ first.2 = ts e)
  /\ (forall e1 e2, e1 ∈ first.1 -> e2 ∈ second.1 -> (ts e1 < ts e2)%Z)
  /\ (forall e2, e2 ∈ ring2 -> (ts e2 <= first.2)%Z -> e2 ∉ second.1).
Proof.
  intros Hsorted Hpos first second Hsome.
  assert (first.1 `sublist_of` ring1) as Hsub.
  { subst first. unfold get_network_log_selected. simpl.
    etrans; [apply filter_sublist|].
    destruct (0 <? cursor)%Z; [etrans; [apply filter_sublist|]|]; apply filter_sublist. }
  assert (exists e, last first.1 = Some e /\ first.2 = ts e) as (e & Hlast & Hcursor).
  { subst first. unfold get_network_log_selected in *. simpl in *.
    destruct (last _) as [e|] eqn:Hlast; [by exists e|].
    by apply last_None in Hlast. }
  assert (0 < first.2)%Z as Hcpos.
  { rewrite Hcursor. rewrite Forall_forall in Hpos. apply Hpos.
    eapply elem_of_sublist; [|exact Hsub]. by eapply last_Some_elem_of. }
  assert (forall e2, e2 ∈ second.1 -> (first.2 < ts e2)%Z) as Hnewer.
  { intros e2 He2. subst second. revert He2 Hcpos. generalize (first.2).
    intros c1 He2 Hc1. unfold get_network_log_selected in He2. cbn [fst] in He2.
    destruct (Z.ltb_spec 0 c1); [|lia].
    apply filter_elem in He2 as [He2 _]. apply filter_elem in He2 as [_ He2]. lia. }
  split; [by exists e|]. split.
  - intros e1 e2 He1 He2. specialize (Hnewer e2 He2).
    pose proof (sorted_last_max first.1 e e1 (sorted_sublist _ _ Hsub Hsorted) Hlast He1).
    lia.
  - intros e2 _ Hold Hin. specialize (Hnewer e2 Hin). lia.
Qed.

(** The log is read twice while the ring holds one failed request: the
    second reading holds nothing. *)
Lemma network_log_reports_newer_events_only_witness :
  let first := get_network_log_selected [] 0 [Samples.s8_event] in
  let second := get_network_log_selected [] first.2 [Samples.s8_event] in
  first.2 = 5%Z /\ Samples.s8_event ∉ second.1.
Proof.
  intros first second.
  destruct (network_log_reports_newer_events_only [] [] 0
              [Samples.s8_event] [Samples.s8_event]) as ((e & Hlast & Hcursor) & _ & Hold).
  - repeat constructor.
  - repeat constructor.
  - discriminate.
  - split.
    + injection Hlast as <-. exact Hcursor.
    + apply Hold; [apply list_elem_of_here|]. rewrite Hcursor.
      injection Hlast as <-. simpl. lia.
Defined.

End McpQueriesSpec.

(** ** What the scans of the sandbox see *)

Module SandboxScanSpec.
Import JsString Js RegExp McpTools.

(** Induction on atoms, through the groups. *)
Lemma atom_ind' (Q : atom -> Prop) :
  (forall c, Q (Chr c)) ->
  (forall cls min max, Q (Rep cls min max)) ->
  Q WordB ->
  (forall inner, Forall Q inner -> Q (Group inner)) ->
  forall a, Q a.
Proof.
  intros HChr HRep HWordB HGroup.
  exact (fix go (a : atom) : Q a :=
           match a with
           | Chr c => HChr c
           | Rep cls min max => HRep cls min max
           | WordB => HWordB
           | Group inner =>
               HGroup inner
                 ((fix all (l : list atom) : Forall Q l :=
                     match l with
                     | [] => Forall_nil_2 Q
                     | x :: l' => Forall_cons_2 Q x l' (go x) (all l')
                     end) inner)
           end).
Qed.

Lemma lacks_tail cls c s : lacks cls (String c s) -> lacks cls s.
Proof. unfold lacks. simpl. by inversion 1. Qed.

Section Matcher.
Context {R : Type} (cls : ascii -> bool).

(** An atom hands to its continuation a suffix of the text. *)
Lemma match_atom_fails ci (a : atom) :
  forall prev s caps (k : cont (R:=R)),
    lacks cls s -> fails cls k -> match_atom ci a prev s caps k = None.
Proof.
  induction a as [c|cls' min max| |inner IH] using atom_ind';
    intros prev s caps k Hs Hk.
  - simpl. destruct s as [|d s']; [done|].
    destruct (same_char ci c d); [|done]. apply Hk. by eapply lacks_tail.
  - simpl. generalize 0 as n. revert prev Hs.
    induction s as [|d s' IHs]; intros prev Hs n.
    + destruct (min <=? n)%nat; [by apply Hk|done].
    + rewrite (IHs (Some d)) by (by eapply lacks_tail).
      destruct (cls' d && below max n);
        (destruct (min <=? n)%nat; [by apply Hk|done]).
  - simpl. destruct (xorb _ _); [by apply Hk|done].
  - simpl.
    assert (fails cls (fun p rest c => k p rest (c ++ [consumed s rest]))) as Hk'
      by (intros p rest c Hrest; by apply Hk).
    revert Hk'. generalize (fun p rest c => k p rest (c ++ [consumed s rest])).
    revert prev s caps Hs.
    induction IH as [|a inner Ha _ IHinner]; intros prev s caps Hs k' Hk'.
    + by apply Hk'.
    + apply Ha; [done|]. intros p rest c Hrest. by apply IHinner.
Qed.

(** A sequence that holds an atom for at least one character of [cls]
    matches no text without such a character. *)
Lemma match_seq_needs ci (re : list atom) :
  Exists (fun a => exists min max, a = Rep cls (Datatypes.S min) max) re ->
  forall prev s caps (k : cont (R:=R)),
    lacks cls s -> match_seq ci re prev s caps k = None.
Proof.
  induction 1 as [a re (min & max & ->)|a re _ IH]; intros prev s caps k Hs.
  - simpl. destruct s as [|d s']; [done|].
    assert (cls d = false) as -> by (by inversion Hs). done.
  - simpl. apply match_atom_fails; [done|].
    intros p rest c Hrest. by apply IH.
Qed.

End Matcher.

Lemma exec_needs cls (re : regex) :
  Exists (fun a => exists min max, a = Rep cls (Datatypes.S min) max) (atoms re) ->
  forall s prev, lacks cls s -> exec re prev s = None.
Proof.
  intros Hre. induction s as [|c s IH]; intros prev Hs; simpl; unfold match_here;
    rewrite (match_seq_needs cls _ _ Hre) by done; [done|].
  apply IH. by eapply lacks_tail.
Qed.

Lemma captured_needs cls (re : regex) expression :
  Exists (fun a => exists min max, a = Rep cls (Datatypes.S min) max) (atoms re) ->
  lacks cls expression -> captured re expression = [].
Proof.
  intros Hre Hs. unfold captured, exec_all. simpl.
  by rewrite (exec_needs cls re Hre).
Qed.

(** X16.  The sandbox sees only the URLs that are written as quoted
    literals: an expression that holds no single and no double quote is
    never rejected by [sandboxCheck], whatever it fetches (a template literal
    or a variable for the URL passes). *)
Theorem sandbox_passes_unquoted_expressions `{Platform} (expression : string) :
  lacks is_quote expression -> sandboxCheck expression = None.
Proof.
  intros Hs. unfold sandboxCheck.
  rewrite (captured_needs is_quote FETCH_URL_RE), (captured_needs is_quote XHR_URL_RE);
    [done| |done| |done].
  all: unfold XHR_URL_RE, FETCH_URL_RE, quote_mark; simpl;
    repeat first [ apply Exists_cons_hd; by exists 0, (Some 1) | apply Exists_cons_tl ].
Qed.

(** A request to another host, written with a template literal. *)
Lemma sandbox_passes_unquoted_expressions_witness :
  sandboxCheck (H:=SamplePlatform.platform) "fetch(`https://evil.com/x`)" = None.
Proof.
  apply (sandbox_passes_unquoted_expressions (H:=SamplePlatform.platform)).
  unfold lacks. simpl. repeat constructor.
Defined.

End SandboxScanSpec.

(** ** session.ts: the summary of a session *)

Module SessionSummarySpec.
Import JsString Js JsFacts ObjectFacts SessionSummary.

Lemma slice_take {A} (n : nat) (l : list A) :
  JsArray.slice 0 (Some (Z.of_nat n)) l = take n l.
Proof.
  unfold JsArray.slice, JsArray.clamp.
  change (0 <? 0)%Z with false. cbv iota.
  destruct (Z.ltb_spec (Z.of_nat n) 0); [lia|].
  replace (Z.to_nat (Z.min 0 (Z.of_nat (length l)))) with 0 by lia.
  rewrite Nat.sub_0_r, drop_0.
  destruct (decide (n <= length l)).
  - by replace (Z.to_nat (Z.min (Z.of_nat n) (Z.of_nat (length l)))) with n by lia.
  - replace (Z.to_nat (Z.min (Z.of_nat n) (Z.of_nat (length l)))) with (length l) by lia.
    rewrite !take_ge; [done|lia|lia].
Qed.

Section Sort.
Context {A : Type} (compare : A -> A -> Z).

Lemma insert_sorted_perm x l : insert_sorted compare x l ≡ₚ x :: l.
Proof.
  induction l as [|y l IH]; simpl; [done|].
  destruct (compare x y <? 0)%Z; [done|].
  rewrite IH. apply Permutation_swap.
Qed.

Lemma sort_from_perm l : forall acc,
  foldl (fun sorted x => insert_sorted compare x sorted) acc l ≡ₚ acc ++ l.
Proof.
  induction l as [|x l IH]; intros acc; simpl.
  - by rewrite app_nil_r.
  - rewrite IH, insert_sorted_perm. simpl. apply Permutation_middle.
Qed.

Lemma sort_perm l : sort compare l ≡ₚ l.
Proof. unfold sort. by rewrite sort_from_perm. Qed.

(** The result is in order for every relation that the comparator decides. *)
Lemma insert_sorted_sorted (R : A -> A -> Prop) x l :
  (forall a b c, R a b -> R b c -> R a c) ->
  (forall a b, (compare a b < 0)%Z -> R a b) ->
  (forall a b, (0 <= compare a b)%Z -> R b a) ->
  StronglySorted R l -> StronglySorted R (insert_sorted compare x l).
Proof.
  intros R_trans before not_before.
  induction l as [|y l IH]; simpl; intros Hl.
  - constructor; [constructor|constructor].
  - inversion Hl as [|? ? Hrest Hy]; subst.
    destruct (Z.ltb_spec (compare x y) 0) as [Hlt|Hge].
    + constructor; [done|]. constructor; [by apply before|].
      eapply Forall_impl; [exact Hy|]. intros z Hz.
      eapply R_trans; [by apply before|done].
    + constructor; [by apply IH|].
      rewrite insert_sorted_perm. constructor; [by apply not_before|done].
Qed.

Lemma sort_sorted (R : A -> A -> Prop) l :
  (forall a b c, R a b -> R b c -> R a c) ->
  (forall a b, (compare a b < 0)%Z -> R a b) ->
  (forall a b, (0 <= compare a b)%Z -> R b a) ->
  StronglySorted R (sort compare l).
Proof.
  intros R_trans before not_before. unfold sort.
  cut (forall acc, StronglySorted R acc ->
         StronglySorted R (foldl (fun sorted x => insert_sorted compare x sorted) acc l)).
  { intros Hcut. apply Hcut. constructor. }
  induction l as [|x l IH]; intros acc Hacc; simpl; [done|].
  apply IH. by apply insert_sorted_sorted.
Qed.

End Sort.

(** In a list that is in order, the first element is before and the last
    element is after every element. *)
Lemma sorted_last {A} (R : A -> A -> Prop) (l : list A) final x :
  (forall a, R a a) ->
  StronglySorted R l -> last l = Some final -> x ∈ l -> R x final.
Proof.
  intros Hrefl. induction l as [|y l IH]; intros Hl Hfinal Hx.
  - by apply elem_of_nil in Hx.
  - inversion Hl as [|? ? Hrest Hy]; subst.
    destruct l as [|z l].
    + simpl in Hfinal. injection Hfinal as <-.
      apply list_elem_of_singleton in Hx as ->. done.
    + rewrite last_cons_cons in Hfinal.
      apply elem_of_cons in Hx as [->|Hx]; [|by apply IH].
      rewrite Forall_forall in Hy. apply Hy. by apply last_Some_elem_of.
Qed.

Lemma sorted_head {A} (R : A -> A -> Prop) (l : list A) first x :
  (forall a, R a a) ->
  StronglySorted R l -> head l = Some first -> x ∈ l -> R first x.
Proof.
  intros Hrefl Hl Hfirst Hx.
  destruct l as [|y l]; [done|]. simpl in Hfirst. injection Hfirst as ->.
  inversion Hl as [|? ? Hrest Hy]; subst.
  rewrite Forall_forall in Hy.
  apply elem_of_cons in Hx as [->|Hx]; [done|]. by apply Hy.
Qed.

(** *** The counters *)

Lemma count_fold (l : list DaibugEvent) : forall c,
  let c' := foldl count_event c l in
  errors c' = (errors c + Z.of_nat (length (filter (fun e => level e = Error) l)))%Z
  /\ warns c' = (warns c + Z.of_nat (length (filter (fun e => level e = Warn) l)))%Z
  /\ requests c'
     = (requests c + Z.of_nat (length (filter (fun e => source e = BrowserNetwork) l)))%Z
  /\ failed c'
     = (failed c + Z.of_nat (length (filter (fun e => is_failed_request e) l)))%Z.
Proof.
  induction l as [|e l IH]; intros c; simpl.
  - repeat split; lia.
  - destruct (IH (count_event c e)) as (He & Hw & Hr & Hf).
    rewrite He, Hw, Hr, Hf. clear IH He Hw Hr Hf.
    rewrite !filter_cons. unfold is_failed_request. simpl.
    repeat split.
    + destruct (decide (level e = Error)); rewrite ?bool_decide_true, ?bool_decide_false by done;
        simpl; lia.
    + destruct (decide (level e = Warn)); rewrite ?bool_decide_true, ?bool_decide_false by done;
        simpl; lia.
    + destruct (decide (source e = BrowserNetwork));
        rewrite ?bool_decide_true, ?bool_decide_false by done; simpl; lia.
    + destruct (decide (source e = BrowserNetwork));
        rewrite ?bool_decide_true, ?bool_decide_false by done; simpl; [|lia].
      destruct (get (payload e) "status") as [| | | status | | |]; simpl; try lia.
      destruct ((400 <=? status)%Z && (status <? 600)%Z); simpl; lia.
Qed.

Lemma occurrences_snoc m l e :
  occurrences m (l ++ [e])
  = (occurrences m l + if reports m e then 1 else 0)%Z.
Proof.
  unfold occurrences. rewrite filter_app, length_app, filter_cons, filter_nil.
  destruct (reports m e); simpl.
  - destruct (decide True); [simpl; lia|tauto].
  - destruct (decide False); [tauto|simpl; lia].
Qed.

Lemma occurrences_perm m l l' : l ≡ₚ l' -> occurrences m l = occurrences m l'.
Proof. intros Hperm. unfold occurrences. by rewrite Hperm. Qed.

Lemma occurrences_pos m l :
  (0 < occurrences m l)%Z ->
  exists e, e ∈ l /\ level e = Error /\ get (payload e) "message" = Str m.
Proof.
  unfold occurrences. intros Hpos.
  destruct (filter (fun event => reports m event) l) as [|e rest] eqn:Hfilter;
    [simpl in Hpos; lia|].
  assert (e ∈ filter (fun event => reports m event) l) as Hin
    by (rewrite Hfilter; apply list_elem_of_here).
  apply list_elem_of_filter in Hin as [Hrep Hin].
  exists e. split; [done|]. unfold reports in Hrep.
  apply andb_prop_elim in Hrep as [Hlevel Hmsg].
  apply bool_decide_unpack in Hlevel. split; [done|].
  destruct (get (payload e) "message"); try done.
  apply Is_true_eq_true, String.eqb_eq in Hmsg. by subst.
Qed.

Lemma count_event_counted c seen e :
  counted (errorFrequencies c) seen ->
  counted (errorFrequencies (count_event c e)) (seen ++ [e]).
Proof.
  intros (Hnodup & Hkeys & Hfreq).
  assert ((forall m, m <> "" -> reports m e = false) ->
          counted (errorFrequencies c) (seen ++ [e])) as Hsame.
  { intros Hno. split; [done|]. split; [done|].
    intros m Hm. rewrite occurrences_snoc, (Hno m Hm), Hfreq by done. lia. }
  unfold count_event. simpl.
  destruct (decide (level e = Error)) as [Herr|Herr].
  2:{ rewrite bool_decide_false by done. apply Hsame. intros m _.
      unfold reports. by rewrite bool_decide_false. }
  rewrite bool_decide_true by done.
  destruct (get (payload e) "message") as [| | | |message| |] eqn:Hmsg;
    try (apply Hsame; intros m _; unfold reports; rewrite Hmsg; apply andb_false_r).
  destruct message as [|ch message].
  { apply Hsame. intros m Hm. unfold reports. rewrite Hmsg.
    destruct m; [done|]. apply andb_false_r. }
  assert (String ch message <> "") as Hnonempty by done.
  revert Hmsg Hnonempty. generalize (String ch message). intros m0 Hmsg Hnonempty.
  pose proof (Hfreq m0 Hnonempty) as Hm0.
  split; [by apply set_NoDup|]. split.
  - intros m n Hin. apply elem_of_set in Hin as [Hin|[-> ->]]; [by apply Hkeys|].
    split; [done|]. rewrite Hm0. unfold occurrences. lia.
  - intros m Hm. rewrite find_set, occurrences_snoc.
    unfold reports. rewrite Hmsg, bool_decide_true by done. simpl.
    destruct (String.eqb_spec m0 m) as [<-|Hne]; simpl.
    + by rewrite Hm0.
    + rewrite Hfreq by done. lia.
Qed.

Lemma count_fold_counted (l : list DaibugEvent) : forall c seen,
  counted (errorFrequencies c) seen ->
  counted (errorFrequencies (foldl count_event c l)) (seen ++ l).
Proof.
  induction l as [|e l IH]; intros c seen Hc; simpl.
  - by rewrite app_nil_r.
  - rewrite cons_middle, app_assoc. apply IH. by apply count_event_counted.
Qed.

Lemma sorted_app {A} (R : A -> A -> Prop) (l1 l2 : list A) :
  StronglySorted R (l1 ++ l2) ->
  StronglySorted R l1 /\ forall a b, a ∈ l1 -> b ∈ l2 -> R a b.
Proof.
  induction l1 as [|x l1 IH]; simpl; intros Hl.
  - split; [constructor|]. intros a b Ha. by apply elem_of_nil in Ha.
  - inversion Hl as [|? ? Hrest Hx]; subst.
    destruct (IH Hrest) as [Hl1 Hcross].
    rewrite Forall_forall in Hx. split.
    + constructor; [done|]. apply Forall_forall. intros y Hy. apply Hx.
      apply elem_of_app. by left.
    + intros a b [->|Ha]%elem_of_cons Hb; [|by apply Hcross].
      apply Hx. apply elem_of_app. by right.
Qed.

Lemma sorted_map {A B} (R : A -> A -> Prop) (R' : B -> B -> Prop) (f : A -> B) l :
  (forall a b, a ∈ l -> b ∈ l -> R a b -> R' (f a) (f b)) ->
  StronglySorted R l -> StronglySorted R' (map f l).
Proof.
  induction l as [|x l IH]; simpl; intros Hf Hl; [constructor|].
  inversion Hl as [|? ? Hrest Hx]; subst. constructor.
  - apply IH; [|done]. intros a b Ha Hb. apply Hf; apply elem_of_cons; by right.
  - rewrite Forall_forall in Hx. apply Forall_forall. intros y Hy.
    apply list_elem_of_fmap in Hy as (a & -> & Ha).
    apply Hf; [apply elem_of_cons; by left|apply elem_of_cons; by right|by apply Hx].
Qed.

Section WithLocale.
Variable localeCompare : string -> string -> Z.

Lemma sortEventsByTimestamp_perm events :
  sortEventsByTimestamp localeCompare events ≡ₚ events.
Proof. apply sort_perm. Qed.

Lemma sortEventsByTimestamp_sorted events :
  StronglySorted (fun a b : DaibugEvent => (ts a <= ts b)%Z)
    (sortEventsByTimestamp localeCompare events).
Proof.
  apply sort_sorted.
  - intros a b c. lia.
  - intros a b. unfold compareEvents. destruct (Z.eqb_spec (ts a) (ts b)); lia.
  - intros a b. unfold compareEvents. destruct (Z.eqb_spec (ts a) (ts b)); lia.
Qed.

Lemma insert_sorted_last (x : DaibugEvent) (sorted : list DaibugEvent) :
  Forall (fun y => (ts y < ts x)%Z) sorted ->
  insert_sorted (compareEvents localeCompare) x sorted = sorted ++ [x].
Proof.
  induction sorted as [|y sorted IH]; simpl; [done|].
  intros [Hy Hrest]%Forall_cons. unfold compareEvents at 1.
  destruct (Z.eqb_spec (ts x) (ts y)); [lia|].
  destruct (Z.ltb_spec (ts x - ts y) 0); [lia|]. by rewrite IH.
Qed.

Lemma sort_increasing (l : list DaibugEvent) : forall acc,
  StronglySorted (fun a b : DaibugEvent => (ts a < ts b)%Z) (acc ++ l) ->
  foldl (fun sorted x => insert_sorted (compareEvents localeCompare) x sorted) acc l
  = acc ++ l.
Proof.
  induction l as [|x l IH]; intros acc Hsorted; simpl.
  - by rewrite app_nil_r.
  - rewrite insert_sorted_last.
    + rewrite IH; rewrite <- app_assoc; done.
    + apply sorted_app in Hsorted as [_ Hcross]. apply Forall_forall.
      intros y Hy. apply Hcross; [done|]. apply elem_of_cons. by left.
Qed.

(** X17.  [sortEventsByTimestamp], which orders the events of a snapshot
    and of a summary, returns the events it is given, each as often as it is
    given, with the timestamps in ascending order; events whose timestamps
    are already in strictly ascending order come back in the order they
    have. *)
Theorem events_are_sorted_by_timestamp (events : list DaibugEvent) :
  let ordered := sortEventsByTimestamp localeCompare events in
  ordered ≡ₚ events
  /\ StronglySorted (fun a b : DaibugEvent => (ts a <= ts b)%Z) ordered
  /\ (StronglySorted (fun a b : DaibugEvent => (ts a < ts b)%Z) events ->
      ordered = events).
Proof.
  intros ordered. split; [apply sortEventsByTimestamp_perm|].
  split; [apply sortEventsByTimestamp_sorted|].
  intros Hsorted. apply (sort_increasing events []). exact Hsorted.
Qed.

(** X18.  The summary of a session counts what it is given, in whatever
    order the events come: [totalEvents] is the number of the events,
    [errorCount] and [warnCount] the numbers of the events of level error and
    warn, [networkRequests] the number of the events of the network,
    [failedRequests] the number of those with a numeric status from 400 to
    599, [interactionCount] the number of the interactions.  [duration] is
    the time between the earliest and the latest event: it is never
    negative, no two events are further apart, and two events are that far
    apart when there is an event at all. *)
Theorem summary_counts_events_in_any_order
    (events : list DaibugEvent) (interactions : list value) :
  let s := computeSummary localeCompare events interactions in
  totalEvents s = Z.of_nat (length events)
  /\ errorCount s = Z.of_nat (length (filter (fun e => level e = Error) events))
  /\ warnCount s = Z.of_nat (length (filter (fun e => level e = Warn) events))
  /\ networkRequests s
     = Z.of_nat (length (filter (fun e => source e = BrowserNetwork) events))
  /\ failedRequests s
     = Z.of_nat (length (filter (fun e => is_failed_request e) events))
  /\ interactionCount s = Z.of_nat (length interactions)
  /\ (0 <= duration s)%Z
  /\ (forall a b, a ∈ events -> b ∈ events -> (ts a - ts b <= duration s)%Z)
  /\ (events <> [] ->
      exists a b, a ∈ events /\ b ∈ events /\ duration s = (ts a - ts b)%Z).
Proof.
  intros s. subst s. unfold computeSummary. cbn [totalEvents errorCount warnCount
    networkRequests failedRequests interactionCount duration].
  pose proof (sortEventsByTimestamp_perm events) as Hperm.
  pose proof (sortEventsByTimestamp_sorted events) as Hsorted.
  set (ordered := sortEventsByTimestamp localeCompare events) in *.
  clearbody ordered.
  destruct (count_fold ordered
              {| errors := 0; warns := 0; requests := 0; failed := 0;
                 errorFrequencies := [] |}) as (He & Hw & Hr & Hf).
  cbv zeta in He, Hw, Hr, Hf. rewrite He, Hw, Hr, Hf. cbn [errors warns requests failed].
  rewrite !Hperm at 1.
  split; [done|]. split; [f_equal|]. split; [f_equal|]. split; [f_equal|].
  split; [f_equal|]. split; [done|].
  assert (forall x, x ∈ events <-> x ∈ ordered) as Hin
    by (intros x; by rewrite Hperm).
  destruct (head ordered) as [first|] eqn:Hfirst.
  2:{ assert (ordered = []) as Hnil by (by destruct ordered).
      assert (events = []) as -> by (apply Permutation_nil_r; by rewrite <- Hperm, Hnil).
      split; [done|]. split; [|done]. intros a b Ha. by apply elem_of_nil in Ha. }
  destruct (last ordered) as [final|] eqn:Hfinal.
  2:{ apply last_None in Hfinal. by rewrite Hfinal in Hfirst. }
  assert (forall x, x ∈ ordered -> (ts first <= ts x <= ts final)%Z) as Hends.
  { intros x Hx. split.
    - apply (sorted_head (fun a b : DaibugEvent => (ts a <= ts b)%Z) ordered first x);
        [intros a; lia|done..].
    - apply (sorted_last (fun a b : DaibugEvent => (ts a <= ts b)%Z) ordered final x);
        [intros a; lia|done..]. }
  assert (first ∈ ordered) as Hfirst_in by (by apply head_Some_elem_of).
  assert (final ∈ ordered) as Hfinal_in by (by apply last_Some_elem_of).
  destruct (Nat.leb_spec 2 (length ordered)) as [Hlen|Hlen].
  - split; [apply Hends in Hfirst_in; lia|]. split.
    + intros a b Ha%Hin Hb%Hin. apply Hends in Ha, Hb. lia.
    + intros _. exists final, first. by rewrite !Hin.
  - assert (ordered = [first]) as Hone.
    { destruct ordered as [|x [|y rest]]; simpl in *; [done| |lia]. congruence. }
    split; [done|]. split.
    + intros a b Ha%Hin Hb%Hin. rewrite Hone in Ha, Hb.
      apply list_elem_of_singleton in Ha, Hb. subst. lia.
    + intros _. exists first, first. rewrite !Hin. split; [done|]. split; [done|]. lia.
Qed.

(** X19.  [topErrors] names the messages that the error events report most
    often: at most five messages, all different, none empty, each reported
    by an error event, in the order of how often they are reported, the most
    frequent first.  A message of an error event that is left out is
    reported no more often than any of the five that are listed. *)
Theorem top_errors_are_the_most_frequent
    (events : list DaibugEvent) (interactions : list value) :
  let top := topErrors (computeSummary localeCompare events interactions) in
  length top <= 5
  /\ NoDup top
  /\ (forall m, m ∈ top -> m <> "" /\ (0 < occurrences m events)%Z)
  /\ StronglySorted
       (fun a b => (occurrences b events <= occurrences a events)%Z) top
  /\ (forall m, m <> "" -> (0 < occurrences m events)%Z -> m ∉ top ->
      length top = 5
      /\ forall m', m' ∈ top -> (occurrences m events <= occurrences m' events)%Z).
Proof.
  intros top. subst top. unfold computeSummary. cbn [topErrors].
  pose proof (sortEventsByTimestamp_perm events) as Hperm.
  set (ordered := sortEventsByTimestamp localeCompare events) in *.
  set (c := foldl count_event _ ordered).
  assert (counted (errorFrequencies c) ordered) as (Hnodup & Hkeys & Hfreq).
  { apply (count_fold_counted ordered _ []). split; [constructor|]. split.
    - intros m n Hin. by apply elem_of_nil in Hin.
    - intros m _. done. }
  set (freq := errorFrequencies c) in *.
  assert (forall m n, (m, n) ∈ freq ->
            m <> "" /\ (0 < n)%Z /\ n = occurrences m events) as Hval.
  { intros m n Hin. destruct (Hkeys m n Hin) as [Hm Hn]. split; [done|]. split; [done|].
    rewrite <- (occurrences_perm m _ _ Hperm), <- (Hfreq m Hm).
    by rewrite (find_NoDup freq m n Hnodup Hin). }
  pose proof (sort_perm (compareFrequencies localeCompare) freq) as Hsperm.
  assert (StronglySorted (fun a b : string * Z => (b.2 <= a.2)%Z)
            (sort (compareFrequencies localeCompare) freq)) as Hssorted.
  { apply sort_sorted.
    - intros x y z. lia.
    - intros x y. unfold compareFrequencies.
      destruct (Z.eqb_spec x.2 y.2); simpl; lia.
    - intros x y. unfold compareFrequencies.
      destruct (Z.eqb_spec x.2 y.2); simpl; lia. }
  set (sorted := sort (compareFrequencies localeCompare) freq) in *.
  change (Some 5%Z) with (Some (Z.of_nat 5)). rewrite slice_take.
  assert (forall x, x ∈ sorted <-> x ∈ freq) as Hin by (intros x; by rewrite Hsperm).
  rewrite <- (take_drop 5 sorted) in Hssorted.
  apply sorted_app in Hssorted as [Htake Hcross].
  assert (forall x, x ∈ take 5 sorted -> x ∈ freq) as Htake_in.
  { intros x Hx. apply Hin. eapply elem_of_sublist; [exact Hx|apply sublist_take]. }
  split; [rewrite length_map, length_take; lia|]. split.
  { eapply sublist_NoDup; [|apply fmap_sublist, (sublist_take _ 5)].
    change (NoDup (fst <$> sorted)). by rewrite Hsperm. }
  split.
  { intros m Hm. apply list_elem_of_fmap in Hm as ([m1 n] & -> & Hm). simpl.
    apply Htake_in, Hval in Hm as (? & ? & ?). split; [done|lia]. }
  split.
  { eapply sorted_map; [|exact Htake]. intros [a n] [b k] Ha Hb. simpl.
    apply Htake_in, Hval in Ha as (_ & _ & ->).
    apply Htake_in, Hval in Hb as (_ & _ & ->). done. }
  intros m Hm Hpos Hout.
  pose proof (Hfreq m Hm) as Hfind. rewrite (occurrences_perm m _ _ Hperm) in Hfind.
  destruct (find freq m) as [n|] eqn:Hfound; simpl in Hfind; [|lia].
  apply find_elem, Hin in Hfound.
  rewrite <- (take_drop 5 sorted) in Hfound. apply elem_of_app in Hfound as [Hfound|Hfound].
  { exfalso. apply Hout. apply list_elem_of_fmap. by exists (m, n). }
  split.
  - rewrite length_map, length_take.
    destruct (decide (5 <= length sorted)); [lia|].
    rewrite drop_ge in Hfound by lia. by apply elem_of_nil in Hfound.
  - intros m' Hm'. apply list_elem_of_fmap in Hm' as ([m1 k] & -> & Hm'). simpl.
    pose proof (Hcross _ _ Hm' Hfound) as Hle. simpl in Hle.
    apply Htake_in, Hval in Hm' as (_ & _ & <-). lia.
Qed.

End WithLocale.

End SessionSummarySpec.

(** ** ring-buffer.ts: a capacity that is not positive *)

Module RingEdgeSpec.
Import RingBuffer.

Section Ring.
Context {T : Type}.
Implicit Types (h : list (list T)) (r : ring) (its : list T).

Lemma contents_push r x h :
  items r < length h ->
  contents r (push r x h) = push_items (capacity r) x (contents r h).
Proof.
  intros Hlt. unfold push. unfold contents at 1.
  by rewrite list_lookup_insert_eq.
Qed.

Lemma push_length r x h : length (push r x h) = length h.
Proof. unfold push. by rewrite length_insert. Qed.

Lemma push_all_length r (S : list T) : forall h, length (push_all r S h) = length h.
Proof.
  unfold push_all. induction S as [|x S IH]; intros h; simpl; [done|].
  by rewrite IH, push_length.
Qed.

Lemma push_all_snoc r (S : list T) x h :
  push_all r (S ++ [x]) h = push r x (push_all r S h).
Proof. unfold push_all. by rewrite foldl_app. Qed.

Lemma push_all_short r (S : list T) : forall h,
  (capacity r <= 0)%Z -> items r < length h -> length (contents r h) <= 1 ->
  length (contents r (push_all r S h)) <= 1.
Proof.
  unfold push_all. induction S as [|x S IH]; intros h Hcap Hlt Hlen; simpl; [done|].
  apply IH; [done|by rewrite push_length|].
  rewrite contents_push by done. unfold push_items.
  destruct (Z.leb_spec (capacity r) (Z.of_nat (length (contents r h)))); [|lia].
  destruct (contents r h) as [|y [|z its]]; simpl in *; lia.
Qed.

(** X20.  A ring buffer made with a capacity of zero or less is not empty:
    after every push it holds the item that was pushed last, and nothing
    else, so that its size is one and above its capacity. *)
Theorem ring_without_capacity_keeps_last_item
    (N : Z) (h0 : list (list T)) (S : list T) (x : T) :
  (N <= 0)%Z ->
  let r := (createRingBuffer N h0).1 in
  let h1 := (createRingBuffer N h0).2 in
  let h2 := push_all r (S ++ [x]) h1 in
  contents r h2 = [x] /\ size r h2 = 1%Z /\ (capacity r < size r h2)%Z.
Proof.
  intros HN r h1 h2.
  assert (items r < length h1) as Hlt
    by (subst r h1; simpl; rewrite length_app; simpl; lia).
  assert (contents r h1 = []) as Hempty.
  { subst r h1. unfold contents. simpl.
    by rewrite lookup_app_r, Nat.sub_diag by lia. }
  assert (capacity r = N) as Hcap by done.
  clearbody r h1.
  assert (contents r h2 = [x]) as Hx.
  { subst h2. rewrite push_all_snoc.
    rewrite contents_push by (by rewrite push_all_length).
    pose proof (push_all_short r S h1 ltac:(lia) Hlt ltac:(rewrite Hempty; simpl; lia))
      as Hshort.
    unfold push_items.
    destruct (Z.leb_spec (capacity r) (Z.of_nat (length (contents r (push_all r S h1)))));
      [|lia].
    by destruct (contents r (push_all r S h1)) as [|y [|z its]]; simpl in *; try lia. }
  unfold size. rewrite Hx. simpl. split; [done|]. split; [done|lia].
Qed.

End Ring.

(** The theorem at capacity 0 and the pushes 1, 2, 3. *)
Lemma ring_without_capacity_keeps_last_item_witness :
  (0 <= 0)%Z /\
  let r := (createRingBuffer (T:=nat) 0 []).1 in
  contents r (push_all r [1; 2; 3] (createRingBuffer 0 []).2) = [3].
Proof.
  split; [lia|].
  exact (proj1 (ring_without_capacity_keeps_last_item 0 [] [1; 2] 3 ltac:(lia))).
Defined.

End RingEdgeSpec.

(** ** config.ts: the console levels *)

Module ConfigSpec.
Import JsString Js Config.

Lemma includes_spec output item : includes output item = true <-> item ∈ output.
Proof.
  unfold includes. rewrite existsb_exists. split.
  - intros (x & Hin & ->%String.eqb_eq). by apply list_elem_of_In.
  - intros Hin. exists item. split; [by apply list_elem_of_In|apply String.eqb_refl].
Qed.

Lemma push_new_NoDup output item : NoDup output -> NoDup (push_new output item).
Proof.
  intros Hnodup. unfold push_new. destruct (includes output item) eqn:Hinc; [done|].
  apply NoDup_app. split; [done|]. split; [|apply NoDup_singleton].
  intros x Hx ->%list_elem_of_singleton.
  apply includes_spec in Hx. congruence.
Qed.

Lemma push_new_elem output item x :
  x ∈ push_new output item <-> x ∈ output \/ x = item.
Proof.
  unfold push_new. destruct (includes output item) eqn:Hinc.
  - apply includes_spec in Hinc. split; [by left|]. by intros [?| ->].
  - rewrite elem_of_app, list_elem_of_singleton. done.
Qed.

Lemma push_all_NoDup items : forall output,
  NoDup output -> NoDup (foldl push_new output items).
Proof.
  induction items as [|i items IH]; intros output Hnodup; simpl; [done|].
  by apply IH, push_new_NoDup.
Qed.

Lemma push_all_elem items : forall output x,
  x ∈ foldl push_new output items <-> x ∈ output \/ x ∈ items.
Proof.
  induction items as [|i items IH]; intros output x; simpl.
  - split; [by left|]. intros [?|Hin]; [done|]. by apply elem_of_nil in Hin.
  - rewrite IH, push_new_elem, elem_of_cons. tauto.
Qed.

(** A valid level other than [all] is a level that is captured. *)
Lemma valid_level normalized :
  includes VALID_CONSOLE_LEVELS normalized = true ->
  String.eqb normalized "all" = false ->
  normalized ∈ ALL_CAPTURE_LEVELS.
Proof.
  intros Hvalid Hall. apply includes_spec in Hvalid.
  apply String.eqb_neq in Hall.
  unfold VALID_CONSOLE_LEVELS in Hvalid. unfold ALL_CAPTURE_LEVELS.
  repeat (apply elem_of_cons in Hvalid as [->|Hvalid]);
    [by apply (bool_decide_unpack _)..|done|by apply elem_of_nil in Hvalid].
Qed.

Lemma normalize_level_ok output level :
  NoDup output -> (forall x, x ∈ output -> x ∈ ALL_CAPTURE_LEVELS) ->
  NoDup (normalize_level output level)
  /\ (forall x, x ∈ normalize_level output level -> x ∈ ALL_CAPTURE_LEVELS).
Proof.
  intros Hnodup Hsub. destruct level as [| | | |level| |]; unfold normalize_level;
    try (by split).
  generalize (toLowerCase (trim level)). intros normalized.
  destruct (includes VALID_CONSOLE_LEVELS normalized) eqn:Hvalid;
    cbn [negb]; [|by split].
  destruct (String.eqb normalized "all") eqn:Hall.
  - split; [by apply push_all_NoDup|].
    intros x [Hx|Hx]%push_all_elem; [by apply Hsub|done].
  - split; [by apply push_new_NoDup|].
    intros x [Hx| ->]%push_new_elem; [by apply Hsub|by apply valid_level].
Qed.

Lemma normalize_levels_ok levels : forall output,
  NoDup output -> (forall x, x ∈ output -> x ∈ ALL_CAPTURE_LEVELS) ->
  NoDup (foldl normalize_level output levels)
  /\ (forall x, x ∈ foldl normalize_level output levels -> x ∈ ALL_CAPTURE_LEVELS).
Proof.
  induction levels as [|level levels IH]; intros output Hnodup Hsub; simpl; [done|].
  destruct (normalize_level_ok output level Hnodup Hsub) as [Hn Hs]. by apply IH.
Qed.

Lemma normalizeConsoleArray_ok levels output :
  normalizeConsoleArray levels = Some output ->
  output <> [] /\ NoDup output /\ (forall x, x ∈ output -> x ∈ ALL_CAPTURE_LEVELS).
Proof.
  destruct levels as [| | | | |levels|]; try done. simpl.
  destruct (normalize_levels_ok levels [] (@NoDup_nil_2 _)) as [Hn Hs].
  { intros x Hx. by apply elem_of_nil in Hx. }
  destruct (foldl normalize_level [] levels) as [|first others]; [done|].
  intros [= <-]. done.
Qed.

Lemma literal_ok (l : list string) :
  bool_decide (l <> [] /\ NoDup l /\ Forall (fun x => x ∈ ALL_CAPTURE_LEVELS) l) = true ->
  l <> [] /\ NoDup l /\ (forall x, x ∈ l -> x ∈ ALL_CAPTURE_LEVELS).
Proof.
  intros (Hne & Hnodup & Hall)%bool_decide_eq_true.
  split; [done|]. split; [done|]. by apply Forall_forall.
Qed.

Lemma default_levels_ok :
  DEFAULT_CAPTURE_LEVELS <> [] /\ NoDup DEFAULT_CAPTURE_LEVELS
  /\ (forall x, x ∈ DEFAULT_CAPTURE_LEVELS -> x ∈ ALL_CAPTURE_LEVELS).
Proof. apply literal_ok. by vm_compute. Qed.

Lemma default_or_normalized_ok levels :
  let r := default DEFAULT_CAPTURE_LEVELS (normalizeConsoleArray levels) in
  r <> [] /\ NoDup r /\ (forall x, x ∈ r -> x ∈ ALL_CAPTURE_LEVELS).
Proof.
  destruct (normalizeConsoleArray levels) as [output|] eqn:Hn; simpl.
  - by apply (normalizeConsoleArray_ok levels).
  - apply default_levels_ok.
Qed.

Lemma parseConsoleFilter_ok input :
  let r := parseConsoleFilter input in
  r <> [] /\ NoDup r /\ (forall x, x ∈ r -> x ∈ ALL_CAPTURE_LEVELS).
Proof.
  destruct input as [levels|input|]; unfold parseConsoleFilter.
  - apply (default_or_normalized_ok (Arr levels)).
  - destruct input as [|c input]; [apply default_levels_ok|].
    generalize (toLowerCase (trim (String c input))). intros normalizedInput.
    cbv zeta.
    destruct (String.eqb normalizedInput "all" || String.eqb normalizedInput "verbose").
    { apply literal_ok. by vm_compute. }
    destruct (String.eqb normalizedInput "errors").
    { apply literal_ok. by vm_compute. }
    destruct (String.eqb normalizedInput "errors-and-warnings").
    { apply literal_ok. by vm_compute. }
    apply (default_or_normalized_ok (Arr _)).
  - apply default_levels_ok.
Qed.

(** The levels that [parseConsoleFilter] returns pass [normalizeConsoleArray]
    as they are. *)
Lemma normalize_levels_fixed (l : list string) : forall output,
  NoDup (output ++ l) -> (forall x, x ∈ l -> x ∈ ALL_CAPTURE_LEVELS) ->
  foldl normalize_level output (map Str l) = output ++ l.
Proof.
  induction l as [|x l IH]; intros output Hnodup Hsub.
  - simpl. by rewrite app_nil_r.
  - change (foldl normalize_level output (map Str (x :: l)))
      with (foldl normalize_level (normalize_level output (Str x)) (map Str l)).
    assert (normalize_level output (Str x) = output ++ [x]) as ->.
    { apply NoDup_app in Hnodup as (_ & Hdisj & _).
      assert (includes output x = false) as Hnew.
      { destruct (includes output x) eqn:Hinc; [|done].
        apply includes_spec in Hinc. exfalso. apply (Hdisj x Hinc). by left. }
      assert (x ∈ ALL_CAPTURE_LEVELS) as Hx by (apply Hsub; by left).
      unfold ALL_CAPTURE_LEVELS in Hx.
      repeat (apply elem_of_cons in Hx as [->|Hx]);
        [| | | |by apply elem_of_nil in Hx];
        unfold normalize_level; cbv zeta;
        match goal with
        | |- context [toLowerCase (trim ?s)] =>
            change (toLowerCase (trim s)) with s;
            change (includes VALID_CONSOLE_LEVELS s) with true;
            change (String.eqb s "all") with false
        end;
        cbv iota; cbn [negb]; unfold push_new; by rewrite Hnew. }
    rewrite IH.
    + by rewrite <- app_assoc.
    + by rewrite <- app_assoc.
    + intros y Hy. apply Hsub. by right.
Qed.

(** X21.  Whatever it is given (an array with any elements, any text, or
    nothing), [parseConsoleFilter] returns at least one level, no level
    twice, and only the levels error, warn, log and debug: the word all is
    never among them. *)
Theorem console_filter_is_a_set_of_levels (input : filter_input) :
  let levels := parseConsoleFilter input in
  levels <> [] /\ NoDup levels
  /\ forall level, level ∈ levels ->
       level = "error" \/ level = "warn" \/ level = "log" \/ level = "debug".
Proof.
  destruct (parseConsoleFilter_ok input) as (Hne & Hnodup & Hsub).
  intros levels. split; [done|]. split; [done|].
  intros level Hlevel%Hsub. unfold ALL_CAPTURE_LEVELS in Hlevel.
  repeat (apply elem_of_cons in Hlevel as [->|Hlevel]); [tauto..|].
  by apply elem_of_nil in Hlevel.
Qed.

(** X22.  The levels that [parseConsoleFilter] returns are a fixed point of
    it: given back as an array, they come out unchanged and in the same
    order. *)
Theorem console_filter_accepts_its_result (input : filter_input) :
  parseConsoleFilter (Levels (map Str (parseConsoleFilter input)))
  = parseConsoleFilter input.
Proof.
  destruct (parseConsoleFilter_ok input) as (Hne & Hnodup & Hsub).
  generalize dependent (parseConsoleFilter input). intros levels Hne Hnodup Hsub.
  unfold parseConsoleFilter, normalizeConsoleArray.
  rewrite (normalize_levels_fixed levels []) by done. simpl.
  by destruct levels.
Qed.

End ConfigSpec.

(** ** session.ts: what an export redacts *)

Module ExportSpec.
Import JsString Js JsFacts Redactor Session.

Lemma redactStorageArea_elem sensitiveFields area key v :
  (key, v) ∈ redactStorageArea sensitiveFields area ->
  (toLowerCase key ∈ sensitiveFields /\ v = REDACTED)
  \/ ((toLowerCase key ∉ sensitiveFields) /\ (key, v) ∈ area).
Proof.
  unfold redactStorageArea. intros ([k w] & Heq & Hin)%list_elem_of_fmap.
  simpl in Heq. destruct (decide (toLowerCase k ∈ sensitiveFields)) as [Hs|Hs].
  - rewrite bool_decide_true in Heq by done. injection Heq as -> ->. by left.
  - rewrite bool_decide_false in Heq by done. injection Heq as -> ->. by right.
Qed.

Lemma redactStorageArea_keys sensitiveFields area :
  map fst (redactStorageArea sensitiveFields area) = map fst area.
Proof.
  unfold redactStorageArea. rewrite map_map. apply map_ext.
  intros [k w]. simpl. by destruct (bool_decide _).
Qed.

Section WithPlatform.
Context `{Platform}.

(** X23.  The session that is exported holds no value under a sensitive
    name where the redaction looks: in its events and in the events of its
    watched events, whatever is stored at any depth under a field of the
    configuration is the marker (or the marker of a sensitive endpoint, or
    an [undefined] that was there); in its storage snapshots, every key whose
    lower-cased name is a lower-cased field holds the marker, and the keys are
    the keys of the session, in their order.  The interactions are exported
    as they are: the redaction does not look into them. *)
Theorem export_redacts_events_and_storage
    (session : DaibugSession) (redact : RedactConfig) :
  let exported := applySessionRedaction session redact in
  (forall e k x,
     e ∈ events exported \/ (exists w, w ∈ watchedEvents exported /\ e = w_event w) ->
     k ∈ fields redact -> k <> "" ->
     stored_under k (Obj (payload e)) x ->
     x = Str REDACTED \/ x = Undefined \/ x = Str REDACTED_ENDPOINT)
  /\ (forall snapshot key v,
        snapshot ∈ storageSnapshots exported ->
        (key, v) ∈ localStorage snapshot \/ (key, v) ∈ sessionStorage snapshot ->
        toLowerCase key ∈ sensitiveFieldsOf redact ->
        v = REDACTED)
  /\ map (fun s => (map fst (localStorage s), map fst (sessionStorage s)))
       (storageSnapshots exported)
     = map (fun s => (map fst (localStorage s), map fst (sessionStorage s)))
         (storageSnapshots session)
  /\ interactions exported = interactions session.
Proof.
  intros exported. subst exported. unfold applySessionRedaction. simpl.
  split; [|split; [|split; [|done]]].
  - intros e k x He Hk Hne Hx.
    assert (exists e0, e = redactEvent redact e0) as [e0 ->].
    { destruct He as [He|(w & Hw & ->)].
      - apply list_elem_of_fmap in He as (e0 & -> & _). by exists e0.
      - apply list_elem_of_fmap in Hw as (w0 & -> & _). simpl. by eexists. }
    apply RedactorSpec.redactEvent_stored_under in Hx; [|done..].
    destruct Hx as [->|[->|(-> & _)]]; auto.
  - intros snapshot key v Hs Hin Hkey.
    apply list_elem_of_fmap in Hs as (s0 & -> & _). simpl in Hin.
    destruct Hin as [Hin|Hin];
      apply redactStorageArea_elem in Hin as [[_ ->]|[Hno _]]; done.
  - rewrite map_map. apply map_ext. intros s0. simpl.
    by rewrite !redactStorageArea_keys.
Qed.

End WithPlatform.

End ExportSpec.

(** ** redactor.ts: redacting what is redacted *)

Module RedactTwiceSpec.
Import JsString Js JsFacts ObjectFacts Redactor.

Lemma assign_all_NoDup f (input : list (string * value)) : forall output,
  NoDup (map fst output) -> NoDup (map fst (assign_all f output input)).
Proof.
  induction input as [|[k v] input IH]; intros output Hout; simpl; [done|].
  by apply IH, set_NoDup.
Qed.

Lemma assign_all_fresh f (input : list (string * value)) : forall output,
  NoDup (map fst output ++ map fst input) ->
  assign_all f output input
  = output ++ map (fun kv => (kv.1, f kv.1 kv.2)) input.
Proof.
  induction input as [|[k v] input IH]; intros output Hnodup; simpl.
  - by rewrite app_nil_r.
  - assert (k ∉ map fst output) as Hk.
    { apply NoDup_app in Hnodup as (_ & Hdisj & _). intros Hin.
      apply (Hdisj k Hin). simpl. by left. }
    rewrite (set_absent output k _ Hk).
    change (foldl _ (output ++ [(k, f k v)]) input)
      with (assign_all f (output ++ [(k, f k v)]) input).
    rewrite IH.
    + by rewrite <- app_assoc.
    + rewrite map_app. simpl. rewrite <- app_assoc. done.
Qed.

(** Two objects with the same keys, bound once, and the same properties. *)
Lemma object_ext (o o' : list (string * value)) :
  NoDup (map fst o) -> map fst o = map fst o' ->
  (forall k, find o k = find o' k) -> o = o'.
Proof.
  revert o'. induction o as [|[k v] o IH]; intros [|[k' v'] o'] Hnodup Hkeys Hfind;
    try done.
  simpl in Hkeys. injection Hkeys as <- Hkeys.
  apply NoDup_cons in Hnodup as [Hk Hnodup].
  assert (k ∉ map fst o') as Hk' by (by rewrite <- Hkeys).
  pose proof (Hfind k) as Hv. rewrite !find_cons in Hv.
  assert (find o k = None) as Ho.
  { pose proof (has_absent o k Hk) as Hhas. unfold has in Hhas. by destruct (find o k). }
  assert (find o' k = None) as Ho'.
  { pose proof (has_absent o' k Hk') as Hhas. unfold has in Hhas. by destruct (find o' k). }
  rewrite Ho, Ho', String.eqb_refl in Hv. injection Hv as <-.
  f_equal. apply IH; [done|done|].
  intros key. pose proof (Hfind key) as Hkey. rewrite !find_cons in Hkey.
  destruct (String.eqb_spec k key) as [Heq|Hne]; [subst key; by rewrite Ho, Ho'|].
  by destruct (find o key), (find o' key).
Qed.

Lemma redacts_indep sf key v v' :
  is_undefined v = is_undefined v' -> redacts sf key v = redacts sf key v'.
Proof. intros Hv. unfold redacts. by rewrite Hv. Qed.

(** The clone of a clone is the clone. *)
Lemma deepClone_idem sf : forall v key,
  deepCloneAndRedact sf key (deepCloneAndRedact sf key v) = deepCloneAndRedact sf key v.
Proof.
  intros v. induction v as [| |b|n|s|items IH|props IH] using value_ind'; intros key;
    match goal with
    | |- deepCloneAndRedact sf key (deepCloneAndRedact sf key ?v) = _ =>
        destruct (redacts sf key v) eqn:Hr;
        rewrite (RedactorSpec.deepClone_eq sf key v), Hr;
        [rewrite RedactorSpec.deepClone_eq; by destruct (redacts sf key (Str REDACTED))|]
    end;
    rewrite RedactorSpec.deepClone_eq.
  1-5: by rewrite Hr.
  - rewrite (redacts_indep sf key _ (Arr items)), Hr by done.
    f_equal. rewrite map_map. apply map_ext_in. intros item Hitem.
    rewrite Forall_forall in IH. apply IH. by apply list_elem_of_In.
  - rewrite (redacts_indep sf key _ (Obj props)), Hr by done.
    f_equal.
    set (f := fun key nestedValue => deepCloneAndRedact sf (Some key) nestedValue).
    pose proof (assign_all_NoDup f props [] (NoDup_nil_2)) as Hnodup.
    rewrite (assign_all_fresh f (assign_all f [] props) []) by done.
    simpl. rewrite <- (map_id (assign_all f [] props)) at 2.
    apply map_ext_in. intros [k x] Hin. simpl.
    apply list_elem_of_In, elem_of_assign_all in Hin as [Hin|(v & Hin & ->)];
      [by apply elem_of_nil in Hin|].
    f_equal. rewrite Forall_forall in IH. apply (IH (k, v) Hin).
Qed.

Section WithPlatform.
Context `{Platform}.

Lemma redactObject_NoDup config obj : NoDup (map fst (redactObject config obj)).
Proof. rewrite RedactorSpec.redactObject_eq. apply assign_all_NoDup, NoDup_nil_2. Qed.

Lemma redactObject_idem config obj :
  redactObject config (redactObject config obj) = redactObject config obj.
Proof.
  pose proof (deepClone_idem (sensitiveFieldsOf config) (Obj obj) None) as Hidem.
  unfold redactObject.
  rewrite !RedactorSpec.deepClone_eq in Hidem. simpl in Hidem.
  simpl. by injection Hidem as ->.
Qed.

(** The clone of an object whose keys are bound once: the same keys, each
    with the clone of its value. *)
Lemma redactObject_keys config p :
  NoDup (map fst p) -> map fst (redactObject config p) = map fst p.
Proof.
  intros Hnodup. rewrite RedactorSpec.redactObject_eq, assign_all_fresh by done.
  simpl. rewrite map_map. by apply map_ext.
Qed.

Lemma find_redactObject config p key :
  find (redactObject config p) key
  = deepCloneAndRedact (sensitiveFieldsOf config) (Some key) <$> find p key.
Proof.
  rewrite RedactorSpec.redactObject_eq, find_assign_all. by destruct (find p key).
Qed.

(** A clone holds the clones of its properties. *)
Lemma find_redacted config obj key :
  deepCloneAndRedact (sensitiveFieldsOf config) (Some key)
    <$> find (redactObject config obj) key
  = find (redactObject config obj) key.
Proof. by rewrite <- find_redactObject, redactObject_idem. Qed.

Lemma redactNetwork_twice config obj :
  let p := redactNetwork config (redactObject config obj) in
  redactNetwork config (redactObject config p) = p.
Proof.
  intros p. subst p. set (p1 := redactObject config obj).
  pose proof (redactObject_NoDup config obj) as Hnodup. fold p1 in Hnodup.
  assert (redactObject config p1 = p1) as Hp1 by apply redactObject_idem.
  destruct (get p1 "url") as [| | | |url| |] eqn:Hurl;
    try (assert (redactNetwork config p1 = p1) as Hsame
           by (unfold redactNetwork; by rewrite Hurl);
         by rewrite !Hsame, Hp1, Hsame).
  destruct (isRedactedUrl config url) eqn:Hred.
  2:{ assert (redactNetwork config p1 = p1) as Hsame
        by (unfold redactNetwork; by rewrite Hurl, Hred).
      by rewrite !Hsame, Hp1, Hsame. }
  set (E := Str REDACTED_ENDPOINT).
  set (p2 := set (set p1 "requestBody" E) "responseBody" E).
  assert (redactNetwork config p1 = p2) as ->
    by (unfold redactNetwork; by rewrite Hurl, Hred).
  assert (NoDup (map fst p2)) as Hnodup2 by (by apply set_NoDup, set_NoDup).
  assert (find p1 "url" = Some (Str url)) as Hfind.
  { unfold get in Hurl. destruct (find p1 "url") as [v|]; [|done]. simpl in Hurl. by subst. }
  assert (find (redactObject config p2) "url" = Some (Str url)) as Hfind2.
  { rewrite find_redactObject. unfold p2. rewrite !find_set. simpl.
    pose proof (find_redacted config obj "url") as Hfix. fold p1 in Hfix.
    by rewrite Hfind in Hfix |- *. }
  unfold redactNetwork, get. rewrite Hfind2. simpl. rewrite Hred. fold E.
  assert (forall o, NoDup (map fst o) -> has o "requestBody" = true ->
            has o "responseBody" = true ->
            map fst (set (set o "requestBody" E) "responseBody" E) = map fst o) as Hkeys.
  { intros o Ho Ha Hb. rewrite set_keys by (by apply set_NoDup).
    rewrite has_set, Hb. simpl. rewrite set_keys by done. by rewrite Ha. }
  assert (has p2 "requestBody" = true /\ has p2 "responseBody" = true) as [Ha Hb].
  { unfold p2. rewrite !has_set. done. }
  pose proof (redactObject_NoDup config p2) as Hnodup3.
  apply object_ext.
  - by apply set_NoDup, set_NoDup.
  - rewrite Hkeys; [by apply redactObject_keys|done|..];
      unfold has; rewrite find_redactObject;
      unfold has in Ha, Hb; [by destruct (find p2 "requestBody")|
                             by destruct (find p2 "responseBody")].
  - intros k. rewrite !find_set, find_redactObject.
    destruct (String.eqb_spec "responseBody" k) as [<-|Hk1].
    { unfold p2. by rewrite find_set. }
    destruct (String.eqb_spec "requestBody" k) as [<-|Hk2].
    { unfold p2. by rewrite !find_set. }
    unfold p2. rewrite !find_set.
    apply String.eqb_neq in Hk1, Hk2. rewrite Hk1, Hk2.
    pose proof (find_redacted config obj k) as Hfix. by fold p1 in Hfix.
Qed.

Lemma redactStorage_twice config obj :
  let p := redactStorage config (redactObject config obj) in
  redactStorage config (redactObject config p) = p.
Proof.
  intros p. subst p. set (p1 := redactObject config obj).
  pose proof (redactObject_NoDup config obj) as Hnodup. fold p1 in Hnodup.
  assert (redactObject config p1 = p1) as Hp1 by apply redactObject_idem.
  destruct (get p1 "key") as [| | | |key| |] eqn:Hkey;
    try (assert (redactStorage config p1 = p1) as Hsame
           by (unfold redactStorage; by rewrite Hkey);
         by rewrite !Hsame, Hp1, Hsame).
  destruct (bool_decide (toLowerCase key ∈ sensitiveFieldsOf config)) eqn:Hsens.
  2:{ assert (redactStorage config p1 = p1) as Hsame
        by (unfold redactStorage; by rewrite Hkey, Hsens).
      by rewrite !Hsame, Hp1, Hsame. }
  set (R := Str REDACTED).
  set (pa := if has p1 "value" then set p1 "value" R else p1).
  set (p2 := if has pa "previousValue" then set pa "previousValue" R else pa).
  assert (redactStorage config p1 = p2) as ->
    by (unfold redactStorage; by rewrite Hkey, Hsens).
  assert (NoDup (map fst pa)) as Hnodupa.
  { unfold pa. destruct (has p1 "value"); [by apply set_NoDup|done]. }
  assert (NoDup (map fst p2)) as Hnodup2.
  { unfold p2. destruct (has pa "previousValue"); [by apply set_NoDup|done]. }
  assert (forall k, find p2 k
            = if String.eqb "previousValue" k && has p1 "previousValue" then Some R
              else if String.eqb "value" k && has p1 "value" then Some R
              else find p1 k) as Hfind.
  { intros k. unfold p2, pa.
    assert (has (if has p1 "value" then set p1 "value" R else p1) "previousValue"
            = has p1 "previousValue") as ->.
    { destruct (has p1 "value"); [|done]. by rewrite has_set. }
    destruct (has p1 "previousValue"), (has p1 "value");
      rewrite ?find_set, ?andb_true_r, ?andb_false_r; done. }
  assert (forall k, deepCloneAndRedact (sensitiveFieldsOf config) (Some k) R = R) as HR.
  { intros k. rewrite RedactorSpec.deepClone_eq. by destruct (redacts _ _ _). }
  assert (redactObject config p2 = p2) as Hp2.
  { apply object_ext; [apply redactObject_NoDup|by apply redactObject_keys|].
    intros k. rewrite find_redactObject, Hfind.
    destruct (String.eqb "previousValue" k && has p1 "previousValue");
      [cbn [fmap option_fmap option_map]; by rewrite HR|].
    destruct (String.eqb "value" k && has p1 "value");
      [cbn [fmap option_fmap option_map]; by rewrite HR|].
    pose proof (find_redacted config obj k) as Hfix. by fold p1 in Hfix. }
  rewrite Hp2. unfold redactStorage, get. rewrite Hfind. simpl.
  fold (get p1 "key"). rewrite Hkey, Hsens. fold R.
  assert (forall k, has p2 k = has p1 k) as Hhas.
  { intros k. unfold has at 1. rewrite Hfind.
    destruct (String.eqb_spec "previousValue" k) as [<-|_]; cbn [andb].
    { destruct (has p1 "previousValue") eqn:Hpv; [done|].
      destruct (String.eqb_spec "value" "previousValue"); [done|]. exact Hpv. }
    destruct (String.eqb_spec "value" k) as [<-|_]; cbn [andb]; [|reflexivity].
    destruct (has p1 "value") eqn:Hv; [done|exact Hv]. }
  assert (forall k, (has p1 k = true -> find p2 k = Some R) ->
            (if has p2 k then set p2 k R else p2) = p2) as Hset.
  { intros k Hk. rewrite Hhas. destruct (has p1 k) eqn:Hk1; [|done].
    apply set_same; [done|]. by apply find_elem, Hk. }
  rewrite (Hset "value").
  - apply Hset. intros Hpv. rewrite Hfind, Hpv. by rewrite String.eqb_refl.
  - intros Hv. rewrite Hfind, Hv, String.eqb_refl. cbn [andb].
    by destruct (_ && _).
Qed.

Lemma redactEvent_idem config (e : DaibugEvent) :
  redactEvent config (redactEvent config e) = redactEvent config e.
Proof.
  unfold redactEvent, with_payload. simpl.
  destruct (decide (source e = BrowserNetwork)) as [Hnet|Hnet];
    destruct (decide (source e = BrowserStorage)) as [Hsto|Hsto]; try congruence;
    f_equal.
  - apply redactNetwork_twice.
  - apply redactStorage_twice.
  - apply redactObject_idem.
Qed.

Lemma redactStorageArea_idem sensitiveFields area :
  Session.redactStorageArea sensitiveFields
    (Session.redactStorageArea sensitiveFields area)
  = Session.redactStorageArea sensitiveFields area.
Proof.
  unfold Session.redactStorageArea. rewrite map_map. apply map_ext.
  intros [k v]. simpl.
  destruct (bool_decide (toLowerCase k ∈ sensitiveFields)) eqn:Hk; simpl; by rewrite Hk.
Qed.

(** X24.  Redacting is idempotent.  An event that the redactor has redacted
    comes back from it unchanged, whatever its source, its payload and the
    configuration; and a session that is redacted for export a second time,
    with the same configuration, does not change. *)
Theorem redacting_twice_changes_nothing
    (config : RedactConfig) (e : DaibugEvent) (session : Session.DaibugSession) :
  redactEvent config (redactEvent config e) = redactEvent config e
  /\ Session.applySessionRedaction (Session.applySessionRedaction session config) config
     = Session.applySessionRedaction session config.
Proof.
  split; [apply redactEvent_idem|].
  unfold Session.applySessionRedaction. simpl. f_equal.
  - rewrite map_map. apply map_ext. intros e0. apply redactEvent_idem.
  - rewrite map_map. apply map_ext. intros w. simpl. f_equal. apply redactEvent_idem.
  - rewrite map_map. apply map_ext. intros s. simpl.
    by rewrite !redactStorageArea_idem.
Qed.

End WithPlatform.

End RedactTwiceSpec.

(** ** mcp-tools.ts: the tools of the watch rules *)

Module McpWatchSpec.
Import JsString Js WatchRules WatchEngine McpWatch.

Lemma nonempty_list_some {A} (l : option (list A)) (x : list A) :
  nonempty_list l = Some x -> l = Some x /\ x <> [].
Proof. destruct l as [[|a l]|]; simpl; [done| |done]. intros [= <-]. by split. Qed.

Lemma nonempty_text_some (s : option string) (x : string) :
  nonempty_text s = Some x -> s = Some x /\ x <> "".
Proof. destruct s as [[|c s]|]; simpl; [done| |done]. intros [= <-]. by split. Qed.

(** The levels that are not names of a level are left out by the filter. *)
Lemma omap_levels_length (names : list string) :
  length (omap Hub.level_of_name names) <= length names
  /\ (length (omap Hub.level_of_name names) = length names
      <-> Forall (fun name => is_Some (Hub.level_of_name name)) names).
Proof.
  induction names as [|name names [IHle IH]]; simpl.
  - split; [done|]. split; [constructor|done].
  - destruct (Hub.level_of_name name) as [l|] eqn:Hl; simpl;
      change (list_omap string EventLevel Hub.level_of_name names)
        with (omap Hub.level_of_name names).
    + split; [lia|]. split.
      * intros Hlen. constructor; [by eexists|]. apply IH. lia.
      * intros Hall. apply Forall_cons in Hall as [_ Hall]. f_equal. by apply IH.
    + split; [lia|]. split; [intros; lia|].
      intros Hall. apply Forall_cons in Hall as [[l' Hsome] _]. congruence.
Qed.

(** What [parseWatchConditions] returns when it reports no error. *)
Lemma parsed_conditions_ok args :
  parsed_error (parseWatchConditions args) = None ->
  let c := parsed_conditions (parseWatchConditions args) in
  (forall codes, statusCodes c = Some codes -> codes <> [])
  /\ (forall pattern, urlPattern c = Some pattern -> pattern <> "")
  /\ (forall ms, methods c = Some ms -> ms <> [])
  /\ (forall ls, levels c = Some ls -> ls <> [])
  /\ (forall needle, messageContains c = Some needle -> needle <> "")
  /\ payloadContains c = None.
Proof.
  unfold parseWatchConditions.
  destruct (match get args "source" with
            | Str name => _ | Undefined | Null => _ | _ => None end) as [source|];
    [|done].
  cbv zeta. destruct (match strings (get args "levels") with Some _ => _ | None => _ end);
    [done|].
  intros _. simpl. repeat split.
  - by intros codes [_ ?]%nonempty_list_some.
  - by intros pattern [_ ?]%nonempty_text_some.
  - by intros ms [_ ?]%nonempty_list_some.
  - by intros ls [_ ?]%nonempty_list_some.
  - by intros needle [_ ?]%nonempty_text_some.
Qed.

Lemma conditions_object_empty c :
  length (conditions_object c) = 0 -> c = no_conditions.
Proof.
  destruct c as [[codes|] [pattern|] [ms|] [ls|] [needle|] [expected|]];
    unfold conditions_object; simpl; try done.
Qed.

(** X25.  The tool [add_watch_rule] either answers with an error and leaves
    the engine as it is, or registers one rule, after the rules there are,
    and answers with it.  The rule it registers is active, has the next id,
    and its label is the trimmed [label] argument, which is not empty; it has
    at least one condition, every condition it has is not empty (no empty
    list of status codes, methods or levels, no empty pattern or text), and
    it never has a [payloadContains] condition. *)
Theorem add_watch_rule_registers_conditioned_rules
    (args : list (string * value)) (now_id now_created : Z) (e : engine) :
  let answer := add_watch_rule args now_id now_created e in
  (answer.2 = e /\ exists message, answer.1 = McpTools.errorResult message)
  \/ (exists rule label,
        answer.2 = {| rules := rules e ++ [rule]; ruleSeq := ruleSeq e + 1;
                      store := store e |}
        /\ answer.1 = McpTools.textResult (rule_object rule)
        /\ rule_id rule = rule_id_of now_id (ruleSeq e + 1)
        /\ get args "label" = Str label /\ rule_label rule = trim label
        /\ rule_label rule <> ""
        /\ rule_active rule = true
        /\ rule_createdAt rule = now_created
        /\ rule_conditions rule <> no_conditions
        /\ (forall codes, statusCodes (rule_conditions rule) = Some codes -> codes <> [])
        /\ (forall pattern, urlPattern (rule_conditions rule) = Some pattern -> pattern <> "")
        /\ (forall ms, methods (rule_conditions rule) = Some ms -> ms <> [])
        /\ (forall ls, levels (rule_conditions rule) = Some ls -> ls <> [])
        /\ (forall needle,
              messageContains (rule_conditions rule) = Some needle -> needle <> "")
        /\ payloadContains (rule_conditions rule) = None).
Proof.
  intros answer. subst answer. unfold add_watch_rule.
  destruct (get args "label") as [| | | |label| |] eqn:Hlabel;
    try (left; split; [done|by eexists]).
  destruct (String.eqb_spec (trim label) "") as [Hempty|Hlabelled];
    [left; split; [done|by eexists]|].
  cbv zeta.
  destruct (parsed_error (parseWatchConditions args)) as [[|ch message]|] eqn:Herror.
  - (* the empty message: none of the messages is empty *)
    exfalso. revert Herror. unfold parseWatchConditions.
    destruct (match get args "source" with
              | Str name => _ | Undefined | Null => _ | _ => None end) as [source|];
      [|simpl; by rewrite JSONSpec.app_cons].
    cbv zeta.
    by destruct (match strings (get args "levels") with Some _ => _ | None => _ end).
  - left. split; [done|by eexists].
  - destruct (Nat.eqb_spec (length (conditions_object
                                      (parsed_conditions (parseWatchConditions args)))) 0)
      as [Hnone|Hsome]; [left; split; [done|by eexists]|].
    right. simpl. eexists _, label. split; [reflexivity|]. split; [reflexivity|].
    simpl. split; [done|]. split; [done|]. split; [done|]. split; [done|].
    split; [done|]. split; [done|]. split.
    { intros Hno. apply Hsome. by rewrite Hno. }
    by apply parsed_conditions_ok.
Qed.

(** X26.  [parseWatchConditions] reports an error in two cases only: the
    [source] argument is there ([undefined] and [null] aside) and is not the
    name of a source, or [levels] is an array of strings one of which is not
    the name of a level.  Arguments of the other conditions that are not
    what they should be are left out without an error: a list of status
    codes or of methods with an element of another type, a pattern or a
    text that is not a string. *)
Theorem watch_conditions_errors (args : list (string * value)) :
  parsed_error (parseWatchConditions args) <> None
  <-> ((get args "source" <> Undefined /\ get args "source" <> Null
        /\ forall source, get args "source" <> Str (source_name source))
       \/ exists names name,
            strings (get args "levels") = Some names /\ name ∈ names
            /\ Hub.level_of_name name = None).
Proof.
  assert (forall name, Hub.source_of_name name = None
                       <-> forall source, name <> source_name source) as Hsource.
  { intros name. split.
    - intros Hnone source ->. by destruct source.
    - intros Hno. unfold Hub.source_of_name.
      destruct (List.find _ _) as [source|] eqn:Hfind; [|done].
      apply find_some in Hfind as [_ Heq%String.eqb_eq]. by destruct (Hno source). }
  assert (forall names,
            (exists name, name ∈ names /\ Hub.level_of_name name = None)
            <-> length (omap Hub.level_of_name names) <> length names) as Hlevels.
  { intros names. destruct (omap_levels_length names) as [_ Hiff]. split.
    - intros (name & Hin & Hnone) Hlen. apply Hiff in Hlen.
      rewrite Forall_forall in Hlen. destruct (Hlen name Hin) as [l Hl]. congruence.
    - intros Hlen.
      destruct (decide (Forall (fun name => is_Some (Hub.level_of_name name)) names))
        as [Hall|Hnot]; [by apply Hiff in Hall|].
      apply not_Forall_Exists in Hnot; [|intros x; apply _].
      apply Exists_exists in Hnot as (name & Hin & Hname). exists name. split; [done|].
      destruct (Hub.level_of_name name) eqn:Hl; [|done]. exfalso. apply Hname. by eexists. }
  unfold parseWatchConditions.
  destruct (get args "source") as [| |b|n|name|items|props] eqn:Hraw.
  3,4,6,7: (simpl; split; [intros _; left; repeat split; try done|done]).
  3:{ destruct (Hub.source_of_name name) as [source|] eqn:Hname.
      2:{ simpl. split; [intros _; left|done]. split; [done|]. split; [done|].
          intros source [= ->]. by apply (proj1 (Hsource _) Hname source). }
      assert (name = source_name source) as Hname'.
      { unfold Hub.source_of_name in Hname.
        by apply find_some in Hname as [_ ?%String.eqb_eq]. }
      subst name.
      cbv zeta. destruct (strings (get args "levels")) as [names|] eqn:Hnames.
      - simpl. destruct (Nat.eqb_spec (length (omap Hub.level_of_name names)) (length names))
          as [Hlen|Hlen]; simpl.
        + split; [done|]. intros [(_ & _ & Hno)|(names' & name & [= <-] & Hin & Hnone)].
          * by destruct (Hno source).
          * exfalso. apply (proj1 (Hlevels names)); [by exists name|done].
        + split; [intros _; right|done].
          apply Hlevels in Hlen as (name & Hin & Hnone). by exists names, name.
      - simpl. split; [done|]. intros [(_ & _ & Hno)|(names' & name & [=] & _)].
        by destruct (Hno source). }
  all: cbv zeta; destruct (strings (get args "levels")) as [names|] eqn:Hnames; simpl.
  all: try (split; [done|]; intros [(? & ? & _)|(names' & name & [=] & _)]; done).
  all: destruct (Nat.eqb_spec (length (omap Hub.level_of_name names)) (length names))
         as [Hlen|Hlen]; simpl.
  all: try (split; [intros _; right|done];
            apply Hlevels in Hlen as (name & Hin & Hnone); by exists names, name).
  all: split; [done|]; intros [(? & ? & _)|(names' & name & [= <-] & Hin & Hnone)];
         [done|]; exfalso; apply (proj1 (Hlevels names)); [by exists name|done].
Qed.

End McpWatchSpec.
